(** * Meep (Meilisearch embedder proxy): a shallow embedding of the cache engine

    The development follows the packages of the repository:

    - [Utf8], [Unicode], [Strings], [Hex], [Sha256]: the parts of the Go
      standard library the fingerprinter calls, written out on byte strings;
    - [Hash]: package [internal/hash] (normalization and fingerprint);
    - [Pipeline]: the normalization pipeline in the words of the
      specification, on texts as sequences of characters, which [Hash] is
      compared with;
    - [Openai]: the provider client with its retry loop;
    - [Database]: the [embedding_cache] table and the statements run on it;
    - [Tracker]: the usage tracker, as a scheduler-driven step function;
    - [Cache]: the orchestrator (validation, single and batch path);
    - [Server]: the [/embed] handler that chains validation and processing.

    A Go [string] is a byte sequence: it is a Rocq [string] here, one [ascii]
    per byte.  A [float64] is a primitive binary64 float.  Log output is not
    part of the model: no result depends on it. *)

From Stdlib Require Import NArith ZArith Ascii String List Bool Lia PrimFloat.
From stdpp Require Import gmap strings list fin_maps.

Local Open Scope N_scope.

(** ** Bytes of a Go string *)

Definition byte_val (c : ascii) : N := N_of_ascii c.
Definition byte_chr (n : N) : ascii := ascii_of_N n.

Fixpoint bytes_of_string (s : string) : list N :=
  match s with
  | EmptyString => []
  | String c t => byte_val c :: bytes_of_string t
  end.

Fixpoint string_of_bytes (l : list N) : string :=
  match l with
  | [] => EmptyString
  | b :: t => String (byte_chr b) (string_of_bytes t)
  end.

Fixpoint string_rev_onto (acc s : string) : string :=
  match s with
  | EmptyString => acc
  | String c t => string_rev_onto (String c acc) t
  end.

Definition string_rev (s : string) : string := string_rev_onto EmptyString s.

(** [s[n:]] and [s[:n]] for [n <= len(s)]. *)
Fixpoint string_drop (n : nat) (s : string) : string :=
  match n, s with
  | O, _ => s
  | S k, EmptyString => EmptyString
  | S k, String _ t => string_drop k t
  end.

Fixpoint string_take (n : nat) (s : string) : string :=
  match n, s with
  | O, _ => EmptyString
  | S k, EmptyString => EmptyString
  | S k, String c t => String c (string_take k t)
  end.

Definition string_tail (s : string) : string :=
  match s with
  | EmptyString => EmptyString
  | String _ t => t
  end.

(** Does the byte [c] occur in [s]? *)
Fixpoint has_byte (c : ascii) (s : string) : bool :=
  match s with
  | EmptyString => false
  | String d t => Ascii.eqb c d || has_byte c t
  end.

(** ** Package unicode/utf8 *)
Module Utf8.

Definition RuneError : N := 0xFFFD.
Definition RuneSelf : N := 0x80.
Definition MaxRune : N := 0x10FFFF.

(** The [first] table together with [acceptRanges]: for a leading byte, the
    length of the sequence and the range accepted for the second byte. *)
Definition first (b : N) : option (nat * N * N) :=
  if b <? 0xC2 then None
  else if b <=? 0xDF then Some (2%nat, 0x80, 0xBF)
  else if b =? 0xE0 then Some (3%nat, 0xA0, 0xBF)
  else if b <=? 0xEC then Some (3%nat, 0x80, 0xBF)
  else if b =? 0xED then Some (3%nat, 0x80, 0x9F)
  else if b <=? 0xEF then Some (3%nat, 0x80, 0xBF)
  else if b =? 0xF0 then Some (4%nat, 0x90, 0xBF)
  else if b <=? 0xF3 then Some (4%nat, 0x80, 0xBF)
  else if b =? 0xF4 then Some (4%nat, 0x80, 0x8F)
  else None.

Definition outside (lo hi b : N) : bool := (b <? lo) || (hi <? b).

(** [utf8.DecodeRuneInString]: the first rune of [s] and its width in bytes;
    [(RuneError, 0)] on the empty string, [(RuneError, 1)] on a byte that
    starts no valid encoding. *)
Definition DecodeRuneInString (s : string) : N * nat :=
  match s with
  | EmptyString => (RuneError, 0%nat)
  | String c0 t0 =>
    let s0 := byte_val c0 in
    if s0 <? RuneSelf then (s0, 1%nat)
    else
      match first s0 with
      | None => (RuneError, 1%nat)
      | Some (sz, lo, hi) =>
        if (String.length s <? sz)%nat then (RuneError, 1%nat)
        else
          match t0 with
          | EmptyString => (RuneError, 1%nat)
          | String c1 t1 =>
            let s1 := byte_val c1 in
            if outside lo hi s1 then (RuneError, 1%nat)
            else if (sz <=? 2)%nat then
              (N.lor (N.shiftl (N.land s0 0x1F) 6) (N.land s1 0x3F), 2%nat)
            else
              match t1 with
              | EmptyString => (RuneError, 1%nat)
              | String c2 t2 =>
                let s2 := byte_val c2 in
                if outside 0x80 0xBF s2 then (RuneError, 1%nat)
                else if (sz <=? 3)%nat then
                  (N.lor (N.lor (N.shiftl (N.land s0 0x0F) 12)
                                (N.shiftl (N.land s1 0x3F) 6))
                         (N.land s2 0x3F), 3%nat)
                else
                  match t2 with
                  | EmptyString => (RuneError, 1%nat)
                  | String c3 _ =>
                    let s3 := byte_val c3 in
                    if outside 0x80 0xBF s3 then (RuneError, 1%nat)
                    else
                      (N.lor (N.lor (N.lor (N.shiftl (N.land s0 0x07) 18)
                                           (N.shiftl (N.land s1 0x3F) 12))
                                    (N.shiftl (N.land s2 0x3F) 6))
                             (N.land s3 0x3F), 4%nat)
                  end
              end
          end
      end
  end.

(** [utf8.RuneStart]. *)
Definition RuneStart (b : N) : bool := negb (N.land b 0xC0 =? 0x80).

(** Position of the first rune-start byte among the bytes before the last
    one, scanning backwards over at most three of them ([UTFMax - 1]). *)
Fixpoint find_start (n : nat) (r : string) : option nat :=
  match n, r with
  | O, _ => None
  | S k, EmptyString => None
  | S k, String c t =>
    if RuneStart (byte_val c) then Some O
    else option_map S (find_start k t)
  end.

(** [utf8.DecodeLastRuneInString], on the reversed string [r] (last byte
    first). *)
Definition DecodeLastRune (r : string) : N * nat :=
  match r with
  | EmptyString => (RuneError, 0%nat)
  | String c rest =>
    let b := byte_val c in
    if b <? RuneSelf then (b, 1%nat)
    else
      match find_start 3 rest with
      | None => (RuneError, 1%nat)
      | Some j =>
        let '(ru, size) := DecodeRuneInString (string_rev (string_take (j + 2) r)) in
        if (size =? j + 2)%nat then (ru, size) else (RuneError, 1%nat)
      end
  end.

Definition surrogate (r : N) : bool := (0xD800 <=? r) && (r <=? 0xDFFF).

(** [utf8.AppendRune] on an empty buffer: the encoding of [r]. *)
Definition EncodeRune (r : N) : string :=
  if r <=? 0x7F then string_of_bytes [r]
  else if r <=? 0x7FF then
    string_of_bytes [N.lor 0xC0 (N.shiftr r 6); N.lor 0x80 (N.land r 0x3F)]
  else if (MaxRune <? r) || surrogate r then string_of_bytes [0xEF; 0xBF; 0xBD]
  else if r <=? 0xFFFF then
    string_of_bytes [N.lor 0xE0 (N.shiftr r 12);
                     N.lor 0x80 (N.land (N.shiftr r 6) 0x3F);
                     N.lor 0x80 (N.land r 0x3F)]
  else
    string_of_bytes [N.lor 0xF0 (N.shiftr r 18);
                     N.lor 0x80 (N.land (N.shiftr r 12) 0x3F);
                     N.lor 0x80 (N.land (N.shiftr r 6) 0x3F);
                     N.lor 0x80 (N.land r 0x3F)].

(** The runes a [for _, r := range s] loop visits.  [skip] counts the bytes
    of the current rune that are still to be stepped over. *)
Fixpoint runes_from (skip : nat) (s : string) : list N :=
  match s with
  | EmptyString => []
  | String _ t =>
    match skip with
    | S k => runes_from k t
    | O => let '(r, size) := DecodeRuneInString s in r :: runes_from (size - 1) t
    end
  end.

Definition runes (s : string) : list N := runes_from 0 s.

(** [utf8.RuneCountInString]. *)
Definition RuneCountInString (s : string) : nat := length (runes s).

(** [utf8.ValidRune]: the code points that can be encoded, that is all of
    them up to [MaxRune] except the surrogate halves. *)
Definition ValidRune (r : N) : bool :=
  (r <? 0xD800) || ((0xDFFF <? r) && (r <=? MaxRune)).

End Utf8.

(** The conversion [string(rs)] of a [[]rune]: the encodings of the runes,
    one after the other. *)
Fixpoint string_of_runes (rs : list N) : string :=
  match rs with
  | [] => EmptyString
  | r :: rest => String.append (Utf8.EncodeRune r) (string_of_runes rest)
  end.

(** A text: runes that can all be encoded. *)
Definition valid_runes (rs : list N) : Prop :=
  Forall (fun r => Utf8.ValidRune r = true) rs.

(** *** Checks run on the encoder and the decoder

    The encoding of a rune above [0x7F] ends with the byte that carries its
    last six bits; the bytes before it depend on the other bits alone.  What
    the proofs need of them is checked on every rune whose last six bits are
    zero. *)
Definition last_byte (r : N) : string :=
  String (byte_chr (N.lor 0x80 (N.land r 0x3F))) EmptyString.

Definition decoded_as (r : N) (size : nat) (d : N * nat) : bool :=
  (fst d =? r) && (snd d =? size)%nat.

Definition lead_ok (r : N) : bool :=
  let e := Utf8.EncodeRune r in
  let n := String.length e in
  decoded_as r n (Utf8.DecodeRuneInString e)
  && (2 <=? n)%nat
  && match Utf8.find_start 3 (string_tail (string_rev e)) with
     | Some j => (j + 2 =? n)%nat
     | None => false
     end
  && negb (has_byte (byte_chr 0x0A) e)
  && negb (has_byte (byte_chr 0x0D) e).

(** [f] on every number from [lo] up to [lo + 2 ^ d], the last one left out. *)
Fixpoint all_in (d : nat) (lo : N) (f : N -> bool) : bool :=
  match d with
  | O => f lo
  | S k => all_in k lo f && all_in k (lo + 2 ^ N.of_nat k) f
  end.

(** ** Package unicode *)
Module Unicode.

(** [unicode.IsControl]: category Cc, all of it in Latin-1. *)
Definition IsControl (r : N) : bool :=
  (r <=? 0x1F) || ((0x7F <=? r) && (r <=? 0x9F)).

(** [unicode.IsSpace]: the Latin-1 cases, then the White_Space table. *)
Definition IsSpace (r : N) : bool :=
  if r <=? 0xFF then
    ((0x09 <=? r) && (r <=? 0x0D)) || (r =? 0x20) || (r =? 0x85) || (r =? 0xA0)
  else
    (r =? 0x1680) || ((0x2000 <=? r) && (r <=? 0x200A)) || (r =? 0x2028)
    || (r =? 0x2029) || (r =? 0x202F) || (r =? 0x205F) || (r =? 0x3000).

End Unicode.

(** ** Package strings *)
Module Strings.

(** [strings.HasPrefix]. *)
Fixpoint HasPrefix (s p : string) : bool :=
  match p, s with
  | EmptyString, _ => true
  | String _ _, EmptyString => false
  | String a p', String b s' => if Ascii.eqb a b then HasPrefix s' p' else false
  end.

(** [strings.TrimLeftFunc(s, unicode.IsSpace)]. *)
Fixpoint trim_left_from (skip : nat) (s : string) : string :=
  match s with
  | EmptyString => EmptyString
  | String _ t =>
    match skip with
    | S k => trim_left_from k t
    | O =>
      let '(r, size) := Utf8.DecodeRuneInString s in
      if Unicode.IsSpace r then trim_left_from (size - 1) t else s
    end
  end.

Definition TrimLeftSpace (s : string) : string := trim_left_from 0 s.

(** [strings.TrimRightFunc(s, unicode.IsSpace)] on the reversed string: runes
    are decoded from the end and dropped while they are white space. *)
Fixpoint trim_right_from (skip : nat) (r : string) : string :=
  match r with
  | EmptyString => EmptyString
  | String _ t =>
    match skip with
    | S k => trim_right_from k t
    | O =>
      let '(ru, size) := Utf8.DecodeLastRune r in
      if Unicode.IsSpace ru then trim_right_from (size - 1) t else r
    end
  end.

Definition TrimRightSpace (s : string) : string :=
  string_rev (trim_right_from 0 (string_rev s)).

(** [strings.TrimSpace]: leading and trailing white space, as defined by
    Unicode, removed. *)
Definition TrimSpace (s : string) : string := TrimRightSpace (TrimLeftSpace s).

(** [strings.ReplaceAll(s, old, new)] for a non-empty [old]: the
    non-overlapping occurrences of [old], left to right. *)
Fixpoint replace_from (old new : string) (skip : nat) (s : string) : string :=
  match s with
  | EmptyString => EmptyString
  | String c t =>
    match skip with
    | S k => replace_from old new k t
    | O =>
      if HasPrefix s old
      then String.append new (replace_from old new (String.length old - 1) t)
      else String c (replace_from old new 0 t)
    end
  end.

Definition ReplaceAll (s old new : string) : string := replace_from old new 0 s.

(** [strings.Split(s, sep)] for a non-empty [sep]; [cur] holds the current
    piece, reversed. *)
Fixpoint split_from (sep : string) (skip : nat) (cur : string) (s : string)
  : list string :=
  match s with
  | EmptyString => [string_rev cur]
  | String c t =>
    match skip with
    | S k => split_from sep k cur t
    | O =>
      if HasPrefix s sep
      then string_rev cur :: split_from sep (String.length sep - 1) EmptyString t
      else split_from sep 0 (String c cur) t
    end
  end.

Definition Split (s sep : string) : list string := split_from sep 0 EmptyString s.

(** [strings.Join]. *)
Fixpoint Join (elems : list string) (sep : string) : string :=
  match elems with
  | [] => EmptyString
  | [e] => e
  | e :: rest => String.append e (String.append sep (Join rest sep))
  end.

End Strings.

(** ** Package encoding/hex *)
Module Hex.

Definition hextable : string := "0123456789abcdef".

Definition digit (n : N) : ascii :=
  match String.get (N.to_nat n) hextable with
  | Some c => c
  | None => "0"%char
  end.

(** [hex.EncodeToString]: two lower-case digits per byte. *)
Fixpoint EncodeToString (src : list N) : string :=
  match src with
  | [] => EmptyString
  | b :: t => String (digit (N.shiftr b 4)) (String (digit (N.land b 0x0F)) (EncodeToString t))
  end.

Definition is_hex_digit (c : ascii) : bool :=
  let b := byte_val c in
  ((0x30 <=? b) && (b <=? 0x39)) || ((0x61 <=? b) && (b <=? 0x66))
  || ((0x41 <=? b) && (b <=? 0x46)).

Fixpoint all_hex (s : string) : bool :=
  match s with
  | EmptyString => true
  | String c t => is_hex_digit c && all_hex t
  end.

(** [hex.DecodeString] succeeds on a string of even length made of hex
    digits of either case. *)
Definition DecodeString_ok (s : string) : bool :=
  Nat.even (String.length s) && all_hex s.

End Hex.

(** ** Package crypto/sha256 (FIPS 180-4), on 32-bit words held in [N] *)
Module Sha256.

Definition mask32 : N := 0xFFFFFFFF.
Definition add32 (a b : N) : N := N.land (a + b) mask32.
Definition rotr (n x : N) : N :=
  N.lor (N.shiftr x n) (N.land (N.shiftl x (32 - n)) mask32).
Definition not32 (x : N) : N := N.lxor x mask32.

Definition Ch (x y z : N) : N := N.lxor (N.land x y) (N.land (not32 x) z).
Definition Maj (x y z : N) : N :=
  N.lxor (N.lxor (N.land x y) (N.land x z)) (N.land y z).
Definition bsig0 (x : N) : N := N.lxor (N.lxor (rotr 2 x) (rotr 13 x)) (rotr 22 x).
Definition bsig1 (x : N) : N := N.lxor (N.lxor (rotr 6 x) (rotr 11 x)) (rotr 25 x).
Definition ssig0 (x : N) : N := N.lxor (N.lxor (rotr 7 x) (rotr 18 x)) (N.shiftr x 3).
Definition ssig1 (x : N) : N := N.lxor (N.lxor (rotr 17 x) (rotr 19 x)) (N.shiftr x 10).

(** The first 64 primes, by trial division. *)
Definition is_prime (n : N) : bool :=
  (1 <? n) && forallb (fun d => negb (n mod N.of_nat d =? 0))
                      (seq 2 (N.to_nat (N.sqrt n) - 1)).

Definition primes64 : list N :=
  Eval vm_compute in List.filter is_prime (map N.of_nat (seq 2 310)).

(** The integer cube root, one bit at a time from bit [bits - 1] down. *)
Fixpoint cube_root_bits (bits : nat) (n r : N) : N :=
  match bits with
  | O => r
  | S b =>
    let c := N.lor r (N.shiftl 1 (N.of_nat b)) in
    cube_root_bits b n (if c * c * c <=? n then c else r)
  end.

(** The round constants: the first 32 bits of the fractional parts of the
    cube roots of the first 64 primes. *)
Definition K : list N :=
  Eval vm_compute in
    map (fun p => N.land (cube_root_bits 36 (N.shiftl p 96) 0) mask32) primes64.

(** The eight chaining words. *)
Record digest := Digest {
  h0 : N; h1 : N; h2 : N; h3 : N; h4 : N; h5 : N; h6 : N; h7 : N
}.

(** The first 32 bits of the fractional part of the square root of [p]. *)
Definition sqrt_frac (p : N) : N := N.land (N.sqrt (N.shiftl p 64)) mask32.

(** The initial hash value, from the first 8 primes. *)
Definition init : digest :=
  Eval vm_compute in
    Digest (sqrt_frac 2) (sqrt_frac 3) (sqrt_frac 5) (sqrt_frac 7)
           (sqrt_frac 11) (sqrt_frac 13) (sqrt_frac 17) (sqrt_frac 19).

(** Padding: a 1 bit, zeros up to 56 mod 64 bytes, the bit length on 8 bytes. *)
Definition be_bytes (n : nat) (x : N) : list N :=
  map (fun i => N.land (N.shiftr x (8 * N.of_nat i)) 0xFF) (rev (seq 0 n)).

Definition pad (msg : list N) : list N :=
  let len := length msg in
  let zeros := ((64 - (len + 9) mod 64) mod 64)%nat in
  msg ++ [0x80] ++ repeat 0 zeros ++ be_bytes 8 (8 * N.of_nat len).

Fixpoint chunks (fuel size : nat) (l : list N) : list (list N) :=
  match fuel with
  | O => []
  | S f =>
    match l with
    | [] => []
    | _ => firstn size l :: chunks f size (skipn size l)
    end
  end.

Definition word_of (bs : list N) : N :=
  fold_left (fun acc b => N.lor (N.shiftl acc 8) b) bs 0.

(** The message schedule, most recent word first. *)
Fixpoint extend (n : nat) (w : list N) : list N :=
  match n with
  | O => w
  | S k =>
    let x := add32 (add32 (ssig1 (nth 1 w 0)) (nth 6 w 0))
                   (add32 (ssig0 (nth 14 w 0)) (nth 15 w 0)) in
    extend k (x :: w)
  end.

Definition schedule (block : list N) : list N :=
  rev (extend 48 (rev (map word_of (chunks 16 4 block)))).

Definition round (s : digest) (kw : N * N) : digest :=
  let '(k, w) := kw in
  let t1 := add32 (add32 (add32 (add32 (h7 s) (bsig1 (h4 s))) (Ch (h4 s) (h5 s) (h6 s))) k) w in
  let t2 := add32 (bsig0 (h0 s)) (Maj (h0 s) (h1 s) (h2 s)) in
  Digest (add32 t1 t2) (h0 s) (h1 s) (h2 s) (add32 (h3 s) t1) (h4 s) (h5 s) (h6 s).

Definition compress (s : digest) (block : list N) : digest :=
  let r := fold_left round (combine K (schedule block)) s in
  Digest (add32 (h0 s) (h0 r)) (add32 (h1 s) (h1 r)) (add32 (h2 s) (h2 r))
         (add32 (h3 s) (h3 r)) (add32 (h4 s) (h4 r)) (add32 (h5 s) (h5 r))
         (add32 (h6 s) (h6 r)) (add32 (h7 s) (h7 r)).

Definition word_bytes (x : N) : list N :=
  [N.land (N.shiftr x 24) 0xFF; N.land (N.shiftr x 16) 0xFF;
   N.land (N.shiftr x 8) 0xFF; N.land x 0xFF].

Definition digest_bytes (s : digest) : list N :=
  word_bytes (h0 s) ++ word_bytes (h1 s) ++ word_bytes (h2 s) ++ word_bytes (h3 s)
  ++ word_bytes (h4 s) ++ word_bytes (h5 s) ++ word_bytes (h6 s) ++ word_bytes (h7 s).

(** [sha256.Sum256]. *)
Definition Sum256 (data : list N) : list N :=
  let p := pad data in
  digest_bytes (fold_left compress (chunks (length p) 64 p) init).

End Sha256.

(** ** Package internal/hash *)
Module Hash.

(** [normalizeUnicode]: every rune of the input is written back, except
    the control characters other than tab, line feed and carriage return. *)
Fixpoint write_runes (rs : list N) : string :=
  match rs with
  | [] => EmptyString
  | r :: t =>
    if Unicode.IsControl r && negb (r =? 0x09) && negb (r =? 0x0A) && negb (r =? 0x0D)
    then write_runes t
    else String.append (Utf8.EncodeRune r) (write_runes t)
  end.

Definition normalizeUnicode (input : string) : string :=
  write_runes (Utf8.runes input).

Definition CR : string := String (byte_chr 0x0D) EmptyString.
Definition LF : string := String (byte_chr 0x0A) EmptyString.
Definition CRLF : string := String (byte_chr 0x0D) LF.

(** The loop of [normalizeWhitespace] over the lines. *)
Fixpoint keep_lines (lines : list string) : list string :=
  match lines with
  | [] => []
  | line :: rest =>
    let trimmed := Strings.TrimSpace line in
    if String.eqb trimmed EmptyString then keep_lines rest
    else trimmed :: keep_lines rest
  end.

Definition normalizeWhitespace (input : string) : string :=
  let input := Strings.ReplaceAll input CRLF LF in
  let input := Strings.ReplaceAll input CR LF in
  let lines := Strings.Split input LF in
  Strings.Join (keep_lines lines) " ".

Definition normalizeInput (input : string) : string :=
  let input := Strings.TrimSpace input in
  let input := normalizeUnicode input in
  let input := normalizeWhitespace input in
  if 10000 <? N.of_nat (String.length input)
  then string_take (N.to_nat 10000) input
  else input.

(** The [data] string of [GenerateInputHash]: [fmt.Sprintf("%s|%s", ...)]. *)
Definition hashData (inputText modelName : string) : string :=
  String.append (normalizeInput inputText) (String.append "|" modelName).

Definition GenerateInputHash (inputText modelName : string) : string :=
  Hex.EncodeToString (Sha256.Sum256 (bytes_of_string (hashData inputText modelName))).

Definition ValidateHash (hash : string) : bool :=
  if negb (String.length hash =? 64)%nat then false else Hex.DecodeString_ok hash.

(** [truncateForLog], for a [maxLen] that is not negative (a negative one
    makes the slice expression panic). *)
Definition truncateForLog (input : string) (maxLen : nat) : string :=
  if (String.length input <=? maxLen)%nat then input
  else if (maxLen <=? 3)%nat then string_take maxLen input
  else String.append (string_take (maxLen - 3) input) "...".

End Hash.

(** ** The normalization pipeline, as the specification describes it

    The steps of the pipeline in the specification's words, on a text given
    as the sequence of its characters (code points).  White space and control
    characters are the Unicode classes of package [unicode]. *)
Module Pipeline.

Definition TAB : N := 0x09.
Definition LF : N := 0x0A.
Definition CR : N := 0x0D.
Definition SPACE : N := 0x20.

Fixpoint drop_leading (p : N -> bool) (t : list N) : list N :=
  match t with
  | [] => []
  | c :: rest => if p c then drop_leading p rest else t
  end.

Definition drop_trailing (p : N -> bool) (t : list N) : list N :=
  rev (drop_leading p (rev t)).

(** Step 1, and the trimming of a line in step 3: leading and trailing white
    space removed. *)
Definition trim (t : list N) : list N :=
  drop_trailing Unicode.IsSpace (drop_leading Unicode.IsSpace t).

(** Step 2: control characters stripped, except tab, newline and carriage
    return. *)
Definition stays (c : N) : bool :=
  negb (Unicode.IsControl c) || (c =? TAB) || (c =? LF) || (c =? CR).

Definition strip_controls (t : list N) : list N := List.filter stays t.

(** Step 3: line endings made canonical, every ["\r\n"] and then every
    remaining ["\r"] becoming ["\n"]. *)
Fixpoint crlf_to_lf (t : list N) : list N :=
  match t with
  | [] => []
  | c :: rest =>
    match rest with
    | d :: rest' =>
      if (c =? CR) && (d =? LF) then LF :: crlf_to_lf rest'
      else c :: crlf_to_lf rest
    | [] => [c]
    end
  end.

Definition cr_to_lf (t : list N) : list N :=
  map (fun c => if c =? CR then LF else c) t.

Definition canonical_line_endings (t : list N) : list N :=
  cr_to_lf (crlf_to_lf t).

(** The lines of a text: the pieces between its newlines. *)
Fixpoint lines (t : list N) : list (list N) :=
  match t with
  | [] => [[]]
  | c :: rest =>
    if c =? LF then [] :: lines rest
    else
      match lines rest with
      | line :: others => (c :: line) :: others
      | [] => [[c]]
      end
  end.

Definition nonempty (line : list N) : bool :=
  match line with
  | [] => false
  | _ :: _ => true
  end.

(** Each line trimmed, the empty ones dropped. *)
Definition surviving_lines (ls : list (list N)) : list (list N) :=
  List.filter nonempty (map trim ls).

(** The lines joined again, a single space between two of them. *)
Fixpoint rejoin (ls : list (list N)) : list N :=
  match ls with
  | [] => []
  | [line] => line
  | line :: others => line ++ SPACE :: rejoin others
  end.

(** Steps 1 to 3. *)
Definition normal (t : list N) : list N :=
  rejoin (surviving_lines (lines (canonical_line_endings (strip_controls (trim t))))).

(** Step 4: at most 10,000 characters are kept. *)
Definition limit : nat := N.to_nat 10000.

Definition run (t : list N) : list N := take limit (normal t).

(** The same with the 10,000 counted in bytes of the UTF-8 text. *)
Definition run_bytes (t : list N) : string :=
  string_take limit (string_of_runes (normal t)).

End Pipeline.

(** ** Values shared by the packages *)

Definition float64 : Set := PrimFloat.float.

(** A [uuid.UUID], as its 128-bit value. *)
Definition uuid : Set := N.

(** A Go [error] built by [fmt.Errorf]: the format string, its integer
    arguments and the error wrapped by [%w]; or an error handed over by a
    collaborator (the SDK, the driver, the context). *)
Inductive error : Set :=
| External (what : string)
| Errorf (format : string) (args : list Z)
| Wrapf (format : string) (args : list Z) (wrapped : error).

(** [==] on two error values.  An error made by [errors.New] in a package
    variable is one pointer, equal to itself alone: the sentinels below are
    told apart by their text, which differs. *)
Fixpoint error_eqb (a b : error) : bool :=
  match a, b with
  | External x, External y => String.eqb x y
  | Errorf f xs, Errorf g ys => String.eqb f g && bool_decide (xs = ys)
  | Wrapf f xs e, Wrapf g ys e' =>
    String.eqb f g && bool_decide (xs = ys) && error_eqb e e'
  | _, _ => false
  end.

(** Package database/sql: [sql.ErrNoRows]. *)
Module Sql.
Definition ErrNoRows : error := External "sql: no rows in result set".
End Sql.

(** Package pgx (v5): [pgx.ErrNoRows], the error a pool's [Row.Scan] returns
    when the query gave no row.  It is a value of pgx's own, not the
    database/sql sentinel. *)
Module Pgx.
Definition ErrNoRows : error := External "no rows in result set".
End Pgx.

(** [fmt.Errorf] with a [%w] whose operand may be nil. *)
Definition wrap_nilable (format : string) (args : list Z) (e : option error) : error :=
  match e with
  | Some inner => Wrapf format args inner
  | None => Errorf format args
  end.

(** ** Package internal/openai *)
Module Openai.

Record TokenUsage := mkUsage { PromptTokens : Z; TotalTokens : Z }.

Definition no_usage : TokenUsage := mkUsage 0 0.

Record EmbeddingResponse := mkResponse {
  Embedding : list float64;
  Embeddings : list (list float64);
  Model : string;
  Usage : TokenUsage
}.

(** What [client.Embeddings.New] hands back: the [Data] vectors, the model
    and the usage block. *)
Record ApiResponse := mkApi {
  Data : list (list float64);
  ApiModel : string;
  ApiUsage : TokenUsage
}.

(** The provider is outside the program.  Its answer to the [n]-th request
    of the process is [respond n inputs]; [ctx_done n] tells whether the
    context is done while the client waits before sending request [n]. *)
Record Provider := mkProvider {
  respond : nat -> list string -> ApiResponse + error;
  ctx_done : nat -> option error
}.

Record Client := mkClient {
  provider : Provider;
  model : string;
  maxRetries : Z
}.

(** The requests sent so far, oldest first. *)
Definition Sent : Type := list (list string).

(** The copy loop over [response.Data]: an empty vector leaves its slot nil
    and sets [lastErr]. *)
Fixpoint copy_vectors (i : nat) (data : list (list float64)) (lastErr : option error)
  : list (list float64) * option error :=
  match data with
  | [] => ([], lastErr)
  | v :: rest =>
    if (length v =? 0)%nat then
      let '(out, e) :=
        copy_vectors (S i) rest
          (Some (Errorf "empty embedding vector returned from OpenAI at index %d"
                        [Z.of_nat i])) in
      ([] :: out, e)
    else
      let '(out, e) := copy_vectors (S i) rest lastErr in
      (v :: out, e)
  end.

(** The retry loop of [CreateBatchEmbeddings]: [fuel] iterations are left,
    [attempt] is the loop counter and [lastErr] the variable declared before
    the loop. *)
Fixpoint attempts (c : Client) (inputs : list string) (fuel attempt : nat)
    (lastErr : option error) (sent : Sent) : (EmbeddingResponse + error) * Sent :=
  match fuel with
  | O =>
    (inr (wrap_nilable "failed to create batch embeddings after %d attempts: %w"
                       [(maxRetries c + 1)%Z] lastErr), sent)
  | S fuel' =>
    match (if (0 <? attempt)%nat then ctx_done (provider c) (length sent) else None) with
    | Some ctxErr => (inr ctxErr, sent)
    | None =>
      let reply := respond (provider c) (length sent) inputs in
      let sent := sent ++ [inputs] in
      match reply with
      | inr err => attempts c inputs fuel' (S attempt) (Some err) sent
      | inl response =>
        if (length (Data response) =? 0)%nat then
          attempts c inputs fuel' (S attempt)
            (Some (Errorf "no embedding data returned from OpenAI" [])) sent
        else
          let '(embeddings, lastErr) := copy_vectors 0 (Data response) lastErr in
          match lastErr with
          | Some _ => attempts c inputs fuel' (S attempt) lastErr sent
          | None =>
            let usage :=
              if (0 <? PromptTokens (ApiUsage response))%Z
              then ApiUsage response else no_usage in
            (inl (mkResponse [] embeddings (ApiModel response) usage), sent)
          end
      end
    end
  end.

Definition CreateBatchEmbeddings (c : Client) (inputs : list string) (sent : Sent)
  : (EmbeddingResponse + error) * Sent :=
  if (length inputs =? 0)%nat then
    (inr (Errorf "input array cannot be empty" []), sent)
  else if (1000 <? N.of_nat (length inputs)) then
    (inr (Errorf "batch size too large (max 1000 items)" []), sent)
  else
    attempts c inputs (Z.to_nat (maxRetries c + 1)) 0 None sent.

Definition CreateEmbedding (c : Client) (input : string) (sent : Sent)
  : (EmbeddingResponse + error) * Sent :=
  if String.eqb input EmptyString then
    (inr (Errorf "input text cannot be empty" []), sent)
  else
    match CreateBatchEmbeddings c [input] sent with
    | (inr err, sent) => (inr err, sent)
    | (inl responses, sent) =>
      match Embeddings responses with
      | [] => (inr (Errorf "no embedding data returned from OpenAI" []), sent)
      | e0 :: _ => (inl (mkResponse e0 [] (Model responses) (Usage responses)), sent)
      end
    end.

Definition GetModel (c : Client) : string := model c.

End Openai.

(** ** Package internal/database *)
Module Database.

(** A row of [embedding_cache]; timestamps are instants on the server clock. *)
Record CachedEmbedding := mkRow {
  ID : uuid;
  InputHash : string;
  InputText : string;
  EmbeddingVector : list float64;
  ModelName : string;
  InputLength : Z;
  CreatedAt : Z;
  UpdatedAt : Z;
  UsedAt : Z
}.

Record BatchItem := mkItem {
  Input : string;
  Hash : string;
  Index : nat;
  Cached : option CachedEmbedding
}.

(** The table and the number of statements run on it so far. *)
Record Store := mkStore {
  rows : list CachedEmbedding;
  ops : nat
}.

(** The server side of the pool: for the [n]-th statement, the value of
    [NOW()], the value of [uuid_generate_v4()], and the error the driver
    reports when the statement does not go through. *)
Record Backend := mkBackend {
  now : nat -> Z;
  fresh_id : nat -> uuid;
  fault : nat -> option error
}.

(** [input_hash] is declared [UNIQUE] and [id] is the primary key. *)
Definition unique_hashes (t : list CachedEmbedding) : Prop :=
  NoDup (map InputHash t).

Definition hash_eqb (h : string) (r : CachedEmbedding) : bool :=
  String.eqb (InputHash r) h.

(** [db.pool.QueryRow(ctx, query, inputHash).Scan(...)] for
    [SELECT ... WHERE input_hash = $1]: the row found, the driver's error
    when the statement does not go through, and [pgx.ErrNoRows] when no row
    has this hash.  The row carries the vector that [parseEmbeddingVector]
    reads back from the text [StoreEmbedding] wrote; a stored text that does
    not parse is outside the model. *)
Definition QueryRow_Scan (b : Backend) (inputHash : string) (s : Store)
  : CachedEmbedding + error :=
  match fault b (ops s) with
  | Some err => inr err
  | None =>
    match List.find (hash_eqb inputHash) (rows s) with
    | Some embedding => inl embedding
    | None => inr Pgx.ErrNoRows
    end
  end.

(** [GetCachedEmbedding]: the error of the scan is compared with
    [sql.ErrNoRows] by [==]; any other error is wrapped and returned. *)
Definition GetCachedEmbedding (b : Backend) (inputHash : string) (s : Store)
  : (option CachedEmbedding + error) * Store :=
  let s' := mkStore (rows s) (S (ops s)) in
  match QueryRow_Scan b inputHash s with
  | inr err =>
    if error_eqb err Sql.ErrNoRows then (inl None, s')
    else (inr (Wrapf "failed to query cached embedding: %w" [] err), s')
  | inl embedding => (inl (Some embedding), s')
  end.

(** What a pgx pool never does: hand out database/sql's sentinel. *)
Definition pgx_pool (b : Backend) : Prop :=
  forall n, fault b n <> Some Sql.ErrNoRows.

(** The first loop of [GetBatchCachedEmbeddings]: [hashToItem] maps a hash
    to the item stored last under it.  The items are the distinct pointers
    of the slice, so an item is named by its slot. *)
Fixpoint index_items (i : nat) (items : list BatchItem) (m : gmap string nat)
  : gmap string nat :=
  match items with
  | [] => m
  | item :: rest => index_items (S i) rest (<[Hash item := i]> m)
  end.

Definition set_cached (e : CachedEmbedding) (item : BatchItem) : BatchItem :=
  mkItem (Input item) (Hash item) (Index item) (Some e).

(** [SELECT ... WHERE input_hash = ANY($1)]. *)
Definition select_any (hashes : list string) (t : list CachedEmbedding)
  : list CachedEmbedding :=
  List.filter (fun r => bool_decide (InputHash r ∈ hashes)) t.

(** The last loop: [item.Cached = embedding] through the pointer kept in
    [hashToItem]. *)
Fixpoint attach (hashToItem : gmap string nat) (embeddings : list CachedEmbedding)
    (items : list BatchItem) : list BatchItem :=
  match embeddings with
  | [] => items
  | e :: rest =>
    match hashToItem !! InputHash e with
    | Some i => attach hashToItem rest (alter (set_cached e) i items)
    | None => attach hashToItem rest items
    end
  end.

(** Reading the two loops back: the slot [hashToItem] keeps for a hash is
    the last one that carries it, and the embedding a slot ends up with is
    the last one whose hash is mapped to that slot. *)
Fixpoint last_index (h : string) (items : list BatchItem) : option nat :=
  match items with
  | [] => None
  | item :: rest =>
    match last_index h rest with
    | Some i => Some (S i)
    | None => if String.eqb (Hash item) h then Some O else None
    end
  end.

Fixpoint pick (hashToItem : gmap string nat) (i : nat) (embeddings : list CachedEmbedding)
  : option CachedEmbedding :=
  match embeddings with
  | [] => None
  | e :: rest =>
    match pick hashToItem i rest with
    | Some e' => Some e'
    | None => if decide (hashToItem !! InputHash e = Some i) then Some e else None
    end
  end.

(** What the lookup leaves in [Cached] of the item in slot [i]. *)
Definition expected_cached (t : list CachedEmbedding) (items : list BatchItem)
    (i : nat) (item : BatchItem) : option CachedEmbedding :=
  if decide (last_index (Hash item) items = Some i) then
    match List.find (hash_eqb (Hash item)) t with
    | Some e => Some e
    | None => Cached item
    end
  else Cached item.

Definition GetBatchCachedEmbeddings (b : Backend) (batchItems : list BatchItem)
    (s : Store) : (list BatchItem + error) * Store :=
  if (length batchItems =? 0)%nat then (inl batchItems, s)
  else
    let hashes := map Hash batchItems in
    let hashToItem := index_items 0 batchItems ∅ in
    let s' := mkStore (rows s) (S (ops s)) in
    match fault b (ops s) with
    | Some err => (inr (Wrapf "failed to query batch cached embeddings: %w" [] err), s')
    | None =>
      let embeddings := select_any hashes (rows s) in
      (inl (attach hashToItem embeddings batchItems), s')
    end.

(** [ON CONFLICT (input_hash) DO UPDATE SET embedding_vector, updated_at,
    used_at]: the row that holds the hash keeps every other column. *)
Definition on_conflict (t : Z) (vector : list float64) (r : CachedEmbedding)
  : CachedEmbedding :=
  mkRow (ID r) (InputHash r) (InputText r) vector (ModelName r) (InputLength r)
        (CreatedAt r) t t.

Fixpoint upsert (new : CachedEmbedding) (t : list CachedEmbedding)
  : list CachedEmbedding :=
  match t with
  | [] => [new]
  | r :: rest =>
    if hash_eqb (InputHash new) r
    then on_conflict (UsedAt new) (EmbeddingVector new) r :: rest
    else r :: upsert new rest
  end.

(** The row proposed by the [INSERT] of [StoreEmbedding]: a generated id,
    the length of the text, and the three timestamps at [NOW()]. *)
Definition proposed_row (b : Backend) (inputHash inputText modelName : string)
    (embeddingVector : list float64) (s : Store) : CachedEmbedding :=
  let t := now b (ops s) in
  mkRow (fresh_id b (ops s)) inputHash inputText embeddingVector modelName
        (Z.of_nat (String.length inputText)) t t t.

Definition StoreEmbedding (b : Backend) (inputHash inputText modelName : string)
    (embeddingVector : list float64) (s : Store) : option error * Store :=
  match fault b (ops s) with
  | Some err =>
    (Some (Wrapf "failed to store embedding: %w" [] err), mkStore (rows s) (S (ops s)))
  | None =>
    let proposed := proposed_row b inputHash inputText modelName embeddingVector s in
    (None, mkStore (upsert proposed (rows s)) (S (ops s)))
  end.

(** The [UPDATE ... SET used_at = NOW() WHERE id = ANY($1)] of the tracker;
    the table's [BEFORE UPDATE] trigger sets [updated_at] as well. *)
Definition mark_used (t : Z) (ids : list uuid) (r : CachedEmbedding) : CachedEmbedding :=
  if bool_decide (ID r ∈ ids)
  then mkRow (ID r) (InputHash r) (InputText r) (EmbeddingVector r) (ModelName r)
             (InputLength r) (CreatedAt r) t t
  else r.

Definition UpdateUsage (b : Backend) (ids : list uuid) (s : Store) : option error * Store :=
  match fault b (ops s) with
  | Some err => (Some err, mkStore (rows s) (S (ops s)))
  | None => (None, mkStore (map (mark_used (now b (ops s)) ids) (rows s)) (S (ops s)))
  end.

End Database.

(** ** Package internal/tracker *)
Module Tracker.

Definition channel_capacity : N := 1000.

(** The [select] of [TrackUsage]: send if the channel has room, else drop. *)
Definition send_or_drop (id : uuid) (ch : list uuid) : list uuid :=
  if N.of_nat (length ch) <? channel_capacity then ch ++ [id] else ch.

Inductive task : Set := Running | Returned.

(** The tracker and what its two goroutines have done.  [usageChan] holds
    the ids buffered in the channel, oldest first; [flushed] lists the
    batches handed to [updateUsageTimestamps], oldest first. *)
Record UsageTracker := mkTracker {
  usageChan : list uuid;
  chanClosed : bool;
  stopClosed : bool;
  ctxDone : bool;
  buffer : list uuid;
  batchSize : Z;
  ingest : task;
  timer : task;
  flushed : list (list uuid);
  stopped : bool
}.

(** [New] followed by [Start]. *)
Definition started (batchSize : Z) : UsageTracker :=
  mkTracker [] false false false [] batchSize Running Running [] false.

Definition flushBuffer (ut : UsageTracker) : UsageTracker :=
  match buffer ut with
  | [] => ut
  | batch =>
    mkTracker (usageChan ut) (chanClosed ut) (stopClosed ut) (ctxDone ut) []
              (batchSize ut) (ingest ut) (timer ut) (flushed ut ++ [batch]) (stopped ut)
  end.

Definition with_ingest (t : task) (ut : UsageTracker) : UsageTracker :=
  mkTracker (usageChan ut) (chanClosed ut) (stopClosed ut) (ctxDone ut) (buffer ut)
            (batchSize ut) t (timer ut) (flushed ut) (stopped ut).

Definition with_timer (t : task) (ut : UsageTracker) : UsageTracker :=
  mkTracker (usageChan ut) (chanClosed ut) (stopClosed ut) (ctxDone ut) (buffer ut)
            (batchSize ut) (ingest ut) t (flushed ut) (stopped ut).

(** What the scheduler may pick next.  A [select] with several ready cases
    takes any one of them: each case is an event of its own. *)
Inductive event : Set :=
| CallTrackUsage (id : uuid)   (* a request calls [TrackUsage] *)
| IngestReceive                (* [processUsageUpdates]: case [<-usageChan] *)
| IngestStop                   (* [processUsageUpdates]: case [<-stopChan] *)
| IngestCtx                    (* [processUsageUpdates]: case [<-ctx.Done()] *)
| TimerTick                    (* [flushPeriodically]: case [<-ticker.C] *)
| TimerStop                    (* [flushPeriodically]: case [<-stopChan] *)
| TimerCtx                     (* [flushPeriodically]: case [<-ctx.Done()] *)
| CtxCancel                    (* the context given to [Start] is cancelled *)
| StopClose                    (* [Stop]: both [close] calls *)
| StopReturn.                  (* [Stop]: [wg.Wait()] passes, final flush *)

Definition is_running (t : task) : bool :=
  match t with Running => true | Returned => false end.

(** One scheduling step; [None] when the event cannot happen in this state
    (or would panic: a send on, or a second close of, a closed channel). *)
Definition step (ev : event) (ut : UsageTracker) : option UsageTracker :=
  match ev with
  | CallTrackUsage id =>
    if chanClosed ut then None
    else Some (mkTracker (send_or_drop id (usageChan ut)) (chanClosed ut) (stopClosed ut)
                         (ctxDone ut) (buffer ut) (batchSize ut) (ingest ut) (timer ut)
                         (flushed ut) (stopped ut))
  | IngestReceive =>
    if negb (is_running (ingest ut)) then None
    else
      match usageChan ut with
      | id :: rest =>
        let ut' := mkTracker rest (chanClosed ut) (stopClosed ut) (ctxDone ut)
                             (buffer ut ++ [id]) (batchSize ut) (ingest ut) (timer ut)
                             (flushed ut) (stopped ut) in
        if (batchSize ut <=? Z.of_nat (length (buffer ut')))%Z
        then Some (flushBuffer ut') else Some ut'
      | [] => if chanClosed ut then Some (with_ingest Returned ut) else None
      end
  | IngestStop =>
    if is_running (ingest ut) && stopClosed ut then Some (with_ingest Returned ut) else None
  | IngestCtx =>
    if is_running (ingest ut) && ctxDone ut then Some (with_ingest Returned ut) else None
  | TimerTick =>
    if is_running (timer ut) then Some (flushBuffer ut) else None
  | TimerStop =>
    if is_running (timer ut) && stopClosed ut then Some (with_timer Returned ut) else None
  | TimerCtx =>
    if is_running (timer ut) && ctxDone ut then Some (with_timer Returned ut) else None
  | CtxCancel =>
    Some (mkTracker (usageChan ut) (chanClosed ut) (stopClosed ut) true (buffer ut)
                    (batchSize ut) (ingest ut) (timer ut) (flushed ut) (stopped ut))
  | StopClose =>
    if stopClosed ut || chanClosed ut then None
    else Some (mkTracker (usageChan ut) true true (ctxDone ut) (buffer ut)
                         (batchSize ut) (ingest ut) (timer ut) (flushed ut) (stopped ut))
  | StopReturn =>
    if stopClosed ut && negb (is_running (ingest ut)) && negb (is_running (timer ut))
       && negb (stopped ut)
    then
      let ut' := flushBuffer ut in
      Some (mkTracker (usageChan ut') (chanClosed ut') (stopClosed ut') (ctxDone ut')
                      (buffer ut') (batchSize ut') (ingest ut') (timer ut') (flushed ut') true)
    else None
  end.

Fixpoint run (schedule : list event) (ut : UsageTracker) : option UsageTracker :=
  match schedule with
  | [] => Some ut
  | ev :: rest =>
    match step ev ut with
    | Some ut' => run rest ut'
    | None => None
    end
  end.

(** An id has been marked used when some flushed batch holds it. *)
Definition marked_used (id : uuid) (ut : UsageTracker) : bool :=
  existsb (fun batch => existsb (N.eqb id) batch) (flushed ut).

End Tracker.

(** ** Package internal/cache *)
Module Cache.
Import Database.

(** The dynamic value held by [EmbeddingRequest.Input]: what the JSON
    decoder leaves in an [interface{}], and the [[]string] a Go caller may
    pass. *)
#[warnings="-register-all"]
Inductive iface : Type :=
| INil
| IBool (b : bool)
| INumber (f : float64)
| IString (s : string)
| IArray (items : list iface)
| IObject
| IStrings (l : list string).

Record EmbeddingRequest := mkRequest {
  Input : iface;
  Model : string
}.

Record EmbeddingResponse := mkResponse {
  Embedding : list float64;
  Embeddings : list (list float64);
  RespModel : string;
  RespCached : bool;
  CachedItems : list bool;
  TokenUsage : Openai.TokenUsage
}.

Record BatchResult := mkResult {
  ResEmbedding : list float64;
  ResCached : bool;
  ResIndex : nat
}.

(** The collaborators a [Cache] is built from; [tracker] tells whether the
    tracker pointer is non-nil. *)
Record Cache := mkCache {
  db : Database.Backend;
  ai : Openai.Client;
  tracker : bool
}.

(** Everything a request can read or change outside itself: the table, the
    requests sent to the provider, and the tracker's channel. *)
Record World := mkWorld {
  store : Database.Store;
  sent : Openai.Sent;
  usageChan : list uuid
}.

Definition isBatchInput (input : iface) : bool :=
  match input with
  | IString _ => false
  | IArray _ => true
  | IStrings _ => true
  | _ => false
  end.

(** The [[]interface{}] case of [normalizeInput]: stop at the first element
    that is not a string. *)
Fixpoint strings_of (i : nat) (v : list iface) : list string + error :=
  match v with
  | [] => inl []
  | IString str :: rest =>
    match strings_of (S i) rest with
    | inl result => inl (str :: result)
    | inr err => inr err
    end
  | _ :: _ => inr (Errorf "batch input item at index %d is not a string" [Z.of_nat i])
  end.

Definition normalizeInput (input : iface) : list string + error :=
  match input with
  | IString v => inl [v]
  | IArray v => strings_of 0 v
  | IStrings v => inl v
  | _ => inr (Errorf "invalid input type: expected string or array of strings" [])
  end.

Definition max_batch : N := 1000.
Definition max_item_len : N := 10000.

Definition too_long (input : string) : bool :=
  max_item_len <? N.of_nat (String.length input).

(** The loop of [ValidateRequest] over the batch items. *)
Fixpoint first_too_long (i : nat) (inputs : list string) : option error :=
  match inputs with
  | [] => None
  | input :: rest =>
    if too_long input
    then Some (Errorf "batch input item at index %d too long (max 10000 characters)"
                      [Z.of_nat i])
    else first_too_long (S i) rest
  end.

Definition ValidateRequest (c : Cache) (req : EmbeddingRequest) : option error :=
  match Input req with
  | INil => Some (Errorf "input is required" [])
  | _ =>
    match normalizeInput (Input req) with
    | inr err => Some err
    | inl inputs =>
      if (length inputs =? 0)%nat then Some (Errorf "input cannot be empty" [])
      else if isBatchInput (Input req) then
        if max_batch <? N.of_nat (length inputs)
        then Some (Errorf "batch input too large (max 1000 items)" [])
        else first_too_long 0 inputs
      else
        match inputs with
        | input0 :: _ =>
          if too_long input0
          then Some (Errorf "input text too long (max 10000 characters)" [])
          else None
        | [] => None
        end
    end
  end.

(** *** The vocabulary of the validation contract *)

Definition is_string_value (x : iface) : bool :=
  match x with IString _ => true | _ => false end.

Fixpoint string_items (v : list iface) : list string :=
  match v with
  | [] => []
  | IString str :: rest => str :: string_items rest
  | _ :: rest => string_items rest
  end.

(** The texts an input carries. *)
Definition texts (input : iface) : list string :=
  match input with
  | IString v => [v]
  | IArray v => string_items v
  | IStrings v => v
  | _ => []
  end.

Definition item_count (input : iface) : nat :=
  match input with
  | IString _ => 1
  | IArray v => length v
  | IStrings v => length v
  | _ => 0
  end.

Definition absent (input : iface) : Prop := input = INil.

(** A value that is neither a string nor an array. *)
Definition not_text (input : iface) : Prop :=
  match input with
  | IBool _ | INumber _ | IObject => True
  | _ => False
  end.

Definition has_non_string (input : iface) : Prop :=
  exists v x, input = IArray v /\ In x v /\ is_string_value x = false.

Definition empty_collection (input : iface) : Prop :=
  input = IArray [] \/ input = IStrings [].

Definition oversized (input : iface) : Prop :=
  isBatchInput input = true /\ max_batch < N.of_nat (item_count input).


Definition long_item_bytes (input : iface) : Prop :=
  exists item, In item (texts input) /\ max_item_len < N.of_nat (String.length item).


(** The reasons that depend on the shape of the input alone. *)
Definition shape_rejection (input : iface) : Prop :=
  absent input \/ not_text input \/ has_non_string input
  \/ empty_collection input \/ oversized input.

Definition effective_model (c : Cache) (req : EmbeddingRequest) : string :=
  if String.eqb (Model req) EmptyString then Openai.GetModel (ai c) else Model req.

Definition TrackUsage (c : Cache) (id : uuid) (w : World) : World :=
  if tracker c
  then mkWorld (store w) (sent w) (Tracker.send_or_drop id (usageChan w))
  else w.

Definition miss_response (r : Openai.EmbeddingResponse) : EmbeddingResponse :=
  mkResponse (Openai.Embedding r) [] (Openai.Model r) false [] (Openai.Usage r).

Definition processSingleRequest (c : Cache) (req : EmbeddingRequest) (w : World)
  : (EmbeddingResponse + error) * World :=
  match normalizeInput (Input req) with
  | inr err => (inr err, w)
  | inl [] => (inr (External "panic: index out of range [0] with length 0"), w)
  | inl (input :: _) =>
    if String.eqb input EmptyString
    then (inr (Errorf "input text cannot be empty" []), w)
    else
      let modelName := effective_model c req in
      let inputHash := Hash.GenerateInputHash input modelName in
      match GetCachedEmbedding (db c) inputHash (store w) with
      | (inr err, st) =>
        (inr (Wrapf "failed to check cache: %w" [] err), mkWorld st (sent w) (usageChan w))
      | (inl (Some cached), st) =>
        let w := TrackUsage c (ID cached) (mkWorld st (sent w) (usageChan w)) in
        (inl (mkResponse (EmbeddingVector cached) [] (ModelName cached) true []
                         Openai.no_usage), w)
      | (inl None, st) =>
        match Openai.CreateEmbedding (ai c) input (sent w) with
        | (inr err, sn) =>
          (inr (Wrapf "failed to create embedding: %w" [] err), mkWorld st sn (usageChan w))
        | (inl aiResponse, sn) =>
          let '(_, st) :=
            StoreEmbedding (db c) inputHash input modelName
                           (Openai.Embedding aiResponse) st in
          (inl (miss_response aiResponse), mkWorld st sn (usageChan w))
        end
      end
  end.

Fixpoint prepare_from (i : nat) (inputs : list string) (modelName : string)
  : list BatchItem :=
  match inputs with
  | [] => []
  | input :: rest =>
    mkItem input (Hash.GenerateInputHash input modelName) i None
    :: prepare_from (S i) rest modelName
  end.

Definition prepareBatchItems (inputs : list string) (modelName : string)
  : list BatchItem := prepare_from 0 inputs modelName.

(** The counting loop of [processBatchRequest]: one [TrackUsage] per hit. *)
Fixpoint track_hits (c : Cache) (batchItems : list BatchItem) (w : World) : World :=
  match batchItems with
  | [] => w
  | item :: rest =>
    match Cached item with
    | Some cached => track_hits c rest (TrackUsage c (ID cached) w)
    | None => track_hits c rest w
    end
  end.

Fixpoint getUncachedItems (batchItems : list BatchItem) : list BatchItem :=
  match batchItems with
  | [] => []
  | item :: rest =>
    match Cached item with
    | None => item :: getUncachedItems rest
    | Some _ => getUncachedItems rest
    end
  end.

Definition createBatchEmbeddings (c : Cache) (uncachedItems : list BatchItem)
    (modelName : string) (sn : Openai.Sent)
  : (Openai.EmbeddingResponse + error) * Openai.Sent :=
  Openai.CreateBatchEmbeddings (ai c) (map Database.Input uncachedItems) sn.

(** [storeBatchEmbeddings]: item [i] is stored with vector [i] while there
    is one; a failed write is logged and the loop goes on. *)
Fixpoint storeBatchEmbeddings (c : Cache) (uncachedItems : list BatchItem)
    (vectors : list (list float64)) (modelName : string) (st : Store) : Store :=
  match uncachedItems, vectors with
  | item :: items, v :: vs =>
    let '(_, st) := StoreEmbedding (db c) (Hash item) (Database.Input item) modelName v st in
    storeBatchEmbeddings c items vs modelName st
  | _, _ => st
  end.

(** [results[i] = r]; Go panics when [i] is out of range. *)
Definition store_at {A : Type} (i : nat) (x : A) (l : list A) : option (list A) :=
  if (i <? length l)%nat then Some (<[i := x]> l) else None.

Fixpoint fill_hits (batchItems : list BatchItem) (results : list (option BatchResult))
  : option (list (option BatchResult)) :=
  match batchItems with
  | [] => Some results
  | item :: rest =>
    match Cached item with
    | Some cached =>
      match store_at (Index item)
                     (Some (mkResult (EmbeddingVector cached) true (Index item))) results with
      | Some results => fill_hits rest results
      | None => None
      end
    | None => fill_hits rest results
    end
  end.

Fixpoint fill_misses (uncachedItems : list BatchItem) (vectors : list (list float64))
    (results : list (option BatchResult)) : option (list (option BatchResult)) :=
  match uncachedItems, vectors with
  | item :: items, v :: vs =>
    match store_at (Index item) (Some (mkResult v false (Index item))) results with
    | Some results => fill_misses items vs results
    | None => None
    end
  | _, _ => Some results
  end.

(** [assembleBatchResults]; [vectors] is [aiResponse.Embeddings], empty when
    no provider call was made.  [None] stands for the index panic. *)
Definition assembleBatchResults (batchItems uncachedItems : list BatchItem)
    (vectors : list (list float64)) (originalSize : nat)
  : option (list (option BatchResult)) :=
  match fill_hits batchItems (repeat None originalSize) with
  | Some results => fill_misses uncachedItems vectors results
  | None => None
  end.

Definition extractEmbeddings (results : list (option BatchResult)) : list (list float64) :=
  map (fun result => match result with Some r => ResEmbedding r | None => [] end) results.

Definition extractCachedFlags (results : list (option BatchResult)) : list bool :=
  map (fun result => match result with Some r => ResCached r | None => false end) results.

Definition processBatchRequest (c : Cache) (req : EmbeddingRequest) (w : World)
  : (EmbeddingResponse + error) * World :=
  match normalizeInput (Input req) with
  | inr err => (inr err, w)
  | inl inputs =>
    if (length inputs =? 0)%nat then (inr (Errorf "batch input cannot be empty" []), w)
    else if max_batch <? N.of_nat (length inputs)
    then (inr (Errorf "batch input too large (max 1000 items)" []), w)
    else
      let modelName := effective_model c req in
      let batchItems := prepareBatchItems inputs modelName in
      match GetBatchCachedEmbeddings (db c) batchItems (store w) with
      | (inr err, st) =>
        (inr (Wrapf "failed to check cache: %w" [] err), mkWorld st (sent w) (usageChan w))
      | (inl batchItems, st) =>
        let w := track_hits c batchItems (mkWorld st (sent w) (usageChan w)) in
        let uncachedItems := getUncachedItems batchItems in
        let called :=
          if (0 <? length uncachedItems)%nat then
            match createBatchEmbeddings c uncachedItems modelName (sent w) with
            | (inr err, sn) =>
              inr (Wrapf "failed to create embeddings: %w" [] err,
                   mkWorld (store w) sn (usageChan w))
            | (inl aiResponse, sn) =>
              let vectors := Openai.Embeddings aiResponse in
              let st := storeBatchEmbeddings c uncachedItems vectors modelName (store w) in
              inl (vectors, mkWorld st sn (usageChan w))
            end
          else inl ([], w) in
        match called with
        | inr (err, w) => (inr err, w)
        | inl (vectors, w) =>
          match assembleBatchResults batchItems uncachedItems vectors (length inputs) with
          | None => (inr (External "panic: index out of range"), w)
          | Some results =>
            (inl (mkResponse [] (extractEmbeddings results) modelName false
                             (extractCachedFlags results) Openai.no_usage), w)
          end
        end
      end
  end.

Definition GetEmbedding (c : Cache) (req : EmbeddingRequest) (w : World)
  : (EmbeddingResponse + error) * World :=
  if isBatchInput (Input req) then processBatchRequest c req w
  else processSingleRequest c req w.

End Cache.

(** ** Package internal/server *)
Module Server.

Inductive reply : Type :=
| BadRequest (details : error)
| InternalServerError (cause : error)
| OK (response : Cache.EmbeddingResponse).


End Server.

(** ** Concrete scenarios used by the examples below *)
Module Scenario.

(** The text [" a \n b "] of the fingerprint-stability property. *)
Definition padded_text : string :=
  String.append " a " (String.append Hash.LF " b ").

(** A provider whose first answer is a transport error and which answers
    every later request with one vector per input. *)
Definition answer (usage : Z) (inputs : list string) : Openai.ApiResponse :=
  Openai.mkApi (map (fun _ => [2.5%float]) inputs) "m" (Openai.mkUsage usage usage).

Definition flaky : Openai.Provider :=
  Openai.mkProvider
    (fun n inputs =>
       match n with
       | O => inr (External "connection reset by peer")
       | S _ => inl (answer 1 inputs)
       end)
    (fun _ => None).

Definition flaky_client : Openai.Client := Openai.mkClient flaky "m" 3.

(** A provider that answers every request and reports three tokens. *)
Definition steady : Openai.Provider :=
  Openai.mkProvider (fun _ inputs => inl (answer 3 inputs)) (fun _ => None).

Definition backend : Database.Backend :=
  Database.mkBackend (fun n => 100 + Z.of_nat n)%Z (fun n => 50 + N.of_nat n)
                     (fun _ => None).

Definition cache : Cache.Cache :=
  Cache.mkCache backend (Openai.mkClient steady "m" 3) true.

(** The row cached for the text ["a"] under model ["m"]. *)
Definition row_a : Database.CachedEmbedding :=
  Database.mkRow 1 (Hash.GenerateInputHash "a" "m") "a" [1.5%float] "m" 1%Z
                 10%Z 10%Z 10%Z.

Definition empty_world : Cache.World :=
  Cache.mkWorld (Database.mkStore [] 0) [] [].

Definition world_a : Cache.World :=
  Cache.mkWorld (Database.mkStore [row_a] 0) [] [].

Definition batch (inputs : list string) : Cache.EmbeddingRequest :=
  Cache.mkRequest (Cache.IArray (map Cache.IString inputs)) "m".

(** A clean shutdown right after one id was put in the channel: both
    goroutines take their stop case. *)
Definition hasty_shutdown : list Tracker.event :=
  [Tracker.CallTrackUsage 7; Tracker.StopClose; Tracker.IngestStop;
   Tracker.TimerStop; Tracker.StopReturn].

(** 5001 copies of a two-byte character: 10,002 bytes. *)
Definition accented_text : string :=
  string_of_bytes (List.concat (repeat [0xC3; 0xA9] (N.to_nat 5001))).

End Scenario.

(** ** Vocabulary of the further properties *)
Module Ledger.

(** Every id the tracker holds, oldest first: the flushed batches, then the
    buffer, then the channel. *)
Definition held (ut : Tracker.UsageTracker) : list uuid :=
  List.concat (Tracker.flushed ut) ++ Tracker.buffer ut ++ Tracker.usageChan ut.

(** The tracker [ut] with its channel, buffer and flushed batches replaced. *)
Definition with_queues (ch buf : list uuid) (fl : list (list uuid))
    (ut : Tracker.UsageTracker) : Tracker.UsageTracker :=
  Tracker.mkTracker ch (Tracker.chanClosed ut) (Tracker.stopClosed ut)
                    (Tracker.ctxDone ut) buf (Tracker.batchSize ut)
                    (Tracker.ingest ut) (Tracker.timer ut) fl (Tracker.stopped ut).

(** The ids the requests of a schedule hand to [TrackUsage], in order. *)
Fixpoint requested (schedule : list Tracker.event) : list uuid :=
  match schedule with
  | [] => []
  | Tracker.CallTrackUsage id :: rest => id :: requested rest
  | _ :: rest => requested rest
  end.

(** Is the fingerprint of [x] under [m] missing from the table? *)
Definition is_miss (t : list Database.CachedEmbedding) (m x : string) : bool :=
  match List.find (Database.hash_eqb (Hash.GenerateInputHash x m)) t with
  | Some _ => false
  | None => true
  end.

(** The texts of a batch whose fingerprints are not stored, in order. *)
Definition miss_texts (t : list Database.CachedEmbedding) (m : string)
    (inputs : list string) : list string :=
  List.filter (is_miss t m) inputs.

(** The number of misses before position [i]. *)
Definition rank (t : list Database.CachedEmbedding) (m : string)
    (inputs : list string) (i : nat) : nat :=
  length (miss_texts t m (firstn i inputs)).

(** The items of a batch after a lookup that attaches to every input the
    stored entry of its fingerprint. *)
Fixpoint resolved_from (t : list Database.CachedEmbedding) (m : string) (k : nat)
    (inputs : list string) : list Database.BatchItem :=
  match inputs with
  | [] => []
  | x :: rest =>
    Database.mkItem x (Hash.GenerateInputHash x m) k
                    (List.find (Database.hash_eqb (Hash.GenerateInputHash x m)) t)
    :: resolved_from t m (S k) rest
  end.

(** A provider call that fails every request: request [n] with [errs n]. *)
Definition failing (errs : nat -> error) : Openai.Provider :=
  Openai.mkProvider (fun n _ => inr (errs n)) (fun _ => None).

End Ledger.

(** * Properties *)

(** Closed goals about concrete runs: split the conjunctions, then let the
    virtual machine evaluate each side. *)
Ltac by_evaluation :=
  repeat match goal with
         | |- exists _, _ => eexists
         | |- _ /\ _ => split
         end;
  vm_compute; reflexivity.

(** ** Fingerprinter *)

Lemma hex_length (l : list N) :
  String.length (Hex.EncodeToString l) = (2 * length l)%nat.
Proof.
  induction l as [|b t IH]; simpl; [reflexivity|].
  rewrite IH. lia.
Qed.

Lemma hex_digit_is_hex (n : N) : Hex.is_hex_digit (Hex.digit n) = true.
Proof.
  unfold Hex.digit.
  generalize (N.to_nat n). intros k.
  do 16 (destruct k as [|k]; [reflexivity|]).
  reflexivity.
Qed.

Lemma hex_all_hex (l : list N) : Hex.all_hex (Hex.EncodeToString l) = true.
Proof.
  induction l as [|b t IH]; simpl; [reflexivity|].
  rewrite !hex_digit_is_hex, IH. reflexivity.
Qed.

Lemma digest_bytes_length (s : Sha256.digest) :
  length (Sha256.digest_bytes s) = 32%nat.
Proof. reflexivity. Qed.

Lemma sum256_length (data : list N) : length (Sha256.Sum256 data) = 32%nat.
Proof. unfold Sha256.Sum256. apply digest_bytes_length. Qed.

(** The digests of [""] and ["abc"] given in FIPS 180-4 and its examples. *)
Example sum256_empty :
  Hex.EncodeToString (Sha256.Sum256 (bytes_of_string ""))
  = "e3b0c44298fc1c149afbf4c8996fb92427ae41e4649b934ca495991b7852b855".
Proof. vm_compute. reflexivity. Qed.

Example sum256_abc :
  Hex.EncodeToString (Sha256.Sum256 (bytes_of_string "abc"))
  = "ba7816bf8f01cfea414140de5dae2223b00361a396177a9cb410ff61f20015ad".
Proof. vm_compute. reflexivity. Qed.

Lemma fingerprint_length (t m : string) :
  String.length (Hash.GenerateInputHash t m) = 64%nat.
Proof.
  unfold Hash.GenerateInputHash. rewrite hex_length, sum256_length. reflexivity.
Qed.

Lemma fingerprint_valid (t m : string) :
  Hash.ValidateHash (Hash.GenerateInputHash t m) = true.
Proof.
  unfold Hash.ValidateHash, Hex.DecodeString_ok.
  rewrite fingerprint_length. unfold Hash.GenerateInputHash.
  rewrite hex_all_hex. reflexivity.
Qed.

Lemma padded_text_normal : Hash.normalizeInput Scenario.padded_text = "a b".
Proof. vm_compute. reflexivity. Qed.

Lemma plain_text_normal : Hash.normalizeInput "a b" = "a b".
Proof. vm_compute. reflexivity. Qed.

Lemma append_empty (s : string) : String.append EmptyString s = s.
Proof. reflexivity. Qed.

Lemma append_cons (c : ascii) (a s : string) :
  String.append (String c a) s = String c (String.append a s).
Proof. reflexivity. Qed.

Ltac norm_append := rewrite ?append_cons, ?append_empty in *.

Lemma sep_free_not_joined (x y m : string) :
  has_byte "|" m = false -> m <> String.append x (String.append "|" y).
Proof.
  intros Hm Heq. subst m. induction x as [|c x IH]; norm_append; simpl in Hm.
  - discriminate.
  - apply orb_false_iff in Hm. destruct Hm as [_ Hm]. auto.
Qed.

(** Splitting [a ++ "|" ++ m] at its last, or at its first, separator. *)
Lemma append_sep_inj_right (a b m1 m2 : string) :
  has_byte "|" m1 = false -> has_byte "|" m2 = false ->
  String.append a (String.append "|" m1) = String.append b (String.append "|" m2) ->
  a = b /\ m1 = m2.
Proof.
  intros H1 H2. revert b.
  induction a as [|c a IH]; intros [|d b] Heq; norm_append.
  - injection Heq as ->. split; reflexivity.
  - injection Heq as <- Heq. exfalso. exact (sep_free_not_joined b m2 m1 H1 Heq).
  - injection Heq as -> Heq. exfalso. symmetry in Heq.
    exact (sep_free_not_joined a m1 m2 H2 Heq).
  - injection Heq as -> Heq. destruct (IH b Heq) as [-> ->]. split; reflexivity.
Qed.

Lemma append_sep_inj_left (a b m1 m2 : string) :
  has_byte "|" a = false -> has_byte "|" b = false ->
  String.append a (String.append "|" m1) = String.append b (String.append "|" m2) ->
  a = b /\ m1 = m2.
Proof.
  revert b. induction a as [|c a IH]; intros [|d b] Ha Hb Heq; norm_append; simpl in *.
  - injection Heq as ->. split; reflexivity.
  - injection Heq as <- Heq. discriminate.
  - injection Heq as -> Heq. discriminate.
  - injection Heq as -> Heq.
    apply orb_false_iff in Ha. destruct Ha as [_ Ha].
    apply orb_false_iff in Hb. destruct Hb as [_ Hb].
    destruct (IH b Ha Hb Heq) as [-> ->]. split; reflexivity.
Qed.

(** C6, as the code has it.  The string fed to the hash determines the
    normalized text and the model when neither model name holds the
    separator, or when neither normalized text does. *)
Theorem separator_unambiguous (t1 m1 t2 m2 : string) :
  (has_byte "|" m1 = false /\ has_byte "|" m2 = false)
  \/ (has_byte "|" (Hash.normalizeInput t1) = false
      /\ has_byte "|" (Hash.normalizeInput t2) = false) ->
  Hash.hashData t1 m1 = Hash.hashData t2 m2 ->
  Hash.normalizeInput t1 = Hash.normalizeInput t2 /\ m1 = m2.
Proof.
  unfold Hash.hashData. intros [[H1 H2]|[H1 H2]] Heq.
  - exact (append_sep_inj_right _ _ _ _ H1 H2 Heq).
  - exact (append_sep_inj_left _ _ _ _ H1 H2 Heq).
Qed.

Lemma separator_unambiguous_witness :
  Hash.normalizeInput "a b" = Hash.normalizeInput Scenario.padded_text
  /\ "small" = "small".
Proof.
  apply (separator_unambiguous "a b" "small" Scenario.padded_text "small").
  - left. split; vm_compute; reflexivity.
  - vm_compute. reflexivity.
Defined.

(** C6 fails as stated: normalization keeps the separator, and the text
    ["a|b"] under model ["c"] is hashed from the same string as the text
    ["a"] under model ["b|c"]. *)
Lemma separator_collision :
  ~ (Hash.hashData "a|b" "c" = Hash.hashData "a" "b|c" ->
     Hash.normalizeInput "a|b" = Hash.normalizeInput "a" /\ "c" = "b|c").
Proof.
  intros H.
  assert (Heq : Hash.hashData "a|b" "c" = Hash.hashData "a" "b|c")
    by (vm_compute; reflexivity).
  destruct (H Heq) as [_ Hm]. discriminate Hm.
Qed.

Example separator_in_normalized_text :
  has_byte "|" (Hash.normalizeInput "a|b") = true
  /\ Hash.GenerateInputHash "a|b" "c" = Hash.GenerateInputHash "a" "b|c".
Proof. by_evaluation. Qed.

(** ** Provider client *)

Lemma copy_vectors_keeps_error (i : nat) (data : list (list float64)) (e : error) :
  exists e', snd (Openai.copy_vectors i data (Some e)) = Some e'.
Proof.
  revert i e. induction data as [|v rest IH]; intros i e; simpl.
  - exists e. reflexivity.
  - destruct (length v =? 0)%nat.
    + destruct (IH (S i) (Errorf "empty embedding vector returned from OpenAI at index %d"
                                 [Z.of_nat i])) as [e' He'].
      destruct (Openai.copy_vectors (S i) rest _) as [out o]. simpl in *. eauto.
    + destruct (IH (S i) e) as [e' He'].
      destruct (Openai.copy_vectors (S i) rest _) as [out o]. simpl in *. eauto.
Qed.

(** Once [lastErr] is set, no later attempt returns a response: the
    variable is never cleared, and the test before the return reads it. *)
Lemma attempts_never_recover (c : Openai.Client) (inputs : list string)
    (fuel attempt : nat) (e : error) (sent : Openai.Sent) :
  exists err, fst (Openai.attempts c inputs fuel attempt (Some e) sent) = inr err.
Proof.
  revert attempt e sent. induction fuel as [|fuel IH]; intros attempt e sent; simpl.
  - eauto.
  - destruct (if (0 <? attempt)%nat then _ else None) as [ctxErr|]; [simpl; eauto|].
    destruct (Openai.respond _ _ _) as [response|err]; [|apply IH].
    destruct (length (Openai.Data response) =? 0)%nat; [apply IH|].
    destruct (copy_vectors_keeps_error 0 (Openai.Data response) e) as [e' He'].
    destruct (Openai.copy_vectors 0 (Openai.Data response) (Some e)) as [out o].
    simpl in He'. subst o. apply IH.
Qed.

(** A provider that fails every request is asked [fuel] times. *)
Lemma attempts_all_fail (c : Openai.Client) (inputs : list string)
    (fuel attempt : nat) (lastErr : option error) (sent : Openai.Sent) :
  (forall n, Openai.ctx_done (Openai.provider c) n = None) ->
  (forall n, exists err, Openai.respond (Openai.provider c) n inputs = inr err) ->
  exists err,
    Openai.attempts c inputs fuel attempt lastErr sent
    = (inr err, sent ++ repeat inputs fuel).
Proof.
  intros Hctx Hfail. revert attempt lastErr sent.
  induction fuel as [|fuel IH]; intros attempt lastErr sent; simpl.
  - rewrite app_nil_r. eauto.
  - rewrite Hctx. destruct (0 <? attempt)%nat;
      destruct (Hfail (length sent)) as [err ->];
      destruct (IH (S attempt) (Some err) (sent ++ [inputs])) as [err' ->];
      rewrite <- app_assoc; simpl; eauto.
Qed.

(** C2, at the failing input: with [max_retries = 3], a provider whose first
    answer is a transport error and whose second answer is a full result
    is asked four times, and the call returns the first error. *)
Theorem retry_discards_late_success :
  Openai.respond Scenario.flaky 1 ["a"] = inl (Scenario.answer 1 ["a"])
  /\ Openai.CreateBatchEmbeddings Scenario.flaky_client ["a"] []
     = (inr (Wrapf "failed to create batch embeddings after %d attempts: %w" [4%Z]
                   (External "connection reset by peer")),
        [["a"]; ["a"]; ["a"]; ["a"]]).
Proof. by_evaluation. Qed.

(** ** Usage tracker *)

(** C8, at the failing schedule: id 7 is in the channel when [Stop] starts,
    both goroutines return on the stop channel, [Stop] returns, and no
    flush ever held the id; it is still in the channel. *)
Theorem shutdown_loses_queued_id :
  exists before final,
    Tracker.run [Tracker.CallTrackUsage 7] (Tracker.started 50) = Some before
    /\ Tracker.usageChan before = [7]
    /\ Tracker.run Scenario.hasty_shutdown (Tracker.started 50) = Some final
    /\ Tracker.stopped final = true
    /\ Tracker.marked_used 7 final = false
    /\ Tracker.flushed final = []
    /\ Tracker.usageChan final = [7].
Proof. by_evaluation. Qed.

(** ** Orchestrator: the batch path on concrete requests *)

(** C3, at the failing input: a batch of one uncached text makes one provider
    call, the provider reports three tokens, and the response carries none. *)
Theorem batch_usage_dropped :
  exists response w,
    Cache.processBatchRequest Scenario.cache (Scenario.batch ["c"]) Scenario.empty_world
    = (inl response, w)
    /\ Cache.sent w = [["c"]]
    /\ Cache.CachedItems response = [false]
    /\ Openai.respond Scenario.steady 0 ["c"] = inl (Scenario.answer 3 ["c"])
    /\ Cache.TokenUsage response = Openai.mkUsage 0 0.
Proof. by_evaluation. Qed.

(** C1, at the failing input: the text ["a"] is cached and is sent twice in
    one batch.  The first occurrence is reported as a miss and gets the
    vector of a provider call made for it; only the second gets the stored
    vector. *)
Theorem batch_duplicate_misreported :
  exists response w,
    Cache.processBatchRequest Scenario.cache (Scenario.batch ["a"; "a"]) Scenario.world_a
    = (inl response, w)
    /\ Database.InputHash Scenario.row_a = Hash.GenerateInputHash "a" "m"
    /\ Cache.CachedItems response = [false; true]
    /\ Cache.Embeddings response = [[2.5%float]; [1.5%float]]
    /\ Cache.sent w = [["a"]].
Proof. by_evaluation. Qed.

(** ** Cache store *)
Section Upsert.
Import Database.

Lemma hash_eqb_true (h : string) (r : CachedEmbedding) :
  hash_eqb h r = true <-> InputHash r = h.
Proof. unfold hash_eqb. apply String.eqb_eq. Qed.

Lemma hash_eqb_false (h : string) (r : CachedEmbedding) :
  hash_eqb h r = false <-> InputHash r <> h.
Proof. unfold hash_eqb. apply String.eqb_neq. Qed.

Lemma filter_absent (h : string) (t : list CachedEmbedding) :
  ~ In h (map InputHash t) -> List.filter (hash_eqb h) t = [].
Proof.
  induction t as [|r rest IH]; simpl; intros Hno; [reflexivity|].
  destruct (hash_eqb h r) eqn:E.
  - apply hash_eqb_true in E. tauto.
  - apply IH. tauto.
Qed.

Lemma upsert_hashes_present (new : CachedEmbedding) (t : list CachedEmbedding) :
  In (InputHash new) (map InputHash t) ->
  map InputHash (upsert new t) = map InputHash t.
Proof.
  induction t as [|r rest IH]; simpl; intros Hin; [tauto|].
  destruct (hash_eqb (InputHash new) r) eqn:E; simpl; [reflexivity|].
  apply hash_eqb_false in E. f_equal. apply IH. tauto.
Qed.

Lemma upsert_absent (new : CachedEmbedding) (t : list CachedEmbedding) :
  ~ In (InputHash new) (map InputHash t) -> upsert new t = t ++ [new].
Proof.
  induction t as [|r rest IH]; simpl; intros Hno; [reflexivity|].
  destruct (hash_eqb (InputHash new) r) eqn:E.
  - apply hash_eqb_true in E. tauto.
  - f_equal. apply IH. tauto.
Qed.

(** The [UNIQUE] constraint holds after every upsert. *)
Lemma upsert_unique (new : CachedEmbedding) (t : list CachedEmbedding) :
  unique_hashes t -> unique_hashes (upsert new t).
Proof.
  unfold unique_hashes. intros Hu.
  destruct (in_dec string_dec (InputHash new) (map InputHash t)) as [Hin|Hno].
  - rewrite upsert_hashes_present by assumption. assumption.
  - rewrite upsert_absent by assumption.
    rewrite map_app. simpl.
    apply NoDup_app. repeat split.
    + assumption.
    + intros x Hx Hx'. apply list_elem_of_In in Hx.
      apply list_elem_of_singleton in Hx'. subst x. tauto.
    + apply NoDup_singleton.
Qed.

Lemma upsert_other (new : CachedEmbedding) (t : list CachedEmbedding) (h : string) :
  h <> InputHash new ->
  List.filter (hash_eqb h) (upsert new t) = List.filter (hash_eqb h) t.
Proof.
  intros Hne. induction t as [|r rest IH]; simpl.
  - destruct (hash_eqb h new) eqn:E; [|reflexivity].
    apply hash_eqb_true in E. congruence.
  - destruct (hash_eqb (InputHash new) r) eqn:E; simpl.
    + apply hash_eqb_true in E.
      assert (Hr : hash_eqb h r = false) by (apply hash_eqb_false; congruence).
      rewrite Hr. unfold hash_eqb at 1. simpl. fold (hash_eqb h r). rewrite Hr.
      reflexivity.
    + rewrite IH. reflexivity.
Qed.

Lemma upsert_same (new e : CachedEmbedding) (t : list CachedEmbedding) :
  unique_hashes t -> In e t -> InputHash e = InputHash new ->
  List.filter (hash_eqb (InputHash new)) (upsert new t)
  = [on_conflict (UsedAt new) (EmbeddingVector new) e].
Proof.
  unfold unique_hashes.
  induction t as [|r rest IH]; simpl; intros Hu Hin He; [tauto|].
  apply NoDup_cons in Hu. destruct Hu as [Hnotin Hrest].
  rewrite list_elem_of_In in Hnotin.
  destruct (hash_eqb (InputHash new) r) eqn:E; simpl.
  - apply hash_eqb_true in E.
    assert (e = r) as ->.
    { destruct Hin as [->|Hin]; [reflexivity|].
      exfalso. apply Hnotin. rewrite E, <- He. apply in_map. assumption. }
    unfold hash_eqb at 1. simpl. rewrite E, String.eqb_refl.
    rewrite filter_absent; [reflexivity|]. rewrite <- E. assumption.
  - rewrite E. apply hash_eqb_false in E.
    destruct Hin as [->|Hin]; [congruence|]. apply IH; assumption.
Qed.

Lemma upsert_creates (new : CachedEmbedding) (t : list CachedEmbedding) :
  ~ In (InputHash new) (map InputHash t) ->
  List.filter (hash_eqb (InputHash new)) (upsert new t) = [new].
Proof.
  intros Hno. rewrite upsert_absent by assumption.
  rewrite List.filter_app, filter_absent by assumption. simpl.
  unfold hash_eqb. rewrite String.eqb_refl. reflexivity.
Qed.

Lemma StoreEmbedding_runs (b : Backend) (f text model : string)
    (vector : list float64) (s : Store) :
  fault b (ops s) = None ->
  StoreEmbedding b f text model vector s
  = (None, mkStore (upsert (proposed_row b f text model vector s) (rows s)) (S (ops s))).
Proof. intros Hf. unfold StoreEmbedding. rewrite Hf. reflexivity. Qed.

(** C7. On a table that holds an entry [e] for the fingerprint, and with the
    backing store running the statement, [StoreEmbedding] reports no error;
    the table keeps unique fingerprints and holds one entry for it, which is
    [e] with the new vector and with [updated_at] and [used_at] at the
    current time, every other column as before; the entries of other
    fingerprints are untouched; and a second upsert leaves the later vector
    with the later time. *)
Theorem upsert_existing_entry (b : Backend) (s : Store) (e : CachedEmbedding)
    (text1 model1 text2 model2 : string) (vector1 vector2 : list float64) :
  unique_hashes (rows s) -> In e (rows s) ->
  fault b (ops s) = None -> fault b (S (ops s)) = None ->
  let f := InputHash e in
  let first := StoreEmbedding b f text1 model1 vector1 s in
  let second := StoreEmbedding b f text2 model2 vector2 (snd first) in
  fst first = None
  /\ unique_hashes (rows (snd first))
  /\ List.filter (hash_eqb f) (rows (snd first))
     = [mkRow (ID e) f (InputText e) vector1 (ModelName e) (InputLength e)
              (CreatedAt e) (now b (ops s)) (now b (ops s))]
  /\ (forall h, h <> f ->
        List.filter (hash_eqb h) (rows (snd first)) = List.filter (hash_eqb h) (rows s))
  /\ fst second = None
  /\ List.filter (hash_eqb f) (rows (snd second))
     = [mkRow (ID e) f (InputText e) vector2 (ModelName e) (InputLength e)
              (CreatedAt e) (now b (S (ops s))) (now b (S (ops s)))].
Proof.
  intros Hu Hin Hf1 Hf2 f first second. subst first second.
  rewrite (StoreEmbedding_runs b f text1 model1 vector1 s Hf1). simpl.
  set (new1 := proposed_row b f text1 model1 vector1 s).
  rewrite (StoreEmbedding_runs b f text2 model2 vector2
             (mkStore (upsert new1 (rows s)) (S (ops s))) Hf2). simpl.
  set (new2 := proposed_row b f text2 model2 vector2 _).
  assert (H1 : List.filter (hash_eqb f) (upsert new1 (rows s))
               = [on_conflict (now b (ops s)) vector1 e])
    by exact (upsert_same new1 e (rows s) Hu Hin eq_refl).
  assert (Hu1 : unique_hashes (upsert new1 (rows s))) by (apply upsert_unique; exact Hu).
  split; [reflexivity|]. split; [exact Hu1|]. split; [exact H1|].
  split; [intros h Hne; apply (upsert_other new1); exact Hne|].
  split; [reflexivity|].
  assert (Hin1 : In (on_conflict (now b (ops s)) vector1 e) (upsert new1 (rows s))).
  { assert (Hx : In (on_conflict (now b (ops s)) vector1 e)
                    (List.filter (hash_eqb f) (upsert new1 (rows s))))
      by (rewrite H1; left; reflexivity).
    apply List.filter_In in Hx. tauto. }
  exact (upsert_same new2 _ _ Hu1 Hin1 eq_refl).
Qed.

Lemma upsert_existing_entry_witness :
  let first := StoreEmbedding Scenario.backend (InputHash Scenario.row_a) "a " "m"
                              [2.5%float] (Cache.store Scenario.world_a) in
  fst first = None
  /\ List.filter (hash_eqb (InputHash Scenario.row_a)) (rows (snd first))
     = [mkRow 1 (InputHash Scenario.row_a) "a" [2.5%float] "m" 1%Z 10%Z 100%Z 100%Z].
Proof.
  destruct (upsert_existing_entry Scenario.backend (Cache.store Scenario.world_a)
              Scenario.row_a "a " "m" "a" "m" [2.5%float] [3.5%float])
    as (H1 & _ & H3 & _).
  - apply NoDup_singleton.
  - left. reflexivity.
  - reflexivity.
  - reflexivity.
  - split; [exact H1 | exact H3].
Defined.

(** Two upserts in a row of a fingerprint that was not stored: the table
    holds one entry for it, created by the first call and carrying the
    vector and the [updated_at] of the second. *)
Lemma upsert_twice_fresh (b : Backend) (s : Store) (f : string)
    (text1 model1 text2 model2 : string) (vector1 vector2 : list float64) :
  unique_hashes (rows s) -> ~ In f (map InputHash (rows s)) ->
  fault b (ops s) = None -> fault b (S (ops s)) = None ->
  let first := StoreEmbedding b f text1 model1 vector1 s in
  let second := StoreEmbedding b f text2 model2 vector2 (snd first) in
  fst second = None
  /\ List.filter (hash_eqb f) (rows (snd second))
     = [mkRow (fresh_id b (ops s)) f text1 vector2 model1
              (Z.of_nat (String.length text1)) (now b (ops s))
              (now b (S (ops s))) (now b (S (ops s)))].
Proof.
  intros Hu Hno Hf1 Hf2 first second. subst first second.
  rewrite (StoreEmbedding_runs b f text1 model1 vector1 s Hf1). simpl.
  set (new1 := proposed_row b f text1 model1 vector1 s).
  rewrite (StoreEmbedding_runs b f text2 model2 vector2
             (mkStore (upsert new1 (rows s)) (S (ops s))) Hf2). simpl.
  set (new2 := proposed_row b f text2 model2 vector2 _).
  split; [reflexivity|].
  assert (Hin1 : In new1 (upsert new1 (rows s))).
  { rewrite (upsert_absent new1) by exact Hno. apply in_or_app. right. left. reflexivity. }
  exact (upsert_same new2 new1 _ (upsert_unique new1 _ Hu) Hin1 eq_refl).
Qed.

End Upsert.

(** ** Batch lookup *)
Section BatchLookup.
Import Database.
Local Open Scope nat_scope.

Lemma index_items_lookup (k : nat) (items : list BatchItem) (m : gmap string nat)
    (h : string) :
  index_items k items m !! h
  = match last_index h items with
    | Some i => Some (k + i)
    | None => m !! h
    end.
Proof.
  revert k m. induction items as [|item rest IH]; intros k m; simpl; [reflexivity|].
  rewrite IH. destruct (last_index h rest) as [i|].
  - f_equal. lia.
  - destruct (String.eqb (Hash item) h) eqn:E.
    + apply String.eqb_eq in E. subst h. rewrite lookup_insert_eq. f_equal. lia.
    + apply String.eqb_neq in E. rewrite lookup_insert_ne by exact E. reflexivity.
Qed.

Lemma last_index_Some (h : string) (items : list BatchItem) (i : nat) :
  last_index h items = Some i ->
  (exists item, items !! i = Some item /\ Hash item = h)
  /\ (forall j item, i < j -> items !! j = Some item -> Hash item <> h).
Proof.
  revert i. induction items as [|item rest IH]; intros i; simpl; [discriminate|].
  destruct (last_index h rest) as [i'|] eqn:E.
  - intros [= <-]. destruct (IH i' eq_refl) as [Hex Hlater]. split; [exact Hex|].
    intros [|j] item' Hlt Hj; [lia|]. simpl in Hj. apply (Hlater j); [lia|exact Hj].
  - destruct (String.eqb (Hash item) h) eqn:Eh; [|discriminate].
    intros [= <-]. apply String.eqb_eq in Eh. split; [exists item; split; auto|].
    intros [|j] item' Hlt Hj Hh; [lia|]. simpl in Hj.
    clear IH Hlt. revert j Hj. induction rest as [|r rest IH]; intros j Hj; [destruct j; discriminate|].
    simpl in E. destruct (last_index h rest) eqn:E'; [discriminate|].
    destruct (String.eqb (Hash r) h) eqn:Er; [discriminate|].
    apply String.eqb_neq in Er.
    destruct j as [|j]; simpl in Hj; [injection Hj as <-; tauto|].
    apply (IH eq_refl j Hj).
Qed.

Lemma last_index_later (h : string) (items : list BatchItem) (j : nat) (item : BatchItem) :
  items !! j = Some item -> Hash item = h ->
  exists i, last_index h items = Some i /\ j <= i.
Proof.
  revert j. induction items as [|r rest IH]; intros j Hj Hh; [destruct j; discriminate|].
  simpl. destruct j as [|j]; simpl in Hj.
  - injection Hj as ->. destruct (last_index h rest) as [i|].
    + exists (S i). split; [reflexivity|lia].
    + apply String.eqb_eq in Hh. rewrite Hh. exists 0. split; [reflexivity|lia].
  - destruct (IH j Hj Hh) as [i [-> Hle]]. exists (S i). split; [reflexivity|lia].
Qed.

Lemma set_cached_twice (e e' : CachedEmbedding) (o : option BatchItem) :
  set_cached e' <$> (set_cached e <$> o) = set_cached e' <$> o.
Proof. destruct o; reflexivity. Qed.

Lemma attach_lookup (hm : gmap string nat) (es : list CachedEmbedding)
    (items : list BatchItem) (i : nat) :
  attach hm es items !! i
  = match pick hm i es with
    | Some e => set_cached e <$> items !! i
    | None => items !! i
    end.
Proof.
  revert items. induction es as [|e rest IH]; intros items; simpl; [reflexivity|].
  destruct (hm !! InputHash e) as [j|] eqn:Ej.
  - rewrite IH. destruct (decide (j = i)) as [->|Hne].
    + rewrite list_lookup_alter_eq. destruct (pick hm i rest).
      * apply set_cached_twice.
      * rewrite decide_True by reflexivity. reflexivity.
    + rewrite list_lookup_alter_ne by exact Hne.
      destruct (pick hm i rest); [reflexivity|].
      rewrite decide_False by congruence. reflexivity.
  - rewrite IH. destruct (pick hm i rest); [reflexivity|].
    rewrite decide_False by congruence. reflexivity.
Qed.

Lemma pick_Some (hm : gmap string nat) (es : list CachedEmbedding) (i : nat)
    (e : CachedEmbedding) :
  pick hm i es = Some e -> In e es /\ hm !! InputHash e = Some i.
Proof.
  induction es as [|e0 rest IH]; simpl; [discriminate|].
  destruct (pick hm i rest) as [e'|].
  - intros [= ->]. destruct (IH eq_refl). tauto.
  - destruct (decide (hm !! InputHash e0 = Some i)); [|discriminate].
    intros [= ->]. tauto.
Qed.

Lemma pick_None (hm : gmap string nat) (es : list CachedEmbedding) (i : nat)
    (e : CachedEmbedding) :
  pick hm i es = None -> In e es -> hm !! InputHash e <> Some i.
Proof.
  induction es as [|e0 rest IH]; simpl; [tauto|].
  destruct (pick hm i rest) as [e'|]; [discriminate|].
  destruct (decide (hm !! InputHash e0 = Some i)); [discriminate|].
  intros _ [->|Hin]; [assumption|]. apply IH; [reflexivity|exact Hin].
Qed.

Lemma find_unique (t : list CachedEmbedding) (e : CachedEmbedding) :
  unique_hashes t -> In e t -> List.find (hash_eqb (InputHash e)) t = Some e.
Proof.
  unfold unique_hashes. induction t as [|r rest IH]; simpl; intros Hu Hin; [tauto|].
  apply NoDup_cons in Hu. destruct Hu as [Hnotin Hrest].
  rewrite list_elem_of_In in Hnotin.
  destruct (hash_eqb (InputHash e) r) eqn:E.
  - apply hash_eqb_true in E. destruct Hin as [->|Hin]; [reflexivity|].
    exfalso. apply Hnotin. rewrite E. apply in_map. exact Hin.
  - apply hash_eqb_false in E. destruct Hin as [->|Hin]; [congruence|]. auto.
Qed.

Lemma select_any_In (hashes : list string) (t : list CachedEmbedding) (e : CachedEmbedding) :
  In e (select_any hashes t) <-> In e t /\ In (InputHash e) hashes.
Proof.
  unfold select_any. rewrite List.filter_In, bool_decide_eq_true, list_elem_of_In.
  reflexivity.
Qed.

Lemma item_eta (item : BatchItem) :
  mkItem (Input item) (Hash item) (Index item) (Cached item) = item.
Proof. destruct item. reflexivity. Qed.

(** The slot-by-slot reading of the lookup: slot [i] keeps its input, hash
    and index, and gets the stored entry of its hash when it is the last
    slot carrying that hash. *)
Lemma lookup_slot (t : list CachedEmbedding) (items : list BatchItem) (i : nat) :
  unique_hashes t ->
  attach (index_items 0 items ∅) (select_any (map Hash items) t) items !! i
  = (fun item => mkItem (Input item) (Hash item) (Index item)
                        (expected_cached t items i item)) <$> items !! i.
Proof.
  intros Hu. rewrite attach_lookup. unfold expected_cached.
  destruct (pick _ i _) as [e|] eqn:Ep.
  - apply pick_Some in Ep. destruct Ep as [Hin Hm].
    rewrite index_items_lookup, lookup_empty in Hm.
    destruct (last_index (InputHash e) items) as [k|] eqn:El; [|discriminate].
    injection Hm as Hk. simpl in Hk. subst k.
    destruct (last_index_Some _ _ _ El) as [[item [Hi Hh]] _].
    rewrite Hi. simpl. rewrite Hh, El, decide_True by reflexivity.
    apply select_any_In in Hin. destruct Hin as [Hin _].
    rewrite (find_unique t e Hu Hin). unfold set_cached. rewrite Hh. reflexivity.
  - destruct (items !! i) as [item|] eqn:Hi; [|reflexivity]. simpl.
    destruct (decide (last_index (Hash item) items = Some i)) as [El|_];
      [|rewrite item_eta; reflexivity].
    destruct (List.find (hash_eqb (Hash item)) t) as [e|] eqn:Ef;
      [|rewrite item_eta; reflexivity].
    exfalso. apply find_some in Ef. destruct Ef as [Hin Hh].
    apply hash_eqb_true in Hh.
    apply (pick_None _ _ _ e Ep).
    + apply select_any_In. split; [exact Hin|]. rewrite Hh.
      apply in_map. apply list_elem_of_In. eapply list_elem_of_lookup_2. exact Hi.
    + rewrite index_items_lookup, Hh, El. reflexivity.
Qed.

Lemma select_any_nil (t : list CachedEmbedding) : select_any [] t = [].
Proof.
  unfold select_any. induction t as [|r rest IH]; [reflexivity|].
  cbn [List.filter]. destruct (bool_decide (InputHash r ∈ [])) eqn:E; [|exact IH].
  apply bool_decide_eq_true in E. apply not_elem_of_nil in E. destruct E.
Qed.

(** A lookup that returns items returns what the two loops compute, and
    has run one statement unless the batch was empty. *)
Lemma GetBatchCachedEmbeddings_inl (b : Backend) (batchItems items : list BatchItem)
    (s s' : Store) :
  GetBatchCachedEmbeddings b batchItems s = (inl items, s') ->
  items = attach (index_items 0 batchItems ∅)
                 (select_any (map Hash batchItems) (rows s)) batchItems
  /\ rows s' = rows s.
Proof.
  unfold GetBatchCachedEmbeddings. destruct batchItems as [|item rest].
  - simpl. intros [= <- <-]. rewrite select_any_nil. split; reflexivity.
  - cbn [length Nat.eqb]. destruct (fault b (ops s)); [discriminate|].
    intros [= <- <-]. split; reflexivity.
Qed.

Lemma prepare_from_lookup (k : nat) (inputs : list string) (m : string) (i : nat) :
  Cache.prepare_from k inputs m !! i
  = (fun x => mkItem x (Hash.GenerateInputHash x m) (k + i) None) <$> inputs !! i.
Proof.
  revert k i. induction inputs as [|x rest IH]; intros k i; simpl; [reflexivity|].
  destruct i as [|i]; simpl.
  - rewrite Nat.add_0_r. reflexivity.
  - rewrite IH. replace (S k + i) with (k + S i) by lia. reflexivity.
Qed.

Lemma prepared_lookup (inputs : list string) (m : string) (i : nat) :
  Cache.prepareBatchItems inputs m !! i
  = (fun x => mkItem x (Hash.GenerateInputHash x m) i None) <$> inputs !! i.
Proof. unfold Cache.prepareBatchItems. rewrite prepare_from_lookup. reflexivity. Qed.

Lemma prepare_from_length (k : nat) (inputs : list string) (m : string) :
  length (Cache.prepare_from k inputs m) = length inputs.
Proof.
  revert k. induction inputs as [|x rest IH]; intros k; simpl; [reflexivity|].
  rewrite IH. reflexivity.
Qed.

Lemma prepared_hashes (inputs : list string) (m : string) :
  map Hash (Cache.prepareBatchItems inputs m)
  = map (fun x => Hash.GenerateInputHash x m) inputs.
Proof.
  unfold Cache.prepareBatchItems. generalize 0.
  induction inputs as [|x rest IH]; intros k; simpl; [reflexivity|].
  rewrite IH. reflexivity.
Qed.

(** The lookup on the items prepared for a request, slot by slot. *)
Lemma lookup_prepared (b : Backend) (s s' : Store) (inputs : list string) (m : string)
    (items : list BatchItem) (i : nat) (x : string) :
  unique_hashes (rows s) ->
  GetBatchCachedEmbeddings b (Cache.prepareBatchItems inputs m) s = (inl items, s') ->
  inputs !! i = Some x ->
  items !! i
  = Some (mkItem x (Hash.GenerateInputHash x m) i
            (if decide (last_index (Hash.GenerateInputHash x m)
                                   (Cache.prepareBatchItems inputs m) = Some i)
             then List.find (hash_eqb (Hash.GenerateInputHash x m)) (rows s)
             else None)).
Proof.
  intros Hu Hget Hx. apply GetBatchCachedEmbeddings_inl in Hget.
  destruct Hget as [-> _]. rewrite lookup_slot by exact Hu.
  rewrite prepared_lookup, Hx. simpl.
  unfold expected_cached. simpl.
  destruct (decide _); [|reflexivity].
  destruct (List.find _ _); reflexivity.
Qed.

Lemma getUncachedItems_In (items : list BatchItem) (item : BatchItem) :
  In item (Cache.getUncachedItems items) <-> In item items /\ Cached item = None.
Proof.
  induction items as [|r rest IH]; simpl; [tauto|].
  destruct (Cached r) eqn:E; simpl; rewrite IH; split.
  - tauto.
  - intros [[->|Hin] Hc]; [congruence|tauto].
  - intros [->|[Hin Hc]]; tauto.
  - tauto.
Qed.




End BatchLookup.

(** ** Validation *)
Section Validation.
Import Cache.



Lemma strings_of_spec (i : nat) (v : list iface) :
  match strings_of i v with
  | inl l => l = string_items v /\ length l = length v
             /\ (forall x, In x v -> is_string_value x = true)
  | inr _ => exists x, In x v /\ is_string_value x = false
  end.
Proof.
  revert i. induction v as [|x rest IH]; intros i.
  - simpl. repeat split. tauto.
  - destruct x; simpl;
      try (eexists; split; [left; reflexivity|reflexivity]).
    specialize (IH (S i)). destruct (strings_of (S i) rest) as [l|err].
    + destruct IH as (-> & Hlen & Hall). repeat split; [simpl; lia|].
      intros y [<-|Hy]; [reflexivity|auto].
    + destruct IH as [y [Hy Hs]]. exists y. tauto.
Qed.

Lemma first_too_long_None (i : nat) (l : list string) :
  first_too_long i l = None <-> (forall item, In item l -> too_long item = false).
Proof.
  revert i. induction l as [|x rest IH]; intros i; simpl.
  - split; [tauto|reflexivity].
  - destruct (too_long x) eqn:E.
    + split; [discriminate|]. intros H. rewrite (H x) in E by tauto. discriminate.
    + rewrite IH. split.
      * intros H item [<-|Hin]; auto.
      * intros H item Hin. apply H. tauto.
Qed.

Lemma too_long_bytes (item : string) :
  too_long item = true <-> (max_item_len < N.of_nat (String.length item))%N.
Proof. unfold too_long. apply N.ltb_lt. Qed.

Lemma no_long_item (l : list string) :
  (forall item, In item l -> too_long item = false)
  <-> ~ (exists item, In item l /\ (max_item_len < N.of_nat (String.length item))%N).
Proof.
  split.
  - intros H [item [Hin Hlt]]. apply too_long_bytes in Hlt.
    rewrite (H item Hin) in Hlt. discriminate.
  - intros H item Hin. destruct (too_long item) eqn:E; [|reflexivity].
    exfalso. apply H. exists item. split; [exact Hin|]. apply too_long_bytes. exact E.
Qed.

Lemma batch_check (l : list string) :
  (if (length l =? 0)%nat then Some (Errorf "input cannot be empty" [])
   else if (max_batch <? N.of_nat (length l))%N
        then Some (Errorf "batch input too large (max 1000 items)" [])
        else first_too_long 0 l) = None
  <-> l <> [] /\ ~ (max_batch < N.of_nat (length l))%N
      /\ ~ (exists item, In item l /\ (max_item_len < N.of_nat (String.length item))%N).
Proof.
  destruct l as [|x rest]; [simpl; split; [discriminate|tauto]|].
  cbn [length Nat.eqb].
  destruct (max_batch <? N.of_nat (S (length rest)))%N eqn:E.
  - apply N.ltb_lt in E. split; [discriminate|tauto].
  - apply N.ltb_ge in E. rewrite first_too_long_None, no_long_item.
    split; [intros H; repeat split; [discriminate|lia|exact H]|tauto].
Qed.

(** What [ValidateRequest] accepts, exactly: the input is a string or an
    array of strings, a collection is not empty and has at most 1000
    items, and no item is longer than 10,000 bytes. *)
Lemma validate_exact (c : Cache) (req : EmbeddingRequest) :
  ValidateRequest c req = None
  <-> ~ shape_rejection (Input req) /\ ~ long_item_bytes (Input req).
Proof.
  unfold ValidateRequest, shape_rejection, long_item_bytes, absent, not_text,
    has_non_string, empty_collection, oversized.
  destruct (Input req) as [|bv|f|str|v| |l] eqn:Ein; simpl.
  - split; [discriminate|]. intros [H _]. exfalso. apply H. left. reflexivity.
  - split; [discriminate|]. intros [H _]. exfalso. apply H. tauto.
  - split; [discriminate|]. intros [H _]. exfalso. apply H. tauto.
  - destruct (too_long str) eqn:E.
    + split; [discriminate|]. intros [_ H]. exfalso. apply H. exists str.
      split; [left; reflexivity|apply too_long_bytes; exact E].
    + split; [|reflexivity]. intros _. split.
      * intros [H|[H|[(v & x & H & _)|[[H|H]|[H _]]]]]; discriminate || tauto.
      * intros [item [[<-|[]] Hlt]]. apply too_long_bytes in Hlt. congruence.
  - pose proof (strings_of_spec 0 v) as Hs.
    destruct (strings_of 0 v) as [inputs|err].
    + destruct Hs as (-> & Hlen & Hall). rewrite batch_check, Hlen. split.
      * intros (Hne & Hmax & Hlong). split; [|exact Hlong].
        intros [H|[H|[(v' & x & [= <-] & Hx & Hs)|[[[= ->]|H]|[_ H]]]]];
          try discriminate; try tauto.
        rewrite (Hall x Hx) in Hs. discriminate.
      * intros [Hshape Hlong]. split; [|split; [|exact Hlong]].
        -- intros Hnil. apply Hshape. do 3 right. left. left.
           rewrite Hnil in Hlen. destruct v; [reflexivity|discriminate Hlen].
        -- intros Hmax. apply Hshape. do 4 right. tauto.
    + split; [discriminate|]. intros [H _]. exfalso. apply H.
      destruct Hs as [x [Hx Hs]]. do 2 right. left. exists v, x. tauto.
  - split; [discriminate|]. intros [H _]. exfalso. apply H. tauto.
  - rewrite batch_check. split.
    + intros (Hne & Hmax & Hlong). split; [|exact Hlong].
      intros [H|[H|[(v' & x & H & _)|[[H|[= ->]]|[_ H]]]]];
        try discriminate; try tauto.
    + intros [Hshape Hlong]. split; [|split; [|exact Hlong]].
      * intros ->. apply Hshape. do 3 right. left. right. reflexivity.
      * intros Hmax. apply Hshape. do 4 right. tauto.
Qed.




(** The length test counts bytes: a text of 5001 characters is refused. *)
Example validation_counts_bytes :
  N.of_nat (Utf8.RuneCountInString Scenario.accented_text) = 5001%N
  /\ ValidateRequest Scenario.cache (mkRequest (IString Scenario.accented_text) "m")
     = Some (Errorf "input text too long (max 10000 characters)" []).
Proof. by_evaluation. Qed.

End Validation.

(** ** Orchestrator: what a batch request sends *)
Section Orchestrator.
Import Database Cache.
Local Open Scope nat_scope.

Lemma strings_of_map (i : nat) (inputs : list string) :
  strings_of i (map IString inputs) = inl inputs.
Proof.
  revert i. induction inputs as [|x rest IH]; intros i; simpl; [reflexivity|].
  rewrite IH. reflexivity.
Qed.

Lemma string_items_map (inputs : list string) :
  string_items (map IString inputs) = inputs.
Proof. induction inputs as [|x rest IH]; simpl; [reflexivity|]. rewrite IH. reflexivity. Qed.

Lemma attempts_sent (c : Openai.Client) (inputs : list string) (fuel attempt : nat)
    (lastErr : option error) (sn : Openai.Sent) :
  exists rest, snd (Openai.attempts c inputs fuel attempt lastErr sn) = sn ++ rest.
Proof.
  revert attempt lastErr sn. induction fuel as [|fuel IH]; intros attempt lastErr sn; simpl.
  - exists []. rewrite app_nil_r. reflexivity.
  - destruct (if (0 <? attempt) then _ else None) as [ctxErr|].
    { exists []. rewrite app_nil_r. reflexivity. }
    assert (Hrec : forall a e, exists rest,
               snd (Openai.attempts c inputs fuel a e (sn ++ [inputs])) = sn ++ rest).
    { intros a e. destruct (IH a e (sn ++ [inputs])) as [rest ->].
      exists (inputs :: rest). rewrite <- app_assoc. reflexivity. }
    destruct (Openai.respond _ _ _) as [response|err]; [|apply Hrec].
    destruct (length (Openai.Data response) =? 0); [apply Hrec|].
    destruct (Openai.copy_vectors 0 (Openai.Data response) lastErr) as [out [e|]];
      [apply Hrec|].
    exists [inputs]. reflexivity.
Qed.

Lemma attempts_first_sent (c : Openai.Client) (inputs : list string) (fuel : nat)
    (lastErr : option error) (sn : Openai.Sent) :
  exists rest,
    snd (Openai.attempts c inputs (S fuel) 0 lastErr sn) = sn ++ inputs :: rest.
Proof.
  simpl.
  assert (Hrec : forall a e, exists rest,
             snd (Openai.attempts c inputs fuel a e (sn ++ [inputs]))
             = sn ++ inputs :: rest).
  { intros a e. destruct (attempts_sent c inputs fuel a e (sn ++ [inputs])) as [rest ->].
    exists rest. rewrite <- app_assoc. reflexivity. }
  destruct (Openai.respond _ _ _) as [response|err]; [|apply Hrec].
  destruct (length (Openai.Data response) =? 0); [apply Hrec|].
  destruct (Openai.copy_vectors 0 (Openai.Data response) lastErr) as [out [e|]];
    [apply Hrec|].
  exists []. reflexivity.
Qed.

(** A call with between 1 and 1000 texts and a retry count that is not
    negative sends the texts at least once. *)
Lemma CreateBatchEmbeddings_sends (c : Openai.Client) (inputs : list string)
    (sn : Openai.Sent) :
  inputs <> [] -> (N.of_nat (length inputs) <= 1000)%N -> (0 <= Openai.maxRetries c)%Z ->
  exists rest, snd (Openai.CreateBatchEmbeddings c inputs sn) = sn ++ inputs :: rest.
Proof.
  intros Hne Hlen Hretry. unfold Openai.CreateBatchEmbeddings.
  destruct inputs as [|x rest]; [congruence|]. cbn [length Nat.eqb].
  replace (1000 <? N.of_nat (S (length rest)))%N with false
    by (symmetry; apply N.ltb_ge; exact Hlen).
  replace (Z.to_nat (Openai.maxRetries c + 1)) with (S (Z.to_nat (Openai.maxRetries c)))
    by lia.
  apply attempts_first_sent.
Qed.

Lemma track_hits_frame (c : Cache) (items : list BatchItem) (w : World) :
  store (track_hits c items w) = store w /\ sent (track_hits c items w) = sent w.
Proof.
  revert w. induction items as [|item rest IH]; intros w; simpl; [tauto|].
  destruct (Cached item) as [cached|]; [|apply IH].
  destruct (IH (TrackUsage c (ID cached) w)) as [-> ->].
  unfold TrackUsage. destruct (tracker c); tauto.
Qed.

Lemma getUncachedItems_length (items : list BatchItem) :
  length (getUncachedItems items) <= length items.
Proof.
  induction items as [|item rest IH]; simpl; [lia|].
  destruct (Cached item); simpl; lia.
Qed.

Lemma GetBatchCachedEmbeddings_runs (b : Backend) (items : list BatchItem) (s : Store) :
  items <> [] -> fault b (ops s) = None ->
  GetBatchCachedEmbeddings b items s
  = (inl (attach (index_items 0 items ∅) (select_any (map Hash items) (rows s)) items),
     mkStore (rows s) (S (ops s))).
Proof.
  intros Hne Hf. unfold GetBatchCachedEmbeddings.
  destruct items as [|item rest]; [congruence|]. cbn [length Nat.eqb].
  rewrite Hf. reflexivity.
Qed.

Lemma attach_length (hm : gmap string nat) (es : list CachedEmbedding)
    (items : list BatchItem) :
  length (attach hm es items) = length items.
Proof.
  revert items. induction es as [|e rest IH]; intros items; simpl; [reflexivity|].
  destruct (hm !! InputHash e); rewrite IH; [apply length_alter|reflexivity].
Qed.

Lemma find_absent (h : string) (t : list CachedEmbedding) :
  ~ In h (map InputHash t) -> List.find (hash_eqb h) t = None.
Proof.
  induction t as [|r rest IH]; simpl; intros Hno; [reflexivity|].
  destruct (hash_eqb h r) eqn:E.
  - apply hash_eqb_true in E. tauto.
  - apply IH. tauto.
Qed.

(** C10. A request whose input is the empty string passes validation and
    is then refused by the single path before any lookup or provider call:
    the world is unchanged.  A batch of at most 1000 items, none longer
    than 10,000 bytes, that holds the empty string passes validation too;
    when the fingerprint of the empty string is not stored, the lookup
    goes through and the retry count is not negative, the request sent to
    the provider holds the empty string. *)
Theorem empty_string_asymmetry (c : Cache) (w : World) (m : string)
    (inputs : list string) :
  In EmptyString inputs ->
  (N.of_nat (length inputs) <= max_batch)%N ->
  (forall item, In item inputs -> (N.of_nat (String.length item) <= max_item_len)%N) ->
  unique_hashes (rows (store w)) ->
  fault (db c) (ops (store w)) = None ->
  ~ In (Hash.GenerateInputHash EmptyString
          (effective_model c (mkRequest (IArray (map IString inputs)) m)))
       (map InputHash (rows (store w))) ->
  (0 <= Openai.maxRetries (ai c))%Z ->
  let single := mkRequest (IString EmptyString) m in
  let batch := mkRequest (IArray (map IString inputs)) m in
  ValidateRequest c single = None
  /\ GetEmbedding c single w = (inr (Errorf "input text cannot be empty" []), w)
  /\ ValidateRequest c batch = None
  /\ exists texts rest,
       sent (snd (GetEmbedding c batch w)) = sent w ++ texts :: rest
       /\ In EmptyString texts.
Proof.
  intros Hin Hmax Hlen Hu Hfault Hfresh Hretry single batch.
  assert (Hne : inputs <> []) by (intros ->; destruct Hin).
  split; [reflexivity|]. split; [reflexivity|]. split.
  - apply validate_exact. subst batch. simpl. split.
    + intros [H|[H|[(v & x & [= <-] & Hx & Hs)|[[[= H]|H]|[_ H]]]]];
        try discriminate H; try exact H.
      * apply in_map_iff in Hx. destruct Hx as [y [<- _]]. discriminate Hs.
      * destruct inputs; [congruence|discriminate H].
      * simpl in H. rewrite length_map in H. unfold max_batch in *. lia.
    + intros [item [Hi Hlt]]. simpl in Hi. rewrite string_items_map in Hi.
      specialize (Hlen item Hi). lia.
  - unfold GetEmbedding. subst batch. cbn [Input isBatchInput].
    unfold processBatchRequest. cbn [Input normalizeInput].
    rewrite strings_of_map.
    destruct inputs as [|x0 rest0] eqn:Einp; [congruence|]. rewrite <- Einp in *.
    replace (length inputs =? 0) with false
      by (rewrite Einp; reflexivity).
    replace (max_batch <? N.of_nat (length inputs))%N with false
      by (symmetry; apply N.ltb_ge; exact Hmax).
    set (modelName := effective_model c _) in *.
    set (prepared := prepareBatchItems inputs modelName).
    assert (Hpne : prepared <> []).
    { subst prepared. rewrite Einp. discriminate. }
    rewrite (GetBatchCachedEmbeddings_runs (db c) prepared (store w) Hpne Hfault).
    set (items := attach _ _ prepared).
    set (w1 := mkWorld _ (sent w) (usageChan w)).
    destruct (track_hits_frame c items w1) as [Hst Hsn].
    set (w2 := track_hits c items w1) in *.
    apply list_elem_of_In, list_elem_of_lookup_1 in Hin. destruct Hin as [i Hi].
    assert (Hitem : items !! i
                    = Some (mkItem EmptyString
                              (Hash.GenerateInputHash EmptyString modelName) i None)).
    { pose proof (lookup_prepared (db c) (store w) _ inputs modelName items i EmptyString
                    Hu (GetBatchCachedEmbeddings_runs (db c) prepared (store w) Hpne Hfault)
                    Hi) as H.
      rewrite (find_absent _ _ Hfresh) in H.
      destruct (decide _) in H; exact H. }
    assert (Hmiss : In (mkItem EmptyString
                          (Hash.GenerateInputHash EmptyString modelName) i None)
                       (getUncachedItems items)).
    { apply getUncachedItems_In. split; [|reflexivity].
      apply list_elem_of_In. eapply list_elem_of_lookup_2. exact Hitem. }
    set (uncached := getUncachedItems items) in *.
    assert (Hlenu : length uncached <= length inputs).
    { subst uncached. etransitivity; [apply getUncachedItems_length|].
      subst items prepared. rewrite attach_length.
      unfold prepareBatchItems. rewrite prepare_from_length. reflexivity. }
    assert (Hune : map Database.Input uncached <> []).
    { intros Hnil. apply (in_map Database.Input) in Hmiss. rewrite Hnil in Hmiss.
      destruct Hmiss. }
    destruct (CreateBatchEmbeddings_sends (ai c) (map Database.Input uncached) (sent w2))
      as [rest Hsent]; [exact Hune| rewrite length_map; unfold max_batch in Hmax; lia
                       | exact Hretry |].
    exists (map Database.Input uncached), rest. split.
    2: { exact (in_map Database.Input _ _ Hmiss). }
    replace (0 <? length uncached) with true.
    2: { symmetry. apply Nat.ltb_lt. destruct uncached; [simpl in Hune; congruence|simpl; lia]. }
    unfold createBatchEmbeddings.
    destruct (Openai.CreateBatchEmbeddings _ _ _) as [[aiResponse|err] sn].
    + simpl in Hsent. rewrite Hsn in Hsent.
      destruct (assembleBatchResults _ _ _ _); exact Hsent.
    + simpl in Hsent. rewrite Hsn in Hsent. exact Hsent.
Qed.

Lemma empty_string_asymmetry_witness :
  GetEmbedding Scenario.cache (mkRequest (IString EmptyString) "m") Scenario.world_a
  = (inr (Errorf "input text cannot be empty" []), Scenario.world_a)
  /\ ValidateRequest Scenario.cache (Scenario.batch ["a"; ""]) = None
  /\ exists texts rest,
       sent (snd (GetEmbedding Scenario.cache (Scenario.batch ["a"; ""])
                               Scenario.world_a))
       = sent Scenario.world_a ++ texts :: rest
       /\ In EmptyString texts.
Proof.
  destruct (empty_string_asymmetry Scenario.cache Scenario.world_a "m" ["a"; ""])
    as (_ & H2 & H3 & H4).
  - right. left. reflexivity.
  - vm_compute. discriminate.
  - intros item [<-|[<-|[]]]; vm_compute; discriminate.
  - apply NoDup_singleton.
  - reflexivity.
  - vm_compute. intros [H|[]]. discriminate H.
  - vm_compute. discriminate.
  - split; [exact H2|]. split; [exact H3|exact H4].
Defined.


(** No successful batch response carries token usage. *)
Lemma batch_usage_always_zero (c : Cache) (req : EmbeddingRequest) (w w' : World)
    (response : EmbeddingResponse) :
  processBatchRequest c req w = (inl response, w') ->
  TokenUsage response = Openai.no_usage.
Proof.
  unfold processBatchRequest. intros H.
  repeat match type of H with
         | context [match ?x with _ => _ end] => destruct x eqn:?
         end;
    try discriminate H; injection H as <- <-; reflexivity.
Qed.

End Orchestrator.
(** * Further properties *)

(** ** Fingerprinter *)
Section FingerprintFacts.
Local Open Scope nat_scope.

Lemma string_take_length (n : nat) (s : string) :
  String.length (string_take n s) = Nat.min n (String.length s).
Proof.
  revert s. induction n as [|n IH]; intros [|c t]; simpl; try reflexivity.
  rewrite IH. reflexivity.
Qed.

Lemma append_length (a b : string) :
  String.length (String.append a b) = String.length a + String.length b.
Proof.
  induction a as [|c a IH]; norm_append; simpl; [reflexivity|].
  rewrite IH. reflexivity.
Qed.

(** X1. Every fingerprint the hasher produces passes its own validator: it
    is 64 hexadecimal digits long. *)
Theorem generated_hash_validates (text model : string) :
  Hash.ValidateHash (Hash.GenerateInputHash text model) = true
  /\ String.length (Hash.GenerateInputHash text model) = 64.
Proof. split; [apply fingerprint_valid|apply fingerprint_length]. Qed.

(** X2. The normalized text is at most 10,000 bytes long, whatever the
    input. *)
Theorem normalized_length_bounded (input : string) :
  (N.of_nat (String.length (Hash.normalizeInput input)) <= 10000)%N.
Proof.
  unfold Hash.normalizeInput.
  set (s := Hash.normalizeWhitespace _).
  destruct (10000 <? N.of_nat (String.length s))%N eqn:E.
  - rewrite string_take_length. lia.
  - apply N.ltb_ge in E. exact E.
Qed.

Lemma has_byte_append (c : ascii) (a b : string) :
  has_byte c (String.append a b) = has_byte c a || has_byte c b.
Proof.
  induction a as [|d a IH]; norm_append; simpl; [reflexivity|].
  rewrite IH. apply orb_assoc.
Qed.

Lemma has_byte_rev_onto (c : ascii) (acc s : string) :
  has_byte c (string_rev_onto acc s) = has_byte c acc || has_byte c s.
Proof.
  revert acc. induction s as [|d s IH]; intros acc; simpl.
  - rewrite orb_false_r. reflexivity.
  - rewrite IH. simpl. destruct (Ascii.eqb c d), (has_byte c acc), (has_byte c s);
      reflexivity.
Qed.

Lemma has_byte_rev (c : ascii) (s : string) :
  has_byte c (string_rev s) = has_byte c s.
Proof. unfold string_rev. rewrite has_byte_rev_onto. reflexivity. Qed.

Lemma has_byte_take (c : ascii) (n : nat) (s : string) :
  has_byte c s = false -> has_byte c (string_take n s) = false.
Proof.
  revert s. induction n as [|n IH]; intros [|d t]; simpl; try reflexivity.
  intros H. apply orb_false_iff in H. destruct H as [-> H]. simpl. auto.
Qed.

Lemma trim_left_keeps (c : ascii) (skip : nat) (s : string) :
  has_byte c s = false -> has_byte c (Strings.trim_left_from skip s) = false.
Proof.
  revert skip. induction s as [|d t IH]; intros skip H; [reflexivity|].
  pose proof H as H'. simpl in H'. apply orb_false_iff in H'. destruct H' as [_ Ht].
  destruct skip as [|k].
  - cbn [Strings.trim_left_from].
    destruct (Utf8.DecodeRuneInString (String d t)) as [r size].
    destruct (Unicode.IsSpace r); [apply IH; exact Ht|exact H].
  - cbn [Strings.trim_left_from]. apply IH. exact Ht.
Qed.

Lemma trim_right_keeps (c : ascii) (skip : nat) (s : string) :
  has_byte c s = false -> has_byte c (Strings.trim_right_from skip s) = false.
Proof.
  revert skip. induction s as [|d t IH]; intros skip H; [reflexivity|].
  pose proof H as H'. simpl in H'. apply orb_false_iff in H'. destruct H' as [_ Ht].
  destruct skip as [|k].
  - cbn [Strings.trim_right_from].
    destruct (Utf8.DecodeLastRune (String d t)) as [r size].
    destruct (Unicode.IsSpace r); [apply IH; exact Ht|exact H].
  - cbn [Strings.trim_right_from]. apply IH. exact Ht.
Qed.

(** [TrimSpace] returns a part of its argument. *)
Lemma trim_space_keeps (c : ascii) (s : string) :
  has_byte c s = false -> has_byte c (Strings.TrimSpace s) = false.
Proof.
  intros H. unfold Strings.TrimSpace, Strings.TrimRightSpace, Strings.TrimLeftSpace.
  rewrite has_byte_rev. apply trim_right_keeps. rewrite has_byte_rev.
  apply trim_left_keeps. exact H.
Qed.

Lemma replace_cr_clears (s : string) :
  has_byte (byte_chr 0x0D) (Strings.ReplaceAll s Hash.CR Hash.LF) = false.
Proof.
  unfold Strings.ReplaceAll. induction s as [|d t IH]; [reflexivity|].
  cbn [Strings.replace_from]. unfold Hash.CR at 1. cbn [Strings.HasPrefix].
  destruct (Ascii.eqb (byte_chr 13) d) eqn:E.
  - destruct t; cbn [Strings.HasPrefix]; rewrite has_byte_append;
      cbn [Hash.CR String.length Nat.sub]; rewrite IH; reflexivity.
  - cbn [has_byte]. rewrite E, IH. reflexivity.
Qed.

Lemma split_lf_pieces (c : ascii) (cur s : string) :
  has_byte c cur = false ->
  (c = byte_chr 0x0A \/ has_byte c s = false) ->
  Forall (fun piece => has_byte c piece = false)
         (Strings.split_from Hash.LF 0 cur s).
Proof.
  revert cur. induction s as [|d t IH]; intros cur Hcur Hc.
  - cbn [Strings.split_from]. constructor; [|constructor].
    rewrite has_byte_rev. exact Hcur.
  - cbn [Strings.split_from]. unfold Hash.LF at 1. cbn [Strings.HasPrefix].
    assert (Ht : c = byte_chr 10 \/ has_byte c t = false).
    { destruct Hc as [Hc|Hc]; [left; exact Hc|right].
      simpl in Hc. apply orb_false_iff in Hc. tauto. }
    destruct (Ascii.eqb (byte_chr 10) d) eqn:E.
    + assert (Hp : Strings.HasPrefix t EmptyString = true) by (destruct t; reflexivity).
      rewrite Hp. constructor; [rewrite has_byte_rev; exact Hcur|].
      cbn [Hash.LF String.length Nat.sub]. apply IH; [reflexivity|exact Ht].
    + apply IH; [|exact Ht]. cbn [has_byte]. rewrite Hcur, orb_false_r.
      destruct Hc as [->|Hc]; [exact E|].
      simpl in Hc. apply orb_false_iff in Hc. tauto.
Qed.

Lemma keep_lines_pieces (c : ascii) (lines : list string) :
  Forall (fun piece => has_byte c piece = false) lines ->
  Forall (fun piece => has_byte c piece = false) (Hash.keep_lines lines).
Proof.
  induction 1 as [|line rest Hline Hrest IH]; simpl; [constructor|].
  destruct (String.eqb _ _); [exact IH|].
  constructor; [apply trim_space_keeps; exact Hline|exact IH].
Qed.

Lemma join_pieces (c : ascii) (elems : list string) (sep : string) :
  has_byte c sep = false ->
  Forall (fun piece => has_byte c piece = false) elems ->
  has_byte c (Strings.Join elems sep) = false.
Proof.
  intros Hsep. induction 1 as [|e rest He Hrest IH]; [reflexivity|].
  destruct rest as [|e' rest']; [exact He|].
  change (has_byte c (String.append e (String.append sep (Strings.Join (e' :: rest') sep)))
          = false).
  rewrite !has_byte_append, He, Hsep, IH. reflexivity.
Qed.

Lemma normalize_whitespace_line (c : ascii) (input : string) :
  c = byte_chr 0x0A \/ c = byte_chr 0x0D ->
  has_byte c (Hash.normalizeWhitespace input) = false.
Proof.
  intros Hc. unfold Hash.normalizeWhitespace.
  apply join_pieces; [destruct Hc as [->| ->]; reflexivity|].
  apply keep_lines_pieces. unfold Strings.Split.
  apply split_lf_pieces; [reflexivity|].
  destruct Hc as [->| ->]; [left; reflexivity|right; apply replace_cr_clears].
Qed.

(** X3. The normalized text is a single line: it holds neither a line feed
    nor a carriage return. *)
Theorem normalized_single_line (input : string) :
  has_byte (byte_chr 0x0A) (Hash.normalizeInput input) = false
  /\ has_byte (byte_chr 0x0D) (Hash.normalizeInput input) = false.
Proof.
  unfold Hash.normalizeInput.
  set (s := Hash.normalizeWhitespace _).
  assert (Hlf : has_byte (byte_chr 0x0A) s = false)
    by (apply normalize_whitespace_line; left; reflexivity).
  assert (Hcr : has_byte (byte_chr 0x0D) s = false)
    by (apply normalize_whitespace_line; right; reflexivity).
  destruct (10000 <? N.of_nat (String.length s))%N.
  - split; apply has_byte_take; assumption.
  - split; assumption.
Qed.

Lemma append_cancel_l (a b c : string) :
  String.append a b = String.append a c -> b = c.
Proof.
  induction a as [|d a IH]; norm_append; [tauto|].
  intros H. injection H as H. auto.
Qed.

Lemma append_cancel_r (a b c : string) :
  String.append a c = String.append b c -> a = b.
Proof.
  intros H.
  assert (Hlen : String.length a = String.length b).
  { apply (f_equal String.length) in H. rewrite !append_length in H. lia. }
  revert b H Hlen. induction a as [|d a IH]; intros [|e b] H Hlen;
    try discriminate Hlen; [reflexivity|].
  norm_append. injection H as -> H. f_equal. apply IH; [exact H|].
  simpl in Hlen. lia.
Qed.

(** X4. The string that is hashed tells two models apart on the same text,
    and two normalized texts apart under the same model. *)
Theorem hash_input_separates (t1 t2 m1 m2 : string) :
  (Hash.hashData t1 m1 = Hash.hashData t1 m2 -> m1 = m2)
  /\ (Hash.hashData t1 m1 = Hash.hashData t2 m1 ->
      Hash.normalizeInput t1 = Hash.normalizeInput t2).
Proof.
  unfold Hash.hashData. split; intros H.
  - apply append_cancel_l in H. apply (append_cancel_l "|") in H. exact H.
  - apply append_cancel_r in H. exact H.
Qed.

Lemma hash_input_separates_witness :
  Hash.normalizeInput "a b" = Hash.normalizeInput Scenario.padded_text.
Proof.
  apply (hash_input_separates "a b" Scenario.padded_text "m" "m").
  vm_compute. reflexivity.
Defined.

(** X5. [truncateForLog] never returns more than [maxLen] bytes, and
    returns the input itself when it fits. *)
Theorem log_preview_bounded (input : string) (maxLen : nat) :
  String.length (Hash.truncateForLog input maxLen) <= maxLen
  /\ (String.length input <= maxLen -> Hash.truncateForLog input maxLen = input).
Proof.
  unfold Hash.truncateForLog.
  destruct (String.length input <=? maxLen) eqn:E.
  - apply Nat.leb_le in E. split; [exact E|reflexivity].
  - apply Nat.leb_gt in E. split; [|lia].
    destruct (maxLen <=? 3) eqn:E3.
    + rewrite string_take_length. lia.
    + apply Nat.leb_gt in E3. rewrite append_length, string_take_length. simpl. lia.
Qed.

Lemma log_preview_bounded_witness :
  Hash.truncateForLog "hello" 50 = "hello".
Proof.
  apply (log_preview_bounded "hello" 50). vm_compute. lia.
Defined.

End FingerprintFacts.

(** ** Fingerprinter: the code against the pipeline of the specification *)

(** *** The UTF-8 encoder and decoder on valid runes *)

Lemma all_in_spec (d : nat) (f : N -> bool) (lo x : N) :
  all_in d lo f = true -> lo <= x < lo + 2 ^ N.of_nat d -> f x = true.
Proof.
  revert lo. induction d as [|k IH]; intros lo; simpl all_in.
  - intros H [H1 H2]. change (2 ^ N.of_nat 0) with 1 in H2.
    replace x with lo by lia. exact H.
  - intros H [H1 H2]. apply andb_true_iff in H. destruct H as [Ha Hb].
    rewrite Nat2N.inj_succ, N.pow_succ_r' in H2.
    destruct (N.lt_ge_cases x (lo + 2 ^ N.of_nat k)) as [Hlt|Hge].
    + apply (IH lo Ha). lia.
    + apply (IH _ Hb). lia.
Qed.

Lemma leads_checked :
  all_in 15 0 (fun q => let r := 64 * q in
                        negb (Utf8.ValidRune r) || (r <? 0x80) || lead_ok r) = true.
Proof. vm_compute. reflexivity. Qed.

Lemma last_bytes_checked :
  all_in 6 0 (fun d => let z := N.lor 0x80 d in
                       (0x80 <=? z) && (z <=? 0xBF) && (N.land z 0x3F =? d)
                       && negb (Ascii.eqb (byte_chr 0x0A) (byte_chr z))
                       && negb (Ascii.eqb (byte_chr 0x0D) (byte_chr z))) = true.
Proof. vm_compute. reflexivity. Qed.

Lemma byte_roundtrip (z : N) : z < 256 -> byte_val (byte_chr z) = z.
Proof. intros H. unfold byte_val, byte_chr. apply N_ascii_embedding. exact H. Qed.

Lemma split6 (r : N) : N.lor (N.shiftl (N.shiftr r 6) 6) (N.land r 0x3F) = r.
Proof.
  apply N.bits_inj. intros n. rewrite N.lor_spec, N.land_spec.
  change 0x3F with (N.ones 6).
  destruct (N.lt_ge_cases n 6) as [Hlt|Hge].
  - rewrite N.shiftl_spec_low by exact Hlt.
    rewrite N.ones_spec_low by exact Hlt. rewrite andb_true_r. reflexivity.
  - rewrite N.shiftl_spec_high' by exact Hge.
    rewrite N.shiftr_spec', N.ones_spec_high by exact Hge.
    rewrite andb_false_r, orb_false_r. f_equal. lia.
Qed.

Ltac split_ifs :=
  repeat match goal with
         | H : context [if ?b then _ else _] |- _ => destruct b eqn:?
         | |- context [if ?b then _ else _] => destruct b eqn:?
         end.

Lemma decode_last (p : string) (z : N) (s : string) :
  p <> EmptyString ->
  snd (Utf8.DecodeRuneInString (String.append p (String (byte_chr 0x80) EmptyString)))
  = S (String.length p) ->
  0x80 <= z <= 0xBF ->
  Utf8.DecodeRuneInString (String.append p (String (byte_chr z) s))
  = (N.lor (fst (Utf8.DecodeRuneInString
                   (String.append p (String (byte_chr 0x80) EmptyString))))
           (N.land z 0x3F),
     S (String.length p)).
Proof.
  intros Hp Hsize Hz.
  assert (Hzb : byte_val (byte_chr z) = z) by (apply byte_roundtrip; lia).
  assert (Hout : Utf8.outside 0x80 0xBF z = false).
  { unfold Utf8.outside. apply orb_false_iff. split; apply N.ltb_ge; lia. }
  assert (H80 : byte_val (byte_chr 0x80) = 0x80) by reflexivity.
  assert (Hlow : N.land 0x80 0x3F = 0) by reflexivity.
  destruct p as [|c0 [|c1 [|c2 [|c3 p']]]]; [contradiction| | | |];
    rewrite ?append_cons, ?append_empty in *;
    unfold Utf8.DecodeRuneInString in *; cbn [String.length] in *;
    rewrite ?Hzb, ?H80 in *;
    set (b0 := byte_val c0) in *;
    (destruct (b0 <? Utf8.RuneSelf); [discriminate Hsize|]);
    unfold Utf8.first in *.
  - split_ifs; try discriminate Hsize; cbn [fst snd] in *;
      try (rewrite Hout in *; discriminate);
      try discriminate;
      rewrite Hlow, N.lor_0_r; reflexivity.
  - set (b1 := byte_val c1) in *.
    split_ifs; try discriminate Hsize; cbn [fst snd] in *;
      try (rewrite Hout in *; discriminate);
      try discriminate;
      rewrite Hlow, N.lor_0_r; reflexivity.
  - set (b1 := byte_val c1) in *. set (b2 := byte_val c2) in *.
    split_ifs; try discriminate Hsize; cbn [fst snd] in *;
      try (rewrite Hout in *; discriminate);
      try discriminate;
      rewrite Hlow, N.lor_0_r; reflexivity.
  - set (b1 := byte_val c1) in *. set (b2 := byte_val c2) in *.
    set (b3 := byte_val c3) in *.
    destruct p' as [|c4 p'']; rewrite ?append_cons, ?append_empty in *.
    + split_ifs; cbn [fst snd] in *; try discriminate Hsize.
    + split_ifs; cbn [fst snd] in *; try discriminate Hsize.
Qed.

Lemma ValidRune_range (r : N) :
  Utf8.ValidRune r = true <-> r < 0xD800 \/ (0xDFFF < r /\ r <= 0x10FFFF).
Proof.
  unfold Utf8.ValidRune, Utf8.MaxRune.
  rewrite orb_true_iff, andb_true_iff, N.ltb_lt, N.ltb_lt, N.leb_le. reflexivity.
Qed.

Lemma surrogate_range (r : N) :
  Utf8.surrogate r = false <-> r < 0xD800 \/ 0xDFFF < r.
Proof.
  unfold Utf8.surrogate. rewrite andb_false_iff, !N.leb_gt. reflexivity.
Qed.

Lemma encode_shape (r : N) :
  Utf8.ValidRune r = true -> 0x80 <= r ->
  exists p q,
    p <> EmptyString
    /\ Utf8.EncodeRune r = String.append p (last_byte r)
    /\ Utf8.EncodeRune (64 * q) = String.append p (String (byte_chr 0x80) EmptyString)
    /\ Utf8.ValidRune (64 * q) = true /\ 0x80 <= 64 * q <= Utf8.MaxRune
    /\ r = N.lor (64 * q) (N.land r 0x3F).
Proof.
  intros Hv Hr. apply ValidRune_range in Hv.
  set (q := N.shiftr r 6).
  assert (Hq : q = r / 64) by (unfold q; rewrite N.shiftr_div_pow2; reflexivity).
  assert (H0 : N.shiftl q 6 = 64 * q).
  { rewrite N.shiftl_mul_pow2. change (2 ^ 6) with 64. lia. }
  pose proof (N.div_mod r 64 ltac:(lia)) as Hdm.
  pose proof (N.mod_lt r 64 ltac:(lia)) as Hm.
  rewrite <- Hq in Hdm.
  assert (H6 : N.shiftr (64 * q) 6 = q).
  { rewrite <- H0, N.shiftr_shiftl_l by lia. apply N.shiftl_0_r. }
  assert (H12 : N.shiftr (64 * q) 12 = N.shiftr r 12).
  { rewrite <- H0, N.shiftr_shiftl_r by lia. unfold q. rewrite N.shiftr_shiftr.
    reflexivity. }
  assert (H18 : N.shiftr (64 * q) 18 = N.shiftr r 18).
  { rewrite <- H0, N.shiftr_shiftl_r by lia. unfold q. rewrite N.shiftr_shiftr.
    reflexivity. }
  assert (Hl : N.land (64 * q) 0x3F = 0).
  { change 0x3F with (N.ones 6). rewrite N.land_ones. change (2 ^ 6) with 64.
    rewrite N.mul_comm. apply N.Div0.mod_mul. }
  assert (Hsplit : r = N.lor (64 * q) (N.land r 0x3F)).
  { rewrite <- H0. unfold q. symmetry. apply split6. }
  assert (Hq6 : N.shiftr r 6 = q) by reflexivity.
  clearbody q. clear Hq H0.
  set (m := r mod 64) in *. clearbody m.
  assert (Hv0 : Utf8.ValidRune (64 * q) = true) by (apply ValidRune_range; lia).
  assert (Hs : Utf8.surrogate r = false) by (apply surrogate_range; lia).
  assert (Hs0 : Utf8.surrogate (64 * q) = false) by (apply surrogate_range; lia).
  assert (E1 : (r <=? 0x7F) = false) by (apply N.leb_gt; lia).
  assert (E1' : (64 * q <=? 0x7F) = false) by (apply N.leb_gt; lia).
  assert (E2 : (64 * q <=? 0x7FF) = (r <=? 0x7FF)).
  { destruct (N.leb_spec (64 * q) 0x7FF), (N.leb_spec r 0x7FF); try reflexivity; lia. }
  assert (E3 : (64 * q <=? 0xFFFF) = (r <=? 0xFFFF)).
  { destruct (N.leb_spec (64 * q) 0xFFFF), (N.leb_spec r 0xFFFF); try reflexivity; lia. }
  assert (E4 : (0x10FFFF <? r) = false) by (apply N.ltb_ge; lia).
  assert (E4' : (0x10FFFF <? 64 * q) = false) by (apply N.ltb_ge; lia).
  assert (Er : Utf8.EncodeRune r
               = if r <=? 0x7FF then
                   string_of_bytes [N.lor 0xC0 q; N.lor 0x80 (N.land r 0x3F)]
                 else if r <=? 0xFFFF then
                   string_of_bytes [N.lor 0xE0 (N.shiftr r 12);
                                    N.lor 0x80 (N.land q 0x3F);
                                    N.lor 0x80 (N.land r 0x3F)]
                 else
                   string_of_bytes [N.lor 0xF0 (N.shiftr r 18);
                                    N.lor 0x80 (N.land (N.shiftr r 12) 0x3F);
                                    N.lor 0x80 (N.land q 0x3F);
                                    N.lor 0x80 (N.land r 0x3F)]).
  { unfold Utf8.EncodeRune, Utf8.MaxRune. rewrite E1, E4, Hs, Hq6. reflexivity. }
  assert (Er0 : Utf8.EncodeRune (64 * q)
                = if r <=? 0x7FF then
                    string_of_bytes [N.lor 0xC0 q; 0x80]
                  else if r <=? 0xFFFF then
                    string_of_bytes [N.lor 0xE0 (N.shiftr r 12);
                                     N.lor 0x80 (N.land q 0x3F); 0x80]
                  else
                    string_of_bytes [N.lor 0xF0 (N.shiftr r 18);
                                     N.lor 0x80 (N.land (N.shiftr r 12) 0x3F);
                                     N.lor 0x80 (N.land q 0x3F); 0x80]).
  { unfold Utf8.EncodeRune, Utf8.MaxRune.
    rewrite E1', E2, E3, E4', Hs0, H6, H12, H18, Hl. reflexivity. }
  unfold last_byte, Utf8.MaxRune. revert Er Er0.
  destruct (r <=? 0x7FF); [|destruct (r <=? 0xFFFF)]; intros -> Er0.
  - exists (string_of_bytes [N.lor 0xC0 q]), q.
    rewrite Er0. split; [discriminate|]. repeat split; try assumption; try reflexivity; lia.
  - exists (string_of_bytes [N.lor 0xE0 (N.shiftr r 12); N.lor 0x80 (N.land q 0x3F)]), q.
    rewrite Er0. split; [discriminate|]. repeat split; try assumption; try reflexivity; lia.
  - exists (string_of_bytes [N.lor 0xF0 (N.shiftr r 18);
                             N.lor 0x80 (N.land (N.shiftr r 12) 0x3F);
                             N.lor 0x80 (N.land q 0x3F)]), q.
    rewrite Er0. split; [discriminate|]. repeat split; try assumption; try reflexivity; lia.
Qed.

Lemma append_nil_r (s : string) : String.append s EmptyString = s.
Proof. induction s as [|c s IH]; norm_append; [reflexivity|]. rewrite IH. reflexivity. Qed.

Lemma append_assoc (a b c : string) :
  String.append (String.append a b) c = String.append a (String.append b c).
Proof. induction a as [|x a IH]; norm_append; [reflexivity|]. rewrite IH. reflexivity. Qed.

Lemma string_rev_onto_spec (acc s : string) :
  string_rev_onto acc s = String.append (string_rev s) acc.
Proof.
  unfold string_rev. revert acc. induction s as [|c s IH]; intros acc; simpl.
  - reflexivity.
  - rewrite (IH (String c acc)), (IH (String c EmptyString)), append_assoc.
    reflexivity.
Qed.

Lemma string_rev_cons (c : ascii) (s : string) :
  string_rev (String c s) = String.append (string_rev s) (String c EmptyString).
Proof. unfold string_rev at 1. simpl. apply string_rev_onto_spec. Qed.

Lemma string_rev_app (a b : string) :
  string_rev (String.append a b) = String.append (string_rev b) (string_rev a).
Proof.
  induction a as [|c a IH]; norm_append.
  - symmetry. apply append_nil_r.
  - rewrite !string_rev_cons, IH, append_assoc. reflexivity.
Qed.

Lemma string_rev_involutive (s : string) : string_rev (string_rev s) = s.
Proof.
  induction s as [|c s IH]; [reflexivity|].
  rewrite string_rev_cons, string_rev_app, IH. reflexivity.
Qed.

Lemma string_rev_length (s : string) : String.length (string_rev s) = String.length s.
Proof.
  induction s as [|c s IH]; [reflexivity|].
  rewrite string_rev_cons, append_length, IH. simpl. lia.
Qed.

Lemma string_take_app (a s : string) :
  string_take (String.length a) (String.append a s) = a.
Proof. induction a as [|c a IH]; norm_append; simpl; [destruct s|rewrite IH]; reflexivity. Qed.

Lemma find_start_app (n j : nat) (a s : string) :
  Utf8.find_start n a = Some j -> Utf8.find_start n (String.append a s) = Some j.
Proof.
  revert j a. induction n as [|n IH]; intros j [|c a]; simpl; try discriminate.
  norm_append. simpl. destruct (Utf8.RuneStart (byte_val c)); [auto|].
  destruct (Utf8.find_start n a) as [k|] eqn:E; [|discriminate].
  rewrite (IH k a E). auto.
Qed.

Section Encoding.
Local Open Scope nat_scope.

Lemma encode_ascii (r : N) :
  (r < 0x80)%N -> Utf8.EncodeRune r = String (byte_chr r) EmptyString.
Proof.
  intros H. unfold Utf8.EncodeRune.
  replace (r <=? 0x7F)%N with true by (symmetry; apply N.leb_le; lia). reflexivity.
Qed.

Lemma lead_facts (p : string) (q : N) :
  Utf8.ValidRune (64 * q) = true -> (0x80 <= 64 * q <= Utf8.MaxRune)%N ->
  Utf8.EncodeRune (64 * q) = String.append p (String (byte_chr 0x80) EmptyString) ->
  Utf8.DecodeRuneInString (String.append p (String (byte_chr 0x80) EmptyString))
  = ((64 * q)%N, S (String.length p))
  /\ Utf8.find_start 3 (string_rev p) = Some (String.length p - 1)
  /\ 1 <= String.length p
  /\ has_byte (byte_chr 0x0A) p = false /\ has_byte (byte_chr 0x0D) p = false.
Proof.
  intros Hv [Hlo Hhi] He.
  assert (Hq : (0 <= q < 0 + 2 ^ N.of_nat 15)%N).
  { unfold Utf8.MaxRune in Hhi. change (2 ^ N.of_nat 15)%N with 32768%N. lia. }
  pose proof (all_in_spec 15 _ 0 q leads_checked Hq) as H. cbv beta zeta in H.
  rewrite Hv in H. replace (64 * q <? 0x80)%N with false in H
    by (symmetry; apply N.ltb_ge; exact Hlo).
  cbn [negb orb] in H. unfold lead_ok in H. rewrite He in H.
  rewrite append_length, string_rev_app in H. cbn [String.length] in H.
  change (string_rev (String (byte_chr 0x80) EmptyString))
    with (String (byte_chr 0x80) EmptyString) in H.
  rewrite append_cons, append_empty in H. cbn [string_tail] in H.
  rewrite has_byte_append, has_byte_append in H.
  apply andb_true_iff in H. destruct H as [H Hcr].
  apply andb_true_iff in H. destruct H as [H Hlf].
  apply andb_true_iff in H. destruct H as [H Hfs].
  apply andb_true_iff in H. destruct H as [Hdec Hn].
  unfold decoded_as in Hdec. apply andb_true_iff in Hdec. destruct Hdec as [Hf Hs].
  apply N.eqb_eq in Hf. apply Nat.eqb_eq in Hs. apply Nat.leb_le in Hn.
  apply negb_true_iff, orb_false_iff in Hcr, Hlf.
  destruct (Utf8.DecodeRuneInString _) as [v size]. cbn [fst snd] in *. subst v size.
  destruct (Utf8.find_start 3 (string_rev p)) as [j|]; [|discriminate].
  apply Nat.eqb_eq in Hfs.
  split; [f_equal; lia|]. split; [f_equal; lia|]. split; [lia|].
  split; [apply Hlf|apply Hcr].
Qed.

End Encoding.

Lemma ascii_checked :
  all_in 7 0 (fun r => Bool.eqb (Ascii.eqb (byte_chr 0x0A) (byte_chr r)) (r =? 0x0A)
                       && Bool.eqb (Ascii.eqb (byte_chr 0x0D) (byte_chr r)) (r =? 0x0D))
  = true.
Proof. vm_compute. reflexivity. Qed.

Lemma last_byte_facts (r : N) :
  let z := N.lor 0x80 (N.land r 0x3F) in
  0x80 <= z <= 0xBF /\ N.land z 0x3F = N.land r 0x3F
  /\ Ascii.eqb (byte_chr 0x0A) (byte_chr z) = false
  /\ Ascii.eqb (byte_chr 0x0D) (byte_chr z) = false.
Proof.
  assert (Hd : 0 <= N.land r 0x3F < 0 + 2 ^ N.of_nat 6).
  { change 0x3F with (N.ones 6). rewrite N.land_ones.
    change (2 ^ N.of_nat 6) with (2 ^ 6). split; [apply N.le_0_l|]. apply N.mod_lt. discriminate. }
  pose proof (all_in_spec 6 _ 0 _ last_bytes_checked Hd) as H. cbv beta zeta in H.
  apply andb_true_iff in H. destruct H as [H Hcr].
  apply andb_true_iff in H. destruct H as [H Hlf].
  apply andb_true_iff in H. destruct H as [H Hland].
  apply andb_true_iff in H. destruct H as [Hlo Hhi].
  apply N.leb_le in Hlo, Hhi. apply N.eqb_eq in Hland.
  apply negb_true_iff in Hcr, Hlf. repeat split; assumption.
Qed.

Section Encoded.
Local Open Scope nat_scope.

Lemma encoded_decodes (r : N) (valid : Utf8.ValidRune r = true) (s : string) :
  Utf8.DecodeRuneInString (String.append (Utf8.EncodeRune r) s)
  = (r, String.length (Utf8.EncodeRune r)).
Proof.
  destruct (N.lt_ge_cases r 0x80) as [Hlow|Hhigh].
  - rewrite (encode_ascii r Hlow). norm_append. unfold Utf8.DecodeRuneInString.
    rewrite byte_roundtrip by lia.
    replace (r <? Utf8.RuneSelf)%N with true by (symmetry; apply N.ltb_lt; exact Hlow).
    reflexivity.
  - destruct (encode_shape r valid Hhigh) as (p & q & Hp & Hr & Hq & Hv & Hrange & Hsplit).
    destruct (lead_facts p q Hv Hrange Hq) as (Hdec & _).
    destruct (last_byte_facts r) as (Hz & Hland & _).
    rewrite Hr, append_assoc, append_length. unfold last_byte. norm_append.
    rewrite (decode_last p _ s Hp); [|rewrite Hdec; reflexivity|exact Hz].
    rewrite Hdec. cbn [fst String.length]. rewrite Hland, <- Hsplit. f_equal. lia.
Qed.

Lemma encoded_decodes_backwards (r : N) (valid : Utf8.ValidRune r = true) (s : string) :
  Utf8.DecodeLastRune (String.append (string_rev (Utf8.EncodeRune r)) s)
  = (r, String.length (Utf8.EncodeRune r)).
Proof.
  destruct (N.lt_ge_cases r 0x80) as [Hlow|Hhigh].
  - rewrite (encode_ascii r Hlow).
    change (string_rev (String (byte_chr r) EmptyString))
      with (String (byte_chr r) EmptyString).
    norm_append. unfold Utf8.DecodeLastRune.
    rewrite byte_roundtrip by lia.
    replace (r <? Utf8.RuneSelf)%N with true by (symmetry; apply N.ltb_lt; exact Hlow).
    reflexivity.
  - pose proof (encoded_decodes r valid EmptyString) as Hfwd. rewrite append_nil_r in Hfwd.
    destruct (encode_shape r valid Hhigh) as (p & q & Hp & Hr & Hq & Hv & Hrange & Hsplit).
    destruct (lead_facts p q Hv Hrange Hq) as (_ & Hstart & Hlen & _).
    destruct (last_byte_facts r) as (Hz & _).
    rewrite Hr in *. rewrite string_rev_app, append_length. unfold last_byte in *.
    set (z := N.lor 0x80 (N.land r 0x3F)) in *.
    change (string_rev (String (byte_chr z) EmptyString))
      with (String (byte_chr z) EmptyString).
    norm_append. unfold Utf8.DecodeLastRune.
    rewrite byte_roundtrip by lia.
    replace (z <? Utf8.RuneSelf)%N with false
      by (symmetry; apply N.ltb_ge; unfold Utf8.RuneSelf; lia).
    rewrite (find_start_app _ _ _ s Hstart).
    replace (String.length p - 1 + 2) with (S (String.length (string_rev p)))
      by (rewrite string_rev_length; lia).
    cbn [string_take]. rewrite string_take_app.
    replace (String (byte_chr z) (string_rev p))
      with (string_rev (String.append p (String (byte_chr z) EmptyString)))
      by (rewrite string_rev_app; reflexivity).
    rewrite string_rev_involutive, Hfwd, append_length, string_rev_length.
    cbn [String.length].
    replace (String.length p + 1 =? S (String.length p)) with true
      by (symmetry; apply Nat.eqb_eq; lia).
    reflexivity.
Qed.

Lemma encoded_nonempty (r : N) (valid : Utf8.ValidRune r = true) :
  1 <= String.length (Utf8.EncodeRune r).
Proof.
  destruct (N.lt_ge_cases r 0x80) as [Hlow|Hhigh].
  - rewrite (encode_ascii r Hlow). simpl. lia.
  - destruct (encode_shape r valid Hhigh) as (p & q & _ & -> & _).
    rewrite append_length. unfold last_byte. simpl. lia.
Qed.

Lemma encoded_line_feed (r : N) (valid : Utf8.ValidRune r = true) :
  has_byte (byte_chr 0x0A) (Utf8.EncodeRune r) = (r =? 0x0A)%N.
Proof.
  destruct (N.lt_ge_cases r 0x80) as [Hlow|Hhigh].
  - rewrite (encode_ascii r Hlow). cbn [has_byte]. rewrite orb_false_r.
    assert (Hr : (0 <= r < 0 + 2 ^ N.of_nat 7)%N)
      by (change (2 ^ N.of_nat 7)%N with 128%N; lia).
    pose proof (all_in_spec 7 _ 0 r ascii_checked Hr) as H. cbv beta in H.
    apply andb_true_iff in H. destruct H as [H _]. apply eqb_prop in H. exact H.
  - destruct (encode_shape r valid Hhigh) as (p & q & Hp & Hr & Hq & Hv & Hrange & _).
    destruct (lead_facts p q Hv Hrange Hq) as (_ & _ & _ & Hlf & _).
    destruct (last_byte_facts r) as (_ & _ & Hz & _).
    rewrite Hr, has_byte_append, Hlf. unfold last_byte. cbn [has_byte].
    rewrite Hz. symmetry. apply N.eqb_neq. lia.
Qed.

Lemma encoded_carriage_return (r : N) (valid : Utf8.ValidRune r = true) :
  has_byte (byte_chr 0x0D) (Utf8.EncodeRune r) = (r =? 0x0D)%N.
Proof.
  destruct (N.lt_ge_cases r 0x80) as [Hlow|Hhigh].
  - rewrite (encode_ascii r Hlow). cbn [has_byte]. rewrite orb_false_r.
    assert (Hr : (0 <= r < 0 + 2 ^ N.of_nat 7)%N)
      by (change (2 ^ N.of_nat 7)%N with 128%N; lia).
    pose proof (all_in_spec 7 _ 0 r ascii_checked Hr) as H. cbv beta in H.
    apply andb_true_iff in H. destruct H as [_ H]. apply eqb_prop in H. exact H.
  - destruct (encode_shape r valid Hhigh) as (p & q & Hp & Hr & Hq & Hv & Hrange & _).
    destruct (lead_facts p q Hv Hrange Hq) as (_ & _ & _ & _ & Hcr).
    destruct (last_byte_facts r) as (_ & _ & _ & Hz).
    rewrite Hr, has_byte_append, Hcr. unfold last_byte. cbn [has_byte].
    rewrite Hz. symmetry. apply N.eqb_neq. lia.
Qed.

End Encoded.

(** *** Step by step: the code on the bytes, the pipeline on the characters *)

Lemma string_of_runes_app (a b : list N) :
  string_of_runes (a ++ b) = String.append (string_of_runes a) (string_of_runes b).
Proof.
  induction a as [|c a IH]; simpl; [reflexivity|].
  rewrite IH, append_assoc. reflexivity.
Qed.

Lemma string_of_runes_nil (t : list N) :
  valid_runes t -> string_of_runes t = EmptyString -> t = [].
Proof.
  intros Hv H. destruct Hv as [|c rest Hc _]; [reflexivity|].
  apply (f_equal String.length) in H. simpl in H. rewrite append_length in H.
  pose proof (encoded_nonempty c Hc). simpl in H. lia.
Qed.

(** Splitting off the first byte of an encoding. *)
Lemma encoded_cons (c : N) :
  Utf8.ValidRune c = true ->
  exists a e, Utf8.EncodeRune c = String a e.
Proof.
  intros Hc. pose proof (encoded_nonempty c Hc) as Hn.
  destruct (Utf8.EncodeRune c) as [|a e]; [simpl in Hn; lia|]. eauto.
Qed.

Lemma trim_left_skip (a s : string) :
  Strings.trim_left_from (String.length a) (String.append a s)
  = Strings.trim_left_from 0 s.
Proof. induction a as [|c a IH]; norm_append; [reflexivity|exact IH]. Qed.

Lemma TrimLeftSpace_runes (t : list N) :
  valid_runes t ->
  Strings.TrimLeftSpace (string_of_runes t)
  = string_of_runes (Pipeline.drop_leading Unicode.IsSpace t).
Proof.
  unfold Strings.TrimLeftSpace. induction 1 as [|c rest Hc Hrest IH]; [reflexivity|].
  cbn [string_of_runes Pipeline.drop_leading].
  pose proof (encoded_decodes c Hc (string_of_runes rest)) as Hdec.
  destruct (encoded_cons c Hc) as (a & e & He). rewrite He in *. norm_append.
  cbn [Strings.trim_left_from]. rewrite Hdec. cbn [String.length].
  replace (S (String.length e) - 1)%nat with (String.length e) by lia.
  destruct (Unicode.IsSpace c).
  - rewrite trim_left_skip. exact IH.
  - cbn [string_of_runes]. rewrite He. norm_append. reflexivity.
Qed.

Lemma trim_right_skip (a s : string) :
  Strings.trim_right_from (String.length a) (String.append a s)
  = Strings.trim_right_from 0 s.
Proof. induction a as [|c a IH]; norm_append; [reflexivity|exact IH]. Qed.

(** The reversed bytes of a text, from the reversed text. *)
Lemma reversed_cons (c : N) (u : list N) :
  string_rev (string_of_runes (rev (c :: u)))
  = String.append (string_rev (Utf8.EncodeRune c)) (string_rev (string_of_runes (rev u))).
Proof.
  cbn [rev]. rewrite string_of_runes_app, string_rev_app. cbn [string_of_runes].
  rewrite append_nil_r. reflexivity.
Qed.

Lemma trim_right_reversed (u : list N) :
  valid_runes u ->
  Strings.trim_right_from 0 (string_rev (string_of_runes (rev u)))
  = string_rev (string_of_runes (rev (Pipeline.drop_leading Unicode.IsSpace u))).
Proof.
  induction 1 as [|c rest Hc Hrest IH]; [reflexivity|].
  cbn [Pipeline.drop_leading]. rewrite reversed_cons.
  pose proof (encoded_decodes_backwards c Hc (string_rev (string_of_runes (rev rest))))
    as Hdec.
  pose proof (string_rev_length (Utf8.EncodeRune c)) as Hlen.
  pose proof (encoded_nonempty c Hc) as Hn.
  destruct (string_rev (Utf8.EncodeRune c)) as [|a e] eqn:He;
    [simpl in Hlen; lia|].
  norm_append. cbn [Strings.trim_right_from]. rewrite Hdec, <- Hlen.
  cbn [String.length].
  replace (S (String.length e) - 1)%nat with (String.length e) by lia.
  destruct (Unicode.IsSpace c).
  - rewrite trim_right_skip. exact IH.
  - rewrite reversed_cons, He. norm_append. reflexivity.
Qed.

Lemma valid_runes_rev (t : list N) : valid_runes t -> valid_runes (rev t).
Proof. unfold valid_runes. intros H. apply Forall_rev. exact H. Qed.

Lemma valid_drop_leading (p : N -> bool) (t : list N) :
  valid_runes t -> valid_runes (Pipeline.drop_leading p t).
Proof.
  induction 1 as [|c rest Hc Hrest IH]; simpl; [constructor|].
  destruct (p c); [exact IH|constructor; assumption].
Qed.

Lemma valid_drop_trailing (p : N -> bool) (t : list N) :
  valid_runes t -> valid_runes (Pipeline.drop_trailing p t).
Proof.
  intros H. unfold Pipeline.drop_trailing.
  apply valid_runes_rev, valid_drop_leading, valid_runes_rev, H.
Qed.

Lemma valid_trim (t : list N) : valid_runes t -> valid_runes (Pipeline.trim t).
Proof. intros H. apply valid_drop_trailing, valid_drop_leading, H. Qed.

Lemma TrimRightSpace_runes (t : list N) :
  valid_runes t ->
  Strings.TrimRightSpace (string_of_runes t)
  = string_of_runes (Pipeline.drop_trailing Unicode.IsSpace t).
Proof.
  intros Hv. unfold Strings.TrimRightSpace, Pipeline.drop_trailing.
  rewrite <- (rev_involutive t) at 1.
  rewrite (trim_right_reversed (rev t) (valid_runes_rev t Hv)).
  apply string_rev_involutive.
Qed.

Lemma TrimSpace_runes (t : list N) :
  valid_runes t ->
  Strings.TrimSpace (string_of_runes t) = string_of_runes (Pipeline.trim t).
Proof.
  intros Hv. unfold Strings.TrimSpace, Pipeline.trim.
  rewrite (TrimLeftSpace_runes t Hv).
  apply TrimRightSpace_runes, valid_drop_leading, Hv.
Qed.

Lemma runes_skip (a s : string) :
  Utf8.runes_from (String.length a) (String.append a s) = Utf8.runes_from 0 s.
Proof. induction a as [|c a IH]; norm_append; [reflexivity|exact IH]. Qed.

Lemma runes_of_text (t : list N) :
  valid_runes t -> Utf8.runes (string_of_runes t) = t.
Proof.
  unfold Utf8.runes. induction 1 as [|c rest Hc Hrest IH]; [reflexivity|].
  cbn [string_of_runes].
  pose proof (encoded_decodes c Hc (string_of_runes rest)) as Hdec.
  destruct (encoded_cons c Hc) as (a & e & He). rewrite He in *. norm_append.
  cbn [Utf8.runes_from]. rewrite Hdec. cbn [String.length].
  replace (S (String.length e) - 1)%nat with (String.length e) by lia.
  rewrite runes_skip, IH. reflexivity.
Qed.

Lemma write_runes_strips (t : list N) :
  Hash.write_runes t = string_of_runes (Pipeline.strip_controls t).
Proof.
  induction t as [|c rest IH]; [reflexivity|].
  cbn [Hash.write_runes Pipeline.strip_controls List.filter].
  fold (Pipeline.strip_controls rest).
  unfold Pipeline.stays, Pipeline.TAB, Pipeline.LF, Pipeline.CR.
  destruct (Unicode.IsControl c), (c =? 9), (c =? 10), (c =? 13);
    cbn [negb andb orb string_of_runes]; rewrite IH; reflexivity.
Qed.

Lemma normalizeUnicode_runes (t : list N) :
  valid_runes t ->
  Hash.normalizeUnicode (string_of_runes t) = string_of_runes (Pipeline.strip_controls t).
Proof.
  intros Hv. unfold Hash.normalizeUnicode. rewrite (runes_of_text t Hv).
  apply write_runes_strips.
Qed.

Lemma valid_strip_controls (t : list N) :
  valid_runes t -> valid_runes (Pipeline.strip_controls t).
Proof.
  induction 1 as [|c rest Hc Hrest IH]; simpl; [constructor|].
  destruct (Pipeline.stays c); [constructor; assumption|exact IH].
Qed.

Lemma crlf_to_lf_other (c : N) (rest : list N) :
  (c =? Pipeline.CR) = false ->
  Pipeline.crlf_to_lf (c :: rest) = c :: Pipeline.crlf_to_lf rest.
Proof. intros H. simpl. rewrite H. destruct rest; reflexivity. Qed.

Lemma crlf_to_lf_cr (d : N) (rest : list N) :
  (d =? Pipeline.LF) = false ->
  Pipeline.crlf_to_lf (Pipeline.CR :: d :: rest)
  = Pipeline.CR :: Pipeline.crlf_to_lf (d :: rest).
Proof. intros H. cbn [Pipeline.crlf_to_lf]. rewrite H, andb_false_r. reflexivity. Qed.

(** Bytes that cannot start [old] are copied by [ReplaceAll]. *)
Lemma replace_copies (x : ascii) (old' new a s : string) :
  has_byte x a = false ->
  Strings.replace_from (String x old') new 0 (String.append a s)
  = String.append a (Strings.replace_from (String x old') new 0 s).
Proof.
  induction a as [|c a IH]; intros H; norm_append; [reflexivity|].
  simpl in H. apply orb_false_iff in H. destruct H as [Hc Ha].
  cbn [Strings.replace_from Strings.HasPrefix]. rewrite Hc, (IH Ha). reflexivity.
Qed.

Lemma HasPrefix_empty (s : string) : Strings.HasPrefix s EmptyString = true.
Proof. destruct s; reflexivity. Qed.

Lemma first_byte_absent (x a : ascii) (e : string) :
  has_byte x (String a e) = false -> Ascii.eqb x a = false.
Proof. simpl. intros H. apply orb_false_iff in H. tauto. Qed.

Lemma encoded_CR : Utf8.EncodeRune Pipeline.CR = Hash.CR.
Proof. reflexivity. Qed.

Lemma encoded_LF : Utf8.EncodeRune Pipeline.LF = Hash.LF.
Proof. reflexivity. Qed.

Lemma replace_crlf_runes (n : nat) (t : list N) :
  (length t <= n)%nat -> valid_runes t ->
  Strings.replace_from Hash.CRLF Hash.LF 0 (string_of_runes t)
  = string_of_runes (Pipeline.crlf_to_lf t).
Proof.
  unfold Hash.CRLF, Hash.LF.
  revert t. induction n as [|n IH]; intros [|c rest] Hlen Hv; try reflexivity;
    [simpl in Hlen; lia|].
  simpl in Hlen. inversion Hv as [|? ? Hc Hrest]; subst.
  destruct (c =? Pipeline.CR) eqn:Ecr.
  - apply N.eqb_eq in Ecr. subst c.
    destruct rest as [|d rest']; [reflexivity|].
    inversion Hrest as [|? ? Hd Hrest']; subst.
    destruct (d =? Pipeline.LF) eqn:Elf.
    + apply N.eqb_eq in Elf. subst d.
      change (Pipeline.crlf_to_lf (Pipeline.CR :: Pipeline.LF :: rest'))
        with (Pipeline.LF :: Pipeline.crlf_to_lf rest').
      cbn [string_of_runes].
      rewrite <- (IH rest') by (simpl in Hlen; lia || assumption).
      rewrite encoded_LF, encoded_CR. unfold Hash.LF, Hash.CR. norm_append.
      cbn [Strings.replace_from Strings.HasPrefix String.length].
      rewrite !Ascii.eqb_refl, HasPrefix_empty. cbn [Nat.sub Strings.replace_from].
      norm_append. reflexivity.
    + rewrite (crlf_to_lf_cr d rest' Elf).
      cbn [string_of_runes].
      rewrite <- (IH (d :: rest')) by (simpl in *; lia || assumption).
      cbn [string_of_runes]. rewrite encoded_CR. unfold Hash.CR. norm_append.
      pose proof (encoded_line_feed d Hd) as Hb.
      unfold Pipeline.LF in Elf. rewrite Elf in Hb.
      destruct (encoded_cons d Hd) as (a & e & He). rewrite He in *. norm_append.
      cbn [Strings.replace_from Strings.HasPrefix].
      rewrite Ascii.eqb_refl, (first_byte_absent _ _ _ Hb). reflexivity.
  - rewrite (crlf_to_lf_other c rest Ecr). cbn [string_of_runes].
    pose proof (encoded_carriage_return c Hc) as Hb.
    unfold Pipeline.CR in Ecr. rewrite Ecr in Hb.
    rewrite (replace_copies _ _ _ _ _ Hb).
    rewrite (IH rest) by (lia || assumption). reflexivity.
Qed.

Lemma valid_LF : Utf8.ValidRune Pipeline.LF = true.
Proof. reflexivity. Qed.

Lemma valid_crlf_to_lf (n : nat) (t : list N) :
  (length t <= n)%nat -> valid_runes t -> valid_runes (Pipeline.crlf_to_lf t).
Proof.
  revert t. induction n as [|n IH]; intros [|c rest] Hlen Hv; try constructor;
    [simpl in Hlen; lia|].
  simpl in Hlen. inversion Hv as [|? ? Hc Hrest]; subst.
  destruct rest as [|d rest']; [exact Hv|].
  inversion Hrest as [|? ? Hd Hrest']; subst.
  change (Pipeline.crlf_to_lf (c :: d :: rest'))
    with (if (c =? Pipeline.CR) && (d =? Pipeline.LF)
          then Pipeline.LF :: Pipeline.crlf_to_lf rest'
          else c :: Pipeline.crlf_to_lf (d :: rest')).
  destruct ((c =? Pipeline.CR) && (d =? Pipeline.LF)).
  - constructor; [exact valid_LF|]. apply IH; [simpl in Hlen; lia|exact Hrest'].
  - constructor; [exact Hc|]. apply IH; [lia|exact Hrest].
Qed.

Lemma replace_cr_runes (t : list N) :
  valid_runes t ->
  Strings.replace_from Hash.CR Hash.LF 0 (string_of_runes t)
  = string_of_runes (Pipeline.cr_to_lf t).
Proof.
  unfold Hash.CR, Hash.LF.
  induction 1 as [|c rest Hc Hrest IH]; [reflexivity|].
  cbn [string_of_runes Pipeline.cr_to_lf map]. fold (Pipeline.cr_to_lf rest).
  destruct (c =? Pipeline.CR) eqn:Ecr.
  - apply N.eqb_eq in Ecr. subst c. rewrite encoded_CR, encoded_LF.
    unfold Hash.CR, Hash.LF. norm_append.
    cbn [Strings.replace_from Strings.HasPrefix String.length].
    rewrite Ascii.eqb_refl, HasPrefix_empty. cbn [Nat.sub].
    rewrite IH. norm_append. reflexivity.
  - pose proof (encoded_carriage_return c Hc) as Hb.
    unfold Pipeline.CR in Ecr. rewrite Ecr in Hb.
    rewrite (replace_copies _ _ _ _ _ Hb), IH. reflexivity.
Qed.

Lemma valid_cr_to_lf (t : list N) :
  valid_runes t -> valid_runes (Pipeline.cr_to_lf t).
Proof.
  induction 1 as [|c rest Hc Hrest IH]; simpl; constructor; [|exact IH].
  destruct (c =? Pipeline.CR); [exact valid_LF|exact Hc].
Qed.

Lemma canonical_line_endings_runes (t : list N) :
  valid_runes t ->
  Strings.ReplaceAll (Strings.ReplaceAll (string_of_runes t) Hash.CRLF Hash.LF)
                     Hash.CR Hash.LF
  = string_of_runes (Pipeline.canonical_line_endings t)
  /\ valid_runes (Pipeline.canonical_line_endings t).
Proof.
  intros Hv. unfold Strings.ReplaceAll, Pipeline.canonical_line_endings.
  pose proof (valid_crlf_to_lf (length t) t (Nat.le_refl _) Hv) as Hv'.
  rewrite (replace_crlf_runes (length t) t (Nat.le_refl _) Hv).
  split; [apply replace_cr_runes, Hv'|apply valid_cr_to_lf, Hv'].
Qed.

(** Bytes that cannot start [sep] go to the current piece of [Split]. *)
Lemma split_copies (x : ascii) (sep' cur a s : string) :
  has_byte x a = false ->
  Strings.split_from (String x sep') 0 cur (String.append a s)
  = Strings.split_from (String x sep') 0 (string_rev_onto cur a) s.
Proof.
  revert cur. induction a as [|c a IH]; intros cur H; norm_append; [reflexivity|].
  simpl in H. apply orb_false_iff in H. destruct H as [Hc Ha].
  cbn [Strings.split_from Strings.HasPrefix string_rev_onto].
  rewrite Hc. apply IH, Ha.
Qed.

Lemma lines_nonempty (t : list N) : Pipeline.lines t <> [].
Proof.
  induction t as [|c rest IH]; simpl; [discriminate|].
  destruct (c =? Pipeline.LF); [discriminate|].
  destruct (Pipeline.lines rest); [contradiction|discriminate].
Qed.

Lemma split_lines_runes (t : list N) (cur : string) :
  valid_runes t ->
  exists line others,
    Pipeline.lines t = line :: others
    /\ Strings.split_from Hash.LF 0 cur (string_of_runes t)
       = String.append (string_rev cur) (string_of_runes line)
         :: map string_of_runes others.
Proof.
  unfold Hash.LF. intros Hv. revert cur.
  induction Hv as [|c rest Hc Hrest IH]; intros cur.
  - exists [], []. split; [reflexivity|]. simpl. rewrite append_nil_r. reflexivity.
  - cbn [Pipeline.lines string_of_runes]. destruct (c =? Pipeline.LF) eqn:Elf.
    + apply N.eqb_eq in Elf. subst c.
      destruct (IH EmptyString) as (line & others & Hl & Hs).
      exists [], (line :: others). rewrite Hl. split; [reflexivity|].
      rewrite encoded_LF. unfold Hash.LF. norm_append.
      cbn [Strings.split_from Strings.HasPrefix String.length].
      rewrite Ascii.eqb_refl, HasPrefix_empty. cbn [Nat.sub]. rewrite Hs.
      cbn [string_of_runes map]. rewrite append_nil_r. reflexivity.
    + pose proof (encoded_line_feed c Hc) as Hb.
      unfold Pipeline.LF in Elf. rewrite Elf in Hb.
      rewrite (split_copies _ _ _ _ _ Hb).
      destruct (IH (string_rev_onto cur (Utf8.EncodeRune c)))
        as (line & others & Hl & Hs).
      exists (c :: line), others. rewrite Hl. split; [reflexivity|].
      rewrite Hs. cbn [string_of_runes].
      rewrite string_rev_onto_spec, string_rev_app, string_rev_involutive, append_assoc.
      reflexivity.
Qed.

Lemma Split_runes (t : list N) :
  valid_runes t ->
  Strings.Split (string_of_runes t) Hash.LF = map string_of_runes (Pipeline.lines t).
Proof.
  intros Hv. unfold Strings.Split.
  destruct (split_lines_runes t EmptyString Hv) as (line & others & -> & ->).
  reflexivity.
Qed.

Lemma valid_lines (t : list N) :
  valid_runes t -> Forall valid_runes (Pipeline.lines t).
Proof.
  induction 1 as [|c rest Hc Hrest IH]; simpl.
  - repeat constructor.
  - destruct (c =? Pipeline.LF); [constructor; [constructor|exact IH]|].
    destruct (Pipeline.lines rest) as [|line others]; [repeat constructor; exact Hc|].
    inversion IH as [|? ? Hline Hothers]; subst.
    constructor; [constructor; assumption|exact Hothers].
Qed.

Lemma keep_lines_runes (ls : list (list N)) :
  Forall valid_runes ls ->
  Hash.keep_lines (map string_of_runes ls)
  = map string_of_runes (Pipeline.surviving_lines ls).
Proof.
  unfold Pipeline.surviving_lines.
  induction 1 as [|line rest Hline Hrest IH]; [reflexivity|].
  cbn [map Hash.keep_lines List.filter]. rewrite (TrimSpace_runes line Hline), IH.
  destruct (Pipeline.trim line) as [|c kept] eqn:Et; [reflexivity|].
  cbn [Pipeline.nonempty map].
  replace (String.eqb (string_of_runes (c :: kept)) EmptyString) with false;
    [reflexivity|].
  symmetry. apply String.eqb_neq. intros Hempty.
  pose proof (valid_trim line Hline) as Hv. rewrite Et in Hv.
  discriminate (string_of_runes_nil _ Hv Hempty).
Qed.

Lemma Join_runes (ls : list (list N)) :
  Strings.Join (map string_of_runes ls) " " = string_of_runes (Pipeline.rejoin ls).
Proof.
  induction ls as [|line [|next rest] IH]; [reflexivity|reflexivity|].
  change (Pipeline.rejoin (line :: next :: rest))
    with (line ++ Pipeline.SPACE :: Pipeline.rejoin (next :: rest)).
  rewrite string_of_runes_app. cbn [string_of_runes]. rewrite <- IH. reflexivity.
Qed.

Lemma normalizeWhitespace_runes (t : list N) :
  valid_runes t ->
  Hash.normalizeWhitespace (string_of_runes t)
  = string_of_runes
      (Pipeline.rejoin
         (Pipeline.surviving_lines
            (Pipeline.lines (Pipeline.canonical_line_endings t)))).
Proof.
  intros Hv. unfold Hash.normalizeWhitespace.
  destruct (canonical_line_endings_runes t Hv) as [-> Hv'].
  rewrite (Split_runes _ Hv'), (keep_lines_runes _ (valid_lines _ Hv')).
  apply Join_runes.
Qed.

Lemma string_take_all (n : nat) (s : string) :
  (String.length s <= n)%nat -> string_take n s = s.
Proof.
  revert n. induction s as [|c s IH]; intros [|n] H; simpl in *;
    try reflexivity; [lia|].
  rewrite IH by lia. reflexivity.
Qed.

(** The code's normal form of a text is the first 10,000 bytes of the
    encoding of what steps 1 to 3 of the pipeline leave. *)
Lemma normalizeInput_refines (t : list N) :
  valid_runes t ->
  Hash.normalizeInput (string_of_runes t)
  = string_take Pipeline.limit (string_of_runes (Pipeline.normal t)).
Proof.
  intros Hv. unfold Hash.normalizeInput, Pipeline.normal, Pipeline.limit.
  rewrite (TrimSpace_runes t Hv).
  rewrite (normalizeUnicode_runes _ (valid_trim t Hv)).
  rewrite (normalizeWhitespace_runes _ (valid_strip_controls _ (valid_trim t Hv))).
  destruct (10000 <? N.of_nat (String.length _)) eqn:E; [reflexivity|].
  symmetry. apply string_take_all. apply N.ltb_ge in E. lia.
Qed.

Lemma string_take_append (m : nat) (a s : string) :
  string_take m (String.append a s)
  = if (m <=? String.length a)%nat then string_take m a
    else String.append a (string_take (m - String.length a) s).
Proof.
  revert m. induction a as [|c a IH]; intros [|m]; norm_append; simpl;
    try reflexivity.
  - rewrite IH. destruct (m <=? String.length a)%nat; reflexivity.
Qed.

(** Cutting the characters first does not change the bytes that are kept:
    a character takes at least one byte. *)
Lemma take_bytes_of_take (t : list N) (m n : nat) :
  valid_runes t -> (m <= n)%nat ->
  string_take m (string_of_runes (take n t)) = string_take m (string_of_runes t).
Proof.
  intros Hv. revert m n. induction Hv as [|c rest Hc Hrest IH]; intros m n Hmn.
  - destruct n; reflexivity.
  - destruct n as [|n]; [replace m with 0%nat by lia; reflexivity|].
    cbn [take string_of_runes]. rewrite !string_take_append.
    destruct (m <=? String.length (Utf8.EncodeRune c))%nat eqn:E; [reflexivity|].
    apply Nat.leb_gt in E. pose proof (encoded_nonempty c Hc).
    rewrite (IH _ n) by lia. reflexivity.
Qed.

Lemma valid_surviving_lines (ls : list (list N)) :
  Forall valid_runes ls -> Forall valid_runes (Pipeline.surviving_lines ls).
Proof.
  unfold Pipeline.surviving_lines.
  induction 1 as [|line rest Hline Hrest IH]; simpl; [constructor|].
  destruct (Pipeline.nonempty (Pipeline.trim line)); [|exact IH].
  constructor; [apply valid_trim, Hline|exact IH].
Qed.

Lemma valid_rejoin (ls : list (list N)) :
  Forall valid_runes ls -> valid_runes (Pipeline.rejoin ls).
Proof.
  induction 1 as [|line rest Hline Hrest IH]; [constructor|].
  destruct rest as [|next rest]; [exact Hline|].
  change (Pipeline.rejoin (line :: next :: rest))
    with (line ++ Pipeline.SPACE :: Pipeline.rejoin (next :: rest)).
  apply Forall_app. split; [exact Hline|]. constructor; [reflexivity|exact IH].
Qed.

Lemma valid_normal (t : list N) : valid_runes t -> valid_runes (Pipeline.normal t).
Proof.
  intros Hv. unfold Pipeline.normal.
  apply valid_rejoin, valid_surviving_lines, valid_lines.
  apply canonical_line_endings_runes, valid_strip_controls, valid_trim, Hv.
Qed.


(** *** The claim *)

Lemma valid_runes_checked (t : list N) :
  forallb Utf8.ValidRune t = true -> valid_runes t.
Proof.
  induction t as [|c rest IH]; simpl; [constructor|].
  intros H. apply andb_true_iff in H. destruct H as [Hc Hrest].
  constructor; [exact Hc|exact (IH Hrest)].
Qed.

Lemma cut_characters_then_bytes (t1 t2 : list N) :
  valid_runes t1 -> valid_runes t2 ->
  Pipeline.run t1 = Pipeline.run t2 ->
  Pipeline.run_bytes t1 = Pipeline.run_bytes t2.
Proof.
  intros H1 H2 Hrun. unfold Pipeline.run_bytes. unfold Pipeline.run in Hrun.
  rewrite <- (take_bytes_of_take _ Pipeline.limit Pipeline.limit (valid_normal t1 H1)
                (Nat.le_refl _)).
  rewrite <- (take_bytes_of_take _ Pipeline.limit Pipeline.limit (valid_normal t2 H2)
                (Nat.le_refl _)).
  rewrite Hrun. reflexivity.
Qed.

(** C5. The fingerprint is a function of the text and the model, 64
    hexadecimal characters long.  Take two texts, each the sequence of its
    characters, which the program receives in UTF-8.  When the normalization
    pipeline of the specification takes them to the same result (outer
    white space trimmed, control characters other than tab, newline and
    carriage return stripped, line endings made canonical, every line
    trimmed, empty lines dropped, the rest joined by single spaces, the
    result cut at 10,000, counted in characters or in bytes), they have the
    same fingerprint under every model; so have [" a \n b "] and ["a b"]. *)
Theorem fingerprint_stable (t1 t2 : list N) (t m : string) :
  forallb Utf8.ValidRune t1 = true -> forallb Utf8.ValidRune t2 = true ->
  Pipeline.run t1 = Pipeline.run t2 \/ Pipeline.run_bytes t1 = Pipeline.run_bytes t2 ->
  String.length (Hash.GenerateInputHash t m) = 64%nat
  /\ Hex.all_hex (Hash.GenerateInputHash t m) = true
  /\ Hash.GenerateInputHash (string_of_runes t1) m
     = Hash.GenerateInputHash (string_of_runes t2) m
  /\ Hash.GenerateInputHash Scenario.padded_text m = Hash.GenerateInputHash "a b" m.
Proof.
  intros H1 H2 Hrun. apply valid_runes_checked in H1, H2.
  split; [apply fingerprint_length|]. split; [apply hex_all_hex|].
  unfold Hash.GenerateInputHash, Hash.hashData. split.
  - assert (Hbytes : Pipeline.run_bytes t1 = Pipeline.run_bytes t2).
    { destruct Hrun as [Hrun|Hrun]; [|exact Hrun].
      apply cut_characters_then_bytes; assumption. }
    rewrite (normalizeInput_refines t1 H1), (normalizeInput_refines t2 H2).
    unfold Pipeline.run_bytes in Hbytes. rewrite Hbytes. reflexivity.
  - rewrite padded_text_normal, plain_text_normal. reflexivity.
Qed.

Lemma fingerprint_stable_witness :
  Hash.GenerateInputHash
    (string_of_runes [0x20; 0x78; 0x07; 0x0D; 0x0A; 0x0D; 0xA0; 0x79; 0x09]) "m"
  = Hash.GenerateInputHash (string_of_runes [0x78; 0x20; 0x79]) "m".
Proof.
  apply (fingerprint_stable [0x20; 0x78; 0x07; 0x0D; 0x0A; 0x0D; 0xA0; 0x79; 0x09]
                            [0x78; 0x20; 0x79] EmptyString "m").
  - reflexivity.
  - reflexivity.
  - left. vm_compute. reflexivity.
Defined.


(** ** Provider client *)
Section ProviderFacts.
Local Open Scope nat_scope.

Lemma attempts_sent_repeat (c : Openai.Client) (inputs : list string) (fuel attempt : nat)
    (lastErr : option error) (sn : Openai.Sent) :
  exists k, k <= fuel
            /\ snd (Openai.attempts c inputs fuel attempt lastErr sn) = sn ++ repeat inputs k.
Proof.
  revert attempt lastErr sn. induction fuel as [|fuel IH]; intros attempt lastErr sn; simpl.
  - exists 0. rewrite app_nil_r. split; [lia|reflexivity].
  - destruct (if (0 <? attempt) then _ else None) as [ctxErr|].
    { exists 0. rewrite app_nil_r. split; [lia|reflexivity]. }
    assert (Hrec : forall a e, exists k, k <= S fuel /\
               snd (Openai.attempts c inputs fuel a e (sn ++ [inputs]))
               = sn ++ repeat inputs k).
    { intros a e. destruct (IH a e (sn ++ [inputs])) as (k & Hk & ->).
      exists (S k). rewrite <- app_assoc. split; [lia|reflexivity]. }
    destruct (Openai.respond _ _ _) as [response|err]; [|apply Hrec].
    destruct (length (Openai.Data response) =? 0); [apply Hrec|].
    destruct (Openai.copy_vectors 0 (Openai.Data response) lastErr) as [out [e|]];
      [apply Hrec|].
    exists 1. split; [lia|reflexivity].
Qed.

(** X6. A call sends nothing but the given texts, at most
    [max_retries + 1] times, and not at all when the collection is empty
    or holds more than 1000 texts. *)
Theorem requests_bounded (c : Openai.Client) (inputs : list string) (sn : Openai.Sent) :
  exists k,
    snd (Openai.CreateBatchEmbeddings c inputs sn) = sn ++ repeat inputs k
    /\ k <= (if (length inputs =? 0) || (1000 <? N.of_nat (length inputs))%N
             then 0 else Z.to_nat (Openai.maxRetries c + 1)).
Proof.
  unfold Openai.CreateBatchEmbeddings.
  destruct (length inputs =? 0).
  - exists 0. rewrite app_nil_r. split; [reflexivity|simpl; lia].
  - destruct (1000 <? N.of_nat (length inputs))%N.
    + exists 0. rewrite app_nil_r. split; [reflexivity|simpl; lia].
    + destruct (attempts_sent_repeat c inputs (Z.to_nat (Openai.maxRetries c + 1)) 0
                  None sn) as (k & Hk & Hs).
      exists k. split; [exact Hs|exact Hk].
Qed.

Lemma attempts_fail_exact (c : Openai.Client) (inputs : list string) (errs : nat -> error)
    (fuel attempt : nat) (lastErr : option error) (sn : Openai.Sent) :
  (forall n, Openai.ctx_done (Openai.provider c) n = None) ->
  (forall n, Openai.respond (Openai.provider c) n inputs = inr (errs n)) ->
  Openai.attempts c inputs fuel attempt lastErr sn
  = (inr (wrap_nilable "failed to create batch embeddings after %d attempts: %w"
                       [(Openai.maxRetries c + 1)%Z]
                       (match fuel with
                        | O => lastErr
                        | S f => Some (errs (length sn + f))
                        end)),
     sn ++ repeat inputs fuel).
Proof.
  intros Hctx Hfail. revert attempt lastErr sn.
  induction fuel as [|fuel IH]; intros attempt lastErr sn.
  - simpl. rewrite app_nil_r. reflexivity.
  - cbn [Openai.attempts]. rewrite Hctx, Hfail.
    replace (if 0 <? attempt then None else None) with (@None error)
      by (destruct (0 <? attempt); reflexivity).
    rewrite IH. rewrite length_app. cbn [length repeat].
    rewrite <- app_assoc. cbn [app]. f_equal. f_equal. f_equal.
    destruct fuel as [|f]; f_equal; f_equal; lia.
Qed.

(** X7. When the provider fails every request and the context stays
    alive, a call with 1 to 1000 texts makes exactly [max_retries + 1]
    requests and returns the error of the last one, wrapped with that
    count. *)
Theorem retry_ceiling (c : Openai.Client) (inputs : list string) (errs : nat -> error)
    (sn : Openai.Sent) :
  inputs <> [] -> (N.of_nat (length inputs) <= 1000)%N ->
  (0 <= Openai.maxRetries c)%Z ->
  (forall n, Openai.ctx_done (Openai.provider c) n = None) ->
  (forall n, Openai.respond (Openai.provider c) n inputs = inr (errs n)) ->
  Openai.CreateBatchEmbeddings c inputs sn
  = (inr (Wrapf "failed to create batch embeddings after %d attempts: %w"
                [(Openai.maxRetries c + 1)%Z]
                (errs (length sn + Z.to_nat (Openai.maxRetries c)))),
     sn ++ repeat inputs (Z.to_nat (Openai.maxRetries c + 1))).
Proof.
  intros Hne Hlen Hretry Hctx Hfail. unfold Openai.CreateBatchEmbeddings.
  destruct inputs as [|x rest]; [congruence|]. cbn [length Nat.eqb].
  replace (1000 <? N.of_nat (S (length rest)))%N with false
    by (symmetry; apply N.ltb_ge; exact Hlen).
  rewrite (attempts_fail_exact c (x :: rest) errs _ 0 None sn Hctx Hfail).
  replace (Z.to_nat (Openai.maxRetries c + 1)) with (S (Z.to_nat (Openai.maxRetries c)))
    by lia.
  reflexivity.
Qed.

Lemma retry_ceiling_witness :
  Openai.CreateBatchEmbeddings
    (Openai.mkClient (Ledger.failing (fun n => External "503")) "m" 3) ["a"; "b"] []
  = (inr (Wrapf "failed to create batch embeddings after %d attempts: %w" [4%Z]
                (External "503")),
     [["a"; "b"]; ["a"; "b"]; ["a"; "b"]; ["a"; "b"]]).
Proof.
  apply (retry_ceiling (Openai.mkClient (Ledger.failing (fun n => External "503")) "m" 3)
                       ["a"; "b"] (fun n => External "503") []).
  - discriminate.
  - vm_compute. discriminate.
  - vm_compute. discriminate.
  - reflexivity.
  - reflexivity.
Defined.

Lemma copy_vectors_clean (i : nat) (data out : list (list float64)) :
  Openai.copy_vectors i data None = (out, None) ->
  out = data /\ Forall (fun v => v <> []) data.
Proof.
  revert i out. induction data as [|v rest IH]; intros i out; simpl.
  - intros [= <-]. split; [reflexivity|constructor].
  - destruct (length v =? 0) eqn:E.
    + destruct (copy_vectors_keeps_error (S i) rest
                  (Errorf "empty embedding vector returned from OpenAI at index %d"
                          [Z.of_nat i])) as [e' He'].
      destruct (Openai.copy_vectors (S i) rest _) as [o1 o2]. simpl in He'. subst o2.
      discriminate.
    + destruct (Openai.copy_vectors (S i) rest None) as [o1 o2] eqn:Ec.
      intros [= <- ->]. destruct (IH (S i) o1 Ec) as [-> Hall].
      split; [reflexivity|]. constructor; [|exact Hall].
      intros ->. discriminate E.
Qed.

Lemma first_request_answers (c : Openai.Client) (inputs : list string)
    (sn sn' : Openai.Sent) (r : Openai.EmbeddingResponse) :
  Openai.CreateBatchEmbeddings c inputs sn = (inl r, sn') ->
  sn' = sn ++ [inputs]
  /\ exists response,
       Openai.respond (Openai.provider c) (length sn) inputs = inl response
       /\ Openai.Embeddings r = Openai.Data response
       /\ Openai.Data response <> []
       /\ Forall (fun v => v <> []) (Openai.Embeddings r)
       /\ Openai.Model r = Openai.ApiModel response
       /\ Openai.Usage r
          = (if (0 <? Openai.PromptTokens (Openai.ApiUsage response))%Z
             then Openai.ApiUsage response else Openai.no_usage).
Proof.
  unfold Openai.CreateBatchEmbeddings.
  destruct (length inputs =? 0); [discriminate|].
  destruct (1000 <? N.of_nat (length inputs))%N; [discriminate|].
  destruct (Z.to_nat (Openai.maxRetries c + 1)) as [|fuel]; [discriminate|].
  cbn [Openai.attempts Nat.ltb Nat.leb].
  assert (Hno : forall a e s x, Openai.attempts c inputs fuel a (Some e) s <> (inl r, x)).
  { intros a e s x H. destruct (attempts_never_recover c inputs fuel a e s) as [err He].
    rewrite H in He. discriminate He. }
  destruct (Openai.respond _ _ _) as [response|err] eqn:Er;
    [|intros H; exfalso; exact (Hno _ _ _ _ H)].
  destruct (length (Openai.Data response) =? 0) eqn:El;
    [intros H; exfalso; exact (Hno _ _ _ _ H)|].
  destruct (Openai.copy_vectors 0 (Openai.Data response) None) as [out [e|]] eqn:Ec;
    [intros H; exfalso; exact (Hno _ _ _ _ H)|].
  intros [= <- <-]. destruct (copy_vectors_clean _ _ _ Ec) as [-> Hall].
  split; [reflexivity|]. exists response. simpl.
  repeat split; try assumption; try reflexivity.
  intros Hnil. rewrite Hnil in El. discriminate El.
Qed.


(** X8. A call returns a response only from its first request: one request
    has been sent, the provider answered it with a non-empty list of
    non-empty vectors, and the response carries these vectors, the
    provider's model, and the provider's usage when it counts prompt
    tokens. *)
Theorem response_comes_from_first_request (c : Openai.Client) (inputs : list string)
    (sn sn' : Openai.Sent) (r : Openai.EmbeddingResponse) :
  Openai.CreateBatchEmbeddings c inputs sn = (inl r, sn') ->
  sn' = sn ++ [inputs]
  /\ exists response,
       Openai.respond (Openai.provider c) (length sn) inputs = inl response
       /\ Openai.Embeddings r = Openai.Data response
       /\ Openai.Data response <> []
       /\ Forall (fun v => v <> []) (Openai.Embeddings r)
       /\ Openai.Model r = Openai.ApiModel response
       /\ Openai.Usage r
          = (if (0 <? Openai.PromptTokens (Openai.ApiUsage response))%Z
             then Openai.ApiUsage response else Openai.no_usage).
Proof. apply first_request_answers. Qed.

Lemma response_comes_from_first_request_witness :
  exists r sn',
    Openai.CreateBatchEmbeddings (Openai.mkClient Scenario.steady "m" 3) ["a"] []
    = (inl r, sn')
    /\ sn' = [["a"]].
Proof.
  destruct (Openai.CreateBatchEmbeddings (Openai.mkClient Scenario.steady "m" 3) ["a"] [])
    as [[r|err] sn'] eqn:Hcall; [|vm_compute in Hcall; discriminate Hcall].
  exists r, sn'. split; [reflexivity|].
  exact (proj1 (response_comes_from_first_request _ _ _ _ _ Hcall)).
Defined.

(** X9. [CreateEmbedding] refuses the empty text without any request; when
    it returns a response, it has sent the one text once and returns the
    first vector of the provider's answer, which is not empty. *)
Theorem single_embedding_delegates (c : Openai.Client) (input : string)
    (sn sn' : Openai.Sent) (r : Openai.EmbeddingResponse) :
  Openai.CreateEmbedding c EmptyString sn
  = (inr (Errorf "input text cannot be empty" []), sn)
  /\ (Openai.CreateEmbedding c input sn = (inl r, sn') ->
      input <> EmptyString
      /\ sn' = sn ++ [[input]]
      /\ Openai.Embedding r <> []
      /\ exists response,
           Openai.respond (Openai.provider c) (length sn) [input] = inl response
           /\ hd_error (Openai.Data response) = Some (Openai.Embedding r)).
Proof.
  split; [reflexivity|].
  unfold Openai.CreateEmbedding.
  destruct (String.eqb input EmptyString) eqn:E; [discriminate|].
  apply String.eqb_neq in E.
  destruct (Openai.CreateBatchEmbeddings c [input] sn) as [[responses|err] s1] eqn:Hcall;
    [|discriminate].
  destruct (first_request_answers c [input] sn s1 responses Hcall)
    as (-> & response & Hr & Hemb & Hne & Hall & _).
  destruct (Openai.Embeddings responses) as [|e0 rest] eqn:Ee; [discriminate|].
  intros [= <- <-]. simpl. split; [exact E|]. split; [reflexivity|].
  split; [inversion Hall; assumption|].
  exists response. split; [exact Hr|]. rewrite <- Hemb. reflexivity.
Qed.

Lemma single_embedding_delegates_witness :
  exists r,
    Openai.CreateEmbedding (Openai.mkClient Scenario.steady "m" 3) "a" []
    = (inl r, [["a"]])
    /\ Openai.Embedding r <> [].
Proof.
  destruct (Openai.CreateEmbedding (Openai.mkClient Scenario.steady "m" 3) "a" [])
    as [[r|err] sn'] eqn:Hcall; [|vm_compute in Hcall; discriminate Hcall].
  destruct (single_embedding_delegates (Openai.mkClient Scenario.steady "m" 3)
              "a" [] sn' r) as [_ Himp].
  destruct (Himp Hcall) as (_ & -> & Hne & _).
  exists r. split; [reflexivity|exact Hne].
Defined.

End ProviderFacts.

(** ** Cache store *)
Section StoreFacts.
Import Database.
Local Open Scope nat_scope.

(** The three ways out of [GetCachedEmbedding]. *)
Lemma GetCachedEmbedding_hit (b : Backend) (h : string) (s : Store)
    (e : CachedEmbedding) :
  fault b (ops s) = None ->
  List.find (hash_eqb h) (rows s) = Some e ->
  GetCachedEmbedding b h s = (inl (Some e), mkStore (rows s) (S (ops s))).
Proof.
  intros Hf Hfind. unfold GetCachedEmbedding, QueryRow_Scan.
  rewrite Hf, Hfind. reflexivity.
Qed.

Lemma GetCachedEmbedding_no_row (b : Backend) (h : string) (s : Store) :
  fault b (ops s) = None ->
  List.find (hash_eqb h) (rows s) = None ->
  GetCachedEmbedding b h s
  = (inr (Wrapf "failed to query cached embedding: %w" [] Pgx.ErrNoRows),
     mkStore (rows s) (S (ops s))).
Proof.
  intros Hf Hfind. unfold GetCachedEmbedding, QueryRow_Scan.
  rewrite Hf, Hfind. reflexivity.
Qed.

Lemma GetCachedEmbedding_store (b : Backend) (h : string) (s : Store) :
  snd (GetCachedEmbedding b h s) = mkStore (rows s) (S (ops s)).
Proof.
  unfold GetCachedEmbedding.
  destruct (QueryRow_Scan b h s) as [e|err]; [reflexivity|].
  destruct (error_eqb err Sql.ErrNoRows); reflexivity.
Qed.

Lemma GetCachedEmbedding_found (b : Backend) (h : string) (s : Store)
    (e : CachedEmbedding) :
  fst (GetCachedEmbedding b h s) = inl (Some e) ->
  List.find (hash_eqb h) (rows s) = Some e.
Proof.
  unfold GetCachedEmbedding, QueryRow_Scan.
  destruct (fault b (ops s)) as [err|].
  - destruct (error_eqb err Sql.ErrNoRows); discriminate.
  - destruct (List.find (hash_eqb h) (rows s)) as [r|]; simpl.
    + intros H. congruence.
    + discriminate.
Qed.

Lemma error_eqb_eq (a b : error) : error_eqb a b = true -> a = b.
Proof.
  revert b. induction a as [x|f xs|f xs e IH]; intros [y|g ys|g ys e']; simpl;
    try discriminate.
  - intros H. apply String.eqb_eq in H. congruence.
  - intros H. apply andb_true_iff in H. destruct H as [H1 H2].
    apply String.eqb_eq in H1. apply bool_decide_eq_true in H2. congruence.
  - intros H. apply andb_true_iff in H. destruct H as [H H3].
    apply andb_true_iff in H. destruct H as [H1 H2].
    apply String.eqb_eq in H1. apply bool_decide_eq_true in H2.
    rewrite (IH e' H3). congruence.
Qed.

(** On a pgx pool the [(nil, nil)] return of [GetCachedEmbedding] is never
    taken. *)
Lemma GetCachedEmbedding_never_nil (b : Backend) (h : string) (s : Store) :
  pgx_pool b -> fst (GetCachedEmbedding b h s) <> inl None.
Proof.
  intros Hpool. unfold GetCachedEmbedding, QueryRow_Scan.
  destruct (fault b (ops s)) as [err|] eqn:Hf.
  - destruct (error_eqb err Sql.ErrNoRows) eqn:He; [|discriminate].
    apply error_eqb_eq in He. subst err. exfalso. exact (Hpool _ Hf).
  - destruct (List.find (hash_eqb h) (rows s)); discriminate.
Qed.

Lemma find_head_filter (f : CachedEmbedding -> bool) (t : list CachedEmbedding) :
  List.find f t = hd_error (List.filter f t).
Proof.
  induction t as [|r rest IH]; simpl; [reflexivity|].
  destruct (f r); [reflexivity|exact IH].
Qed.

Lemma upsert_find_same (new : CachedEmbedding) (t : list CachedEmbedding) :
  unique_hashes t ->
  exists r, List.find (hash_eqb (InputHash new)) (upsert new t) = Some r
            /\ ((exists e, In e t /\ InputHash e = InputHash new
                           /\ r = on_conflict (UsedAt new) (EmbeddingVector new) e)
                \/ (~ In (InputHash new) (map InputHash t) /\ r = new)).
Proof.
  intros Hu. rewrite find_head_filter.
  destruct (in_dec string_dec (InputHash new) (map InputHash t)) as [Hin|Hno].
  - apply in_map_iff in Hin. destruct Hin as [e [He Hin]].
    rewrite (upsert_same new e t Hu Hin He). eexists. split; [reflexivity|].
    left. exists e. tauto.
  - rewrite (upsert_creates new t Hno). exists new. split; [reflexivity|].
    right. tauto.
Qed.



Lemma upsert_find_other (new : CachedEmbedding) (t : list CachedEmbedding) (h : string) :
  h <> InputHash new ->
  List.find (hash_eqb h) (upsert new t) = List.find (hash_eqb h) t.
Proof.
  intros Hne. rewrite !find_head_filter, (upsert_other new t h Hne). reflexivity.
Qed.

(** X11. [StoreEmbedding] keeps the fingerprints of the table unique,
    counts as one statement, leaves the entries of every other fingerprint
    as they were, and changes no row at all when the statement fails. *)
Theorem store_keeps_table (b : Backend) (s : Store) (h text model : string)
    (vector : list float64) :
  unique_hashes (rows s) ->
  let result := StoreEmbedding b h text model vector s in
  unique_hashes (rows (snd result))
  /\ ops (snd result) = S (ops s)
  /\ (forall h', h' <> h ->
        List.find (hash_eqb h') (rows (snd result)) = List.find (hash_eqb h') (rows s))
  /\ (fst result <> None -> rows (snd result) = rows s).
Proof.
  intros Hu result. subst result. unfold StoreEmbedding.
  destruct (fault b (ops s)) as [err|]; simpl.
  - repeat split; try assumption; reflexivity.
  - split; [apply upsert_unique; exact Hu|]. split; [reflexivity|].
    split; [|congruence].
    intros h' Hne. apply upsert_find_other. exact Hne.
Qed.

Lemma store_keeps_table_witness :
  unique_hashes (rows (snd (StoreEmbedding Scenario.backend "h1" "text" "m"
                                           [2.5%float] (Cache.store Scenario.world_a)))).
Proof.
  apply (store_keeps_table Scenario.backend (Cache.store Scenario.world_a)
                           "h1" "text" "m" [2.5%float]).
  apply NoDup_singleton.
Defined.

Lemma attach_shape (hm : gmap string nat) (es : list CachedEmbedding)
    (items : list BatchItem) (i : nat) (item' : BatchItem) :
  attach hm es items !! i = Some item' ->
  exists item, items !! i = Some item
               /\ Input item' = Input item /\ Hash item' = Hash item
               /\ Index item' = Index item
               /\ (Cached item' = Cached item
                   \/ exists e, Cached item' = Some e /\ In e es
                                /\ hm !! InputHash e = Some i).
Proof.
  rewrite attach_lookup. destruct (pick hm i es) as [e|] eqn:Ep.
  - destruct (items !! i) as [item|]; [|discriminate].
    intros [= <-]. exists item. simpl. repeat split. right. exists e.
    apply pick_Some in Ep. tauto.
  - intros H. exists item'. tauto.
Qed.

(** X12. The batch lookup returns as many items as it was given, in the
    same slots with the same input, hash and index; it changes no row; and
    an entry it attaches to an item is a row of the table whose
    fingerprint is the item's hash. *)
Theorem batch_lookup_sound (b : Backend) (batchItems items : list BatchItem)
    (s s' : Store) :
  GetBatchCachedEmbeddings b batchItems s = (inl items, s') ->
  length items = length batchItems
  /\ rows s' = rows s
  /\ forall i item', items !! i = Some item' ->
       exists item, batchItems !! i = Some item
                    /\ Input item' = Input item /\ Hash item' = Hash item
                    /\ Index item' = Index item
                    /\ (Cached item' = Cached item
                        \/ exists e, Cached item' = Some e /\ In e (rows s)
                                     /\ InputHash e = Hash item).
Proof.
  intros Hget. apply GetBatchCachedEmbeddings_inl in Hget. destruct Hget as [-> Hrows].
  split; [apply attach_length|]. split; [exact Hrows|].
  intros i item' Hi. destruct (attach_shape _ _ _ _ _ Hi)
    as (item & Hitem & Hin & Hh & Hidx & Hc).
  exists item. repeat split; try assumption.
  destruct Hc as [Hc|(e & Hc & He & Hm)]; [left; exact Hc|right].
  exists e. split; [exact Hc|]. apply select_any_In in He. split; [tauto|].
  rewrite index_items_lookup, lookup_empty in Hm.
  destruct (last_index (InputHash e) batchItems) as [k|] eqn:El; [|discriminate].
  injection Hm as Hk. simpl in Hk. subst k.
  destruct (last_index_Some _ _ _ El) as [[it [Hit Hhash]] _].
  rewrite Hitem in Hit. injection Hit as <-. symmetry. exact Hhash.
Qed.

Lemma batch_lookup_sound_witness :
  exists items s',
    GetBatchCachedEmbeddings Scenario.backend (Cache.prepareBatchItems ["a"; "b"] "m")
                             (Cache.store Scenario.world_a) = (inl items, s')
    /\ length items = 2.
Proof.
  destruct (GetBatchCachedEmbeddings Scenario.backend
              (Cache.prepareBatchItems ["a"; "b"] "m") (Cache.store Scenario.world_a))
    as [[items|err] s'] eqn:Hget; [|vm_compute in Hget; discriminate Hget].
  exists items, s'. split; [reflexivity|].
  exact (proj1 (batch_lookup_sound _ _ _ _ _ Hget)).
Defined.

Lemma mark_used_hash (t : Z) (ids : list uuid) (r : CachedEmbedding) :
  InputHash (mark_used t ids r) = InputHash r.
Proof. unfold mark_used. destruct (bool_decide _); reflexivity. Qed.

(** X13. The usage update stamps [used_at] (and, through the table's
    trigger, [updated_at]) of the rows whose id is listed with the current
    time, leaves every other row and every other column as it was, keeps
    the number of rows and their fingerprints, and reports no error for
    ids that are not in the table. *)
Theorem usage_update_frame (b : Backend) (ids : list uuid) (s : Store) :
  fault b (ops s) = None ->
  let result := UpdateUsage b ids s in
  fst result = None
  /\ map InputHash (rows (snd result)) = map InputHash (rows s)
  /\ forall i r, rows s !! i = Some r ->
       exists r', rows (snd result) !! i = Some r'
                  /\ ID r' = ID r /\ InputText r' = InputText r
                  /\ EmbeddingVector r' = EmbeddingVector r
                  /\ ModelName r' = ModelName r /\ InputLength r' = InputLength r
                  /\ CreatedAt r' = CreatedAt r
                  /\ (In (ID r) ids -> UsedAt r' = now b (ops s)
                                       /\ UpdatedAt r' = now b (ops s))
                  /\ (~ In (ID r) ids -> r' = r).
Proof.
  intros Hf result. subst result. unfold UpdateUsage. rewrite Hf. simpl.
  split; [reflexivity|]. split.
  - rewrite map_map. apply map_ext. intros r. apply mark_used_hash.
  - intros i r Hi. exists (mark_used (now b (ops s)) ids r).
    split; [rewrite list_lookup_fmap, Hi; reflexivity|].
    unfold mark_used. destruct (bool_decide (ID r ∈ ids)) eqn:E; simpl.
    + apply bool_decide_eq_true in E. apply list_elem_of_In in E.
      repeat split; tauto.
    + apply bool_decide_eq_false in E. rewrite list_elem_of_In in E.
      repeat split; tauto.
Qed.

Lemma usage_update_frame_witness :
  fst (UpdateUsage Scenario.backend [9%N] (Cache.store Scenario.world_a)) = None
  /\ map InputHash (rows (snd (UpdateUsage Scenario.backend [9%N]
                                           (Cache.store Scenario.world_a))))
     = map InputHash (rows (Cache.store Scenario.world_a)).
Proof.
  destruct (usage_update_frame Scenario.backend [9%N] (Cache.store Scenario.world_a))
    as (H1 & H2 & _).
  - reflexivity.
  - split; [exact H1|exact H2].
Defined.

End StoreFacts.

(** ** Usage tracker *)
Section TrackerFacts.
Import Tracker.
Local Open Scope nat_scope.

Lemma held_flush (ut : UsageTracker) : Ledger.held (flushBuffer ut) = Ledger.held ut.
Proof.
  unfold flushBuffer, Ledger.held. destruct (buffer ut) as [|id rest] eqn:E; simpl.
  - rewrite E. reflexivity.
  - rewrite concat_app. simpl. rewrite app_nil_r, <- app_assoc. reflexivity.
Qed.

Lemma step_conserves (ev : event) (ut ut' : UsageTracker) :
  step ev ut = Some ut' ->
  Ledger.held ut' = Ledger.held ut
  \/ exists id, ev = CallTrackUsage id /\ Ledger.held ut' = Ledger.held ut ++ [id].
Proof.
  destruct ev; simpl.
  - destruct (chanClosed ut); [discriminate|]. intros [= <-].
    unfold Ledger.held, send_or_drop. simpl.
    destruct (N.of_nat (length (usageChan ut)) <? channel_capacity)%N.
    + right. exists id. split; [reflexivity|]. rewrite !app_assoc. reflexivity.
    + left. reflexivity.
  - destruct (negb (is_running (ingest ut))); [discriminate|].
    destruct (usageChan ut) as [|id rest] eqn:Ec.
    + destruct (chanClosed ut); [|discriminate]. intros [= <-].
      left. unfold Ledger.held. simpl. rewrite Ec. reflexivity.
    + set (ut1 := mkTracker rest _ _ _ (buffer ut ++ [id]) _ _ _ _ _).
      assert (H1 : Ledger.held ut1 = Ledger.held ut).
      { unfold Ledger.held. simpl. rewrite Ec, <- !app_assoc. reflexivity. }
      destruct (_ <=? _)%Z; intros [= <-]; left.
      * rewrite held_flush. exact H1.
      * exact H1.
  - destruct (is_running (ingest ut) && stopClosed ut); [|discriminate].
    intros [= <-]. left. reflexivity.
  - destruct (is_running (ingest ut) && ctxDone ut); [|discriminate].
    intros [= <-]. left. reflexivity.
  - destruct (is_running (timer ut)); [|discriminate].
    intros [= <-]. left. apply held_flush.
  - destruct (is_running (timer ut) && stopClosed ut); [|discriminate].
    intros [= <-]. left. reflexivity.
  - destruct (is_running (timer ut) && ctxDone ut); [|discriminate].
    intros [= <-]. left. reflexivity.
  - intros [= <-]. left. reflexivity.
  - destruct (stopClosed ut || chanClosed ut); [discriminate|].
    intros [= <-]. left. reflexivity.
  - destruct (stopClosed ut && negb (is_running (ingest ut))
              && negb (is_running (timer ut)) && negb (stopped ut)); [|discriminate].
    intros [= <-]. left.
    change (Ledger.held (flushBuffer ut) = Ledger.held ut). apply held_flush.
Qed.

(** X14. Whatever the scheduler does, the ids the tracker holds (flushed
    batches, then buffer, then channel) are the ids it held before,
    followed by some of the ids handed to [TrackUsage], in the order of the
    calls: no id is invented, repeated or reordered, and an id that was
    accepted is never dropped from the three places. *)
Theorem tracker_conserves (schedule : list event) (ut ut' : UsageTracker) :
  run schedule ut = Some ut' ->
  exists accepted,
    Ledger.held ut' = Ledger.held ut ++ accepted
    /\ sublist accepted (Ledger.requested schedule).
Proof.
  revert ut. induction schedule as [|ev rest IH]; intros ut; simpl.
  - intros [= <-]. exists []. rewrite app_nil_r. split; [reflexivity|constructor].
  - destruct (step ev ut) as [ut1|] eqn:Es; [|discriminate].
    intros Hrun. destruct (IH ut1 Hrun) as (acc & Hheld & Hsub).
    destruct (step_conserves ev ut ut1 Es) as [H1|(id & -> & H1)].
    + exists acc. rewrite Hheld, H1. split; [reflexivity|].
      destruct ev; try exact Hsub. apply sublist_cons. exact Hsub.
    + exists (id :: acc). rewrite Hheld, H1, <- app_assoc. split; [reflexivity|].
      apply sublist_skip. exact Hsub.
Qed.

Lemma tracker_conserves_witness :
  exists accepted,
    Ledger.held (mkTracker [7%N] true true false [] 50 Returned Returned [] true)
    = Ledger.held (started 50) ++ accepted.
Proof.
  destruct (tracker_conserves Scenario.hasty_shutdown (started 50)
              (mkTracker [7%N] true true false [] 50 Returned Returned [] true))
    as (accepted & H & _).
  - vm_compute. reflexivity.
  - exists accepted. exact H.
Defined.

Lemma send_or_drop_bound (id : uuid) (ch : list uuid) :
  (N.of_nat (length ch) <= channel_capacity)%N ->
  (N.of_nat (length (send_or_drop id ch)) <= channel_capacity)%N.
Proof.
  intros H. unfold send_or_drop.
  destruct (N.of_nat (length ch) <? channel_capacity)%N eqn:E; [|exact H].
  apply N.ltb_lt in E. rewrite length_app. simpl. lia.
Qed.

Lemma flush_channel (ut : UsageTracker) : usageChan (flushBuffer ut) = usageChan ut.
Proof. unfold flushBuffer. destruct (buffer ut); reflexivity. Qed.

Lemma step_channel_bound (ev : event) (ut ut' : UsageTracker) :
  step ev ut = Some ut' ->
  (N.of_nat (length (usageChan ut)) <= channel_capacity)%N ->
  (N.of_nat (length (usageChan ut')) <= channel_capacity)%N.
Proof.
  destruct ev; simpl.
  - destruct (chanClosed ut); [discriminate|]. intros [= <-]. simpl.
    apply send_or_drop_bound.
  - destruct (negb (is_running (ingest ut))); [discriminate|].
    destruct (usageChan ut) as [|id rest] eqn:Ec.
    + destruct (chanClosed ut); [|discriminate]. intros [= <-]. simpl.
      rewrite Ec. tauto.
    + destruct (_ <=? _)%Z; intros [= <-]; rewrite ?flush_channel;
        cbn [usageChan length]; lia.
  - destruct (is_running (ingest ut) && stopClosed ut); [|discriminate].
    intros [= <-]. tauto.
  - destruct (is_running (ingest ut) && ctxDone ut); [|discriminate].
    intros [= <-]. tauto.
  - destruct (is_running (timer ut)); [|discriminate].
    intros [= <-]. rewrite flush_channel. tauto.
  - destruct (is_running (timer ut) && stopClosed ut); [|discriminate].
    intros [= <-]. tauto.
  - destruct (is_running (timer ut) && ctxDone ut); [|discriminate].
    intros [= <-]. tauto.
  - intros [= <-]. tauto.
  - destruct (stopClosed ut || chanClosed ut); [discriminate|].
    intros [= <-]. tauto.
  - destruct (stopClosed ut && negb (is_running (ingest ut))
              && negb (is_running (timer ut)) && negb (stopped ut)); [|discriminate].
    intros [= <-]. cbn [usageChan]. rewrite flush_channel. tauto.
Qed.

(** X15. The channel never holds more than 1000 ids: [TrackUsage] drops
    what does not fit, whatever the schedule. *)
Theorem channel_bounded (schedule : list event) (ut ut' : UsageTracker) :
  run schedule ut = Some ut' ->
  (N.of_nat (length (usageChan ut)) <= channel_capacity)%N ->
  (N.of_nat (length (usageChan ut')) <= channel_capacity)%N.
Proof.
  revert ut. induction schedule as [|ev rest IH]; intros ut; simpl.
  - intros [= <-]. tauto.
  - destruct (step ev ut) as [ut1|] eqn:Es; [|discriminate].
    intros Hrun Hb. apply (IH ut1 Hrun). exact (step_channel_bound ev ut ut1 Es Hb).
Qed.

Lemma channel_bounded_witness :
  (N.of_nat (length (usageChan
      (mkTracker [7%N] true true false [] 50 Returned Returned [] true)))
   <= channel_capacity)%N.
Proof.
  apply (channel_bounded Scenario.hasty_shutdown (started 50)).
  - vm_compute. reflexivity.
  - vm_compute. discriminate.
Defined.

Lemma run_app (a b : list event) (ut : UsageTracker) :
  run (a ++ b) ut = match run a ut with Some u => run b u | None => None end.
Proof.
  revert ut. induction a as [|ev a IH]; intros ut; simpl; [reflexivity|].
  destruct (step ev ut); [apply IH|reflexivity].
Qed.

Lemma with_queues_id (ut : UsageTracker) :
  Ledger.with_queues (usageChan ut) (buffer ut) (flushed ut) ut = ut.
Proof. destruct ut. reflexivity. Qed.

Lemma run_tracks (ids : list uuid) (ut : UsageTracker) :
  chanClosed ut = false ->
  (N.of_nat (length (usageChan ut) + length ids) <= channel_capacity)%N ->
  run (map CallTrackUsage ids) ut
  = Some (Ledger.with_queues (usageChan ut ++ ids) (buffer ut) (flushed ut) ut).
Proof.
  revert ut. induction ids as [|id rest IH]; intros ut Hopen Hcap.
  - simpl. rewrite app_nil_r, with_queues_id. reflexivity.
  - cbn [map run step]. rewrite Hopen. unfold send_or_drop.
    replace (N.of_nat (length (usageChan ut)) <? channel_capacity)%N with true
      by (symmetry; apply N.ltb_lt; simpl in Hcap; lia).
    rewrite IH.
    + unfold Ledger.with_queues. simpl. rewrite <- app_assoc, Hopen. reflexivity.
    + reflexivity.
    + simpl. rewrite length_app. simpl in *. lia.
Qed.

Lemma run_receives (taken remaining : list uuid) (ut : UsageTracker) :
  ingest ut = Running ->
  usageChan ut = taken ++ remaining ->
  (Z.of_nat (length (buffer ut) + length taken) < batchSize ut)%Z ->
  run (repeat IngestReceive (length taken)) ut
  = Some (Ledger.with_queues remaining (buffer ut ++ taken) (flushed ut) ut).
Proof.
  revert ut. induction taken as [|id rest IH]; intros ut Hrun Hch Hlt.
  - simpl in *. rewrite app_nil_r, <- Hch, with_queues_id. reflexivity.
  - cbn [length repeat run step]. rewrite Hrun, Hch.
    cbn [is_running negb app buffer].
    destruct (_ <=? _)%Z eqn:E;
      [apply Z.leb_le in E; rewrite length_app in E; simpl in *; lia|].
    rewrite IH.
    + unfold Ledger.with_queues. simpl. rewrite <- app_assoc, Hrun. reflexivity.
    + reflexivity.
    + reflexivity.
    + simpl. rewrite length_app. simpl in *. lia.
Qed.

(** X16. Handing exactly [batch_size] ids to [TrackUsage] and letting the
    ingest goroutine receive them, without any timer tick, gives one flush
    that holds all of them, in order, and leaves buffer and channel empty. *)
Theorem full_batch_flushes (ids : list uuid) :
  ids <> [] -> (N.of_nat (length ids) <= channel_capacity)%N ->
  run (map CallTrackUsage ids ++ repeat IngestReceive (length ids))
      (started (Z.of_nat (length ids)))
  = Some (Ledger.with_queues [] [] [ids] (started (Z.of_nat (length ids)))).
Proof.
  intros Hne Hcap. rewrite run_app, run_tracks; [|reflexivity|simpl; lia].
  destruct (exists_last Hne) as (front & last & ->).
  rewrite length_app. cbn [length]. rewrite repeat_app, run_app.
  set (B := Z.of_nat (length front + 1)).
  rewrite (run_receives front [last]); [|reflexivity|reflexivity|simpl; lia].
  simpl. unfold B.
  replace (Z.of_nat (length front + 1) <=? Z.of_nat (length (front ++ [last])))%Z
    with true by (symmetry; apply Z.leb_le; rewrite length_app; simpl; lia).
  unfold flushBuffer, Ledger.with_queues. simpl.
  destruct (front ++ [last]) eqn:E; [destruct front; discriminate E|]. reflexivity.
Qed.

Lemma full_batch_flushes_witness :
  run (map CallTrackUsage [4; 5; 6]%N ++ repeat IngestReceive 3) (started 3)
  = Some (Ledger.with_queues [] [] [[4; 5; 6]%N] (started 3)).
Proof.
  apply (full_batch_flushes [4; 5; 6]%N).
  - discriminate.
  - vm_compute. discriminate.
Defined.

(** X17. Fewer ids than [batch_size], received and followed by one timer
    tick, give one flush that holds them all. *)
Theorem timer_flushes_partial_batch (ids : list uuid) (size : Z) :
  ids <> [] -> (Z.of_nat (length ids) < size)%Z ->
  (N.of_nat (length ids) <= channel_capacity)%N ->
  run (map CallTrackUsage ids ++ repeat IngestReceive (length ids) ++ [TimerTick])
      (started size)
  = Some (Ledger.with_queues [] [] [ids] (started size))
  /\ run (map CallTrackUsage ids ++ repeat IngestReceive (length ids)) (started size)
     = Some (Ledger.with_queues [] ids [] (started size)).
Proof.
  intros Hne Hlt Hcap.
  assert (Hrecv : run (map CallTrackUsage ids ++ repeat IngestReceive (length ids))
                      (started size)
                  = Some (Ledger.with_queues [] ids [] (started size))).
  { rewrite run_app, run_tracks; [|reflexivity|simpl; lia].
    rewrite (run_receives ids []); [reflexivity|reflexivity| |simpl; lia].
    simpl. rewrite app_nil_r. reflexivity. }
  split; [|exact Hrecv].
  rewrite app_assoc, run_app, Hrecv. simpl.
  unfold flushBuffer, Ledger.with_queues. simpl.
  destruct ids; [congruence|reflexivity].
Qed.

Lemma timer_flushes_partial_batch_witness :
  run (map CallTrackUsage [4; 5]%N ++ repeat IngestReceive 2 ++ [TimerTick]) (started 50)
  = Some (Ledger.with_queues [] [] [[4; 5]%N] (started 50)).
Proof.
  apply (timer_flushes_partial_batch [4; 5]%N 50).
  - discriminate.
  - vm_compute. reflexivity.
  - vm_compute. discriminate.
Defined.

(** X18. When [Stop] returns, both goroutines have returned, the buffer is
    empty and its ids form the last flushed batch; the channel is left as
    it was, so the ids [Stop] leaves unflushed are those still in the
    channel. *)
Theorem stop_flushes_buffer (ut ut' : UsageTracker) :
  step StopReturn ut = Some ut' ->
  stopped ut' = true /\ ingest ut = Returned /\ timer ut = Returned
  /\ buffer ut' = []
  /\ List.concat (flushed ut') = List.concat (flushed ut) ++ buffer ut
  /\ usageChan ut' = usageChan ut
  /\ Ledger.held ut' = List.concat (flushed ut') ++ usageChan ut.
Proof.
  simpl. destruct (stopClosed ut); [|discriminate].
  destruct (ingest ut); [discriminate|]. destruct (timer ut); [discriminate|].
  destruct (stopped ut); [discriminate|]. simpl. intros [= <-].
  unfold Ledger.held, flushBuffer. destruct (buffer ut) as [|id rest] eqn:Eb; simpl.
  - rewrite Eb, app_nil_r. repeat split; reflexivity.
  - rewrite concat_app. simpl. rewrite app_nil_r. repeat split; reflexivity.
Qed.

Lemma stop_flushes_buffer_witness :
  buffer (mkTracker [] true true false [] 50 Returned Returned [[8%N]] true) = [].
Proof.
  apply (stop_flushes_buffer
           (mkTracker [] true true false [8%N] 50 Returned Returned [] false)).
  vm_compute. reflexivity.
Defined.

End TrackerFacts.

(** ** Orchestrator: assembling a batch *)
Section AssemblyFacts.
Import Database Cache.
Local Open Scope nat_scope.

Lemma store_at_Some {A : Type} (i : nat) (x : A) (l l' : list A) :
  store_at i x l = Some l' -> i < length l /\ l' = <[i := x]> l.
Proof.
  unfold store_at. destruct (i <? length l) eqn:E; [|discriminate].
  apply Nat.ltb_lt in E. intros [= <-]. tauto.
Qed.

Lemma store_at_in_range {A : Type} (i : nat) (x : A) (l : list A) :
  i < length l -> store_at i x l = Some (<[i := x]> l).
Proof.
  intros H. unfold store_at. apply Nat.ltb_lt in H. rewrite H. reflexivity.
Qed.

Lemma fill_hits_length (items : list BatchItem) (results r : list (option BatchResult)) :
  fill_hits items results = Some r -> length r = length results.
Proof.
  revert results. induction items as [|item rest IH]; intros results; simpl.
  - intros [= <-]. reflexivity.
  - destruct (Cached item) as [cached|]; [|apply IH].
    destruct (store_at _ _ results) as [r1|] eqn:Es; [|discriminate].
    intros H. apply IH in H. apply store_at_Some in Es. destruct Es as [_ ->].
    rewrite H. apply length_insert.
Qed.

Lemma fill_misses_length (us : list BatchItem) (vs : list (list float64))
    (results r : list (option BatchResult)) :
  fill_misses us vs results = Some r -> length r = length results.
Proof.
  revert vs results. induction us as [|u rest IH]; intros vs results; simpl.
  - intros [= <-]. reflexivity.
  - destruct vs as [|v vs]; [intros [= <-]; reflexivity|].
    destruct (store_at _ _ results) as [r1|] eqn:Es; [|discriminate].
    intros H. apply IH in H. apply store_at_Some in Es. destruct Es as [_ ->].
    rewrite H. apply length_insert.
Qed.

(** The first loop of [assembleBatchResults], for items with distinct
    indexes in range. *)
Lemma fill_hits_spec (items : list BatchItem) (results : list (option BatchResult)) :
  (forall item, In item items -> Index item < length results) ->
  NoDup (map Index items) ->
  exists r,
    fill_hits items results = Some r
    /\ (forall item e, In item items -> Cached item = Some e ->
          r !! Index item = Some (Some (mkResult (EmbeddingVector e) true (Index item))))
    /\ (forall j, (forall item, In item items -> Cached item <> None -> Index item <> j) ->
          r !! j = results !! j).
Proof.
  revert results. induction items as [|item rest IH]; intros results Hrange Hnd.
  - exists results. simpl. repeat split; tauto.
  - simpl in Hnd. apply NoDup_cons in Hnd. destruct Hnd as [Hnotin Hnd].
    cbn [fill_hits]. destruct (Cached item) as [cached|] eqn:Ec.
    + rewrite store_at_in_range by (apply Hrange; left; reflexivity).
      set (results1 := <[Index item := _]> results).
      destruct (IH results1) as (r & Hfill & Hhit & Hother).
      { intros it Hit. unfold results1. rewrite length_insert. apply Hrange. right. exact Hit. }
      { exact Hnd. }
      exists r. split; [exact Hfill|]. split.
      * intros it e [<-|Hit] He.
        -- rewrite Hother.
           ++ unfold results1. rewrite list_lookup_insert_eq
                by (apply Hrange; left; reflexivity).
              congruence.
           ++ intros it' Hit' _ Heq. apply Hnotin. rewrite <- Heq.
              apply list_elem_of_In, in_map. exact Hit'.
        -- apply Hhit; assumption.
      * intros j Hj. rewrite Hother.
        -- unfold results1. apply list_lookup_insert_ne.
           apply Hj; [left; reflexivity|congruence].
        -- intros it Hit. apply Hj. right. exact Hit.
    + destruct (IH results) as (r & Hfill & Hhit & Hother).
      { intros it Hit. apply Hrange. right. exact Hit. }
      { exact Hnd. }
      exists r. split; [exact Hfill|]. split.
      * intros it e [<-|Hit] He; [congruence|]. apply Hhit; assumption.
      * intros j Hj. apply Hother. intros it Hit. apply Hj. right. exact Hit.
Qed.

(** The second loop, for as many vectors as uncached items. *)
Lemma fill_misses_spec (us : list BatchItem) (vs : list (list float64))
    (results : list (option BatchResult)) :
  length vs = length us ->
  (forall u, In u us -> Index u < length results) ->
  NoDup (map Index us) ->
  exists r,
    fill_misses us vs results = Some r
    /\ (forall k u v, us !! k = Some u -> vs !! k = Some v ->
          r !! Index u = Some (Some (mkResult v false (Index u))))
    /\ (forall j, (forall u, In u us -> Index u <> j) -> r !! j = results !! j).
Proof.
  revert vs results. induction us as [|u rest IH]; intros vs results Hlen Hrange Hnd.
  - exists results. simpl. split; [reflexivity|]. split; [|tauto].
    intros k u v Hk. destruct k; discriminate Hk.
  - destruct vs as [|v vs]; [discriminate Hlen|].
    simpl in Hnd. apply NoDup_cons in Hnd. destruct Hnd as [Hnotin Hnd].
    cbn [fill_misses]. rewrite store_at_in_range by (apply Hrange; left; reflexivity).
    set (results1 := <[Index u := _]> results).
    destruct (IH vs results1) as (r & Hfill & Hmiss & Hother).
    { simpl in Hlen. lia. }
    { intros it Hit. unfold results1. rewrite length_insert. apply Hrange. right. exact Hit. }
    { exact Hnd. }
    exists r. split; [exact Hfill|]. split.
    + intros [|k] u' v' Hu Hv; simpl in Hu, Hv.
      * injection Hu as <-. injection Hv as <-. rewrite Hother.
        -- unfold results1. apply list_lookup_insert_eq. apply Hrange. left. reflexivity.
        -- intros it Hit Heq. apply Hnotin. rewrite <- Heq.
           apply list_elem_of_In, in_map. exact Hit.
      * apply (Hmiss k); assumption.
    + intros j Hj. rewrite Hother.
      * unfold results1. apply list_lookup_insert_ne. apply Hj. left. reflexivity.
      * intros it Hit. apply Hj. right. exact Hit.
Qed.

Lemma getUncachedItems_app (a b : list BatchItem) :
  getUncachedItems (a ++ b) = getUncachedItems a ++ getUncachedItems b.
Proof.
  induction a as [|item rest IH]; simpl; [reflexivity|].
  destruct (Cached item); rewrite IH; reflexivity.
Qed.

Lemma getUncachedItems_sublist (items : list BatchItem) :
  sublist (getUncachedItems items) items.
Proof.
  induction items as [|item rest IH]; simpl; [constructor|].
  destruct (Cached item); [apply sublist_cons|apply sublist_skip]; exact IH.
Qed.

(** The uncached item of slot [i] is the one of rank "number of uncached
    items before slot [i]". *)
Lemma getUncachedItems_rank (items : list BatchItem) (i : nat) (item : BatchItem) :
  items !! i = Some item -> Cached item = None ->
  getUncachedItems items !! length (getUncachedItems (take i items)) = Some item.
Proof.
  intros Hi Hc.
  transitivity (getUncachedItems (take i items ++ item :: drop (S i) items)
                !! length (getUncachedItems (take i items))).
  { rewrite take_drop_middle by exact Hi. reflexivity. }
  rewrite getUncachedItems_app. simpl. rewrite Hc.
  rewrite lookup_app_r by lia. rewrite Nat.sub_diag. reflexivity.
Qed.

Lemma positional_indexes (items : list BatchItem) :
  (forall i item, items !! i = Some item -> Index item = i) ->
  NoDup (map Index items)
  /\ (forall item, In item items -> Index item < length items).
Proof.
  intros Hpos. split.
  - apply NoDup_alt. intros i j x Hi Hj.
    rewrite list_lookup_fmap in Hi, Hj.
    destruct (items !! i) as [a|] eqn:Ea; [|discriminate].
    destruct (items !! j) as [b|] eqn:Eb; [|discriminate].
    injection Hi as <-. injection Hj as Hj.
    rewrite (Hpos i a Ea) in Hj. rewrite (Hpos j b Eb) in Hj. congruence.
  - intros item Hin. apply list_elem_of_In, list_elem_of_lookup_1 in Hin.
    destruct Hin as [i Hi]. rewrite (Hpos i item Hi).
    apply lookup_lt_Some in Hi. exact Hi.
Qed.

(** [assembleBatchResults] on items that sit at their own index: no
    panic, a hit slot gets the stored vector, a miss slot gets the vector
    of its rank. *)
Lemma assemble_spec (items : list BatchItem) (vectors : list (list float64)) :
  (forall i item, items !! i = Some item -> Index item = i) ->
  length vectors = length (getUncachedItems items) ->
  exists results,
    assembleBatchResults items (getUncachedItems items) vectors (length items)
    = Some results
    /\ length results = length items
    /\ forall i item, items !! i = Some item ->
         match Cached item with
         | Some e => results !! i = Some (Some (mkResult (EmbeddingVector e) true i))
         | None =>
           exists v, vectors !! length (getUncachedItems (take i items)) = Some v
                     /\ results !! i = Some (Some (mkResult v false i))
         end.
Proof.
  intros Hpos Hlen. destruct (positional_indexes items Hpos) as [Hnd Hrange].
  unfold assembleBatchResults.
  destruct (fill_hits_spec items (repeat None (length items)))
    as (r1 & Hfill1 & Hhit & Hother1).
  { intros item Hin. rewrite repeat_length. apply Hrange. exact Hin. }
  { exact Hnd. }
  rewrite Hfill1.
  assert (Hlen1 : length r1 = length items).
  { rewrite (fill_hits_length _ _ _ Hfill1). apply repeat_length. }
  pose proof (getUncachedItems_sublist items) as Hsub.
  destruct (fill_misses_spec (getUncachedItems items) vectors r1)
    as (r2 & Hfill2 & Hmiss & Hother2).
  { exact Hlen. }
  { intros u Hu. rewrite Hlen1. apply Hrange.
    apply getUncachedItems_In in Hu. tauto. }
  { eapply sublist_NoDup; [exact Hnd|apply (fmap_sublist Index); exact Hsub]. }
  exists r2. split; [exact Hfill2|]. split.
  { rewrite (fill_misses_length _ _ _ _ Hfill2). exact Hlen1. }
  intros i item Hi. pose proof (Hpos i item Hi) as Hidx.
  assert (Hin : In item items)
    by (apply list_elem_of_In; eapply list_elem_of_lookup_2; exact Hi).
  destruct (Cached item) as [e|] eqn:Ec.
  - rewrite Hother2.
    + pose proof (Hhit item e Hin Ec) as Hh. rewrite Hidx in Hh. exact Hh.
    + intros u Hu Heq. apply getUncachedItems_In in Hu. destruct Hu as [Hu Hcu].
      apply list_elem_of_In, list_elem_of_lookup_1 in Hu. destruct Hu as [j Hj].
      rewrite (Hpos j u Hj) in Heq. subst j. congruence.
  - pose proof (getUncachedItems_rank items i item Hi Ec) as Hrank.
    destruct (lookup_lt_is_Some_2 vectors (length (getUncachedItems (take i items))))
      as [v Hv].
    { rewrite Hlen. apply lookup_lt_Some in Hrank. exact Hrank. }
    exists v. split; [exact Hv|].
    pose proof (Hmiss _ item v Hrank Hv) as Hm. rewrite Hidx in Hm. exact Hm.
Qed.

End AssemblyFacts.

(** ** Orchestrator: the batch path as a whole *)
Section BatchFacts.
Import Database Cache.
Local Open Scope nat_scope.

Lemma last_index_distinct (items : list BatchItem) (i : nat) (item : BatchItem) :
  NoDup (map Hash items) -> items !! i = Some item ->
  last_index (Hash item) items = Some i.
Proof.
  intros Hnd Hi.
  destruct (last_index_later (Hash item) items i item Hi eq_refl) as (k & Hk & _).
  rewrite Hk. f_equal.
  destruct (last_index_Some _ _ _ Hk) as [(item' & Hk' & Hh) _].
  apply (proj1 (NoDup_alt (map Hash items)) Hnd k i (Hash item));
    rewrite list_lookup_fmap; [rewrite Hk'|rewrite Hi]; simpl; congruence.
Qed.

Lemma resolved_from_lookup (t : list CachedEmbedding) (m : string) (k : nat)
    (inputs : list string) (i : nat) :
  Ledger.resolved_from t m k inputs !! i
  = (fun x => mkItem x (Hash.GenerateInputHash x m) (k + i)
                     (List.find (hash_eqb (Hash.GenerateInputHash x m)) t))
    <$> inputs !! i.
Proof.
  revert k i. induction inputs as [|x rest IH]; intros k i; simpl; [reflexivity|].
  destruct i as [|i]; simpl.
  - rewrite Nat.add_0_r. reflexivity.
  - rewrite IH. replace (S k + i) with (k + S i) by lia. reflexivity.
Qed.

Lemma resolved_from_length (t : list CachedEmbedding) (m : string) (k : nat)
    (inputs : list string) :
  length (Ledger.resolved_from t m k inputs) = length inputs.
Proof.
  revert k. induction inputs as [|x rest IH]; intros k; simpl; [reflexivity|].
  rewrite IH. reflexivity.
Qed.

Lemma resolved_from_take (t : list CachedEmbedding) (m : string) (k i : nat)
    (inputs : list string) :
  take i (Ledger.resolved_from t m k inputs)
  = Ledger.resolved_from t m k (take i inputs).
Proof.
  revert k i. induction inputs as [|x rest IH]; intros k [|i]; simpl; try reflexivity.
  rewrite IH. reflexivity.
Qed.

Lemma resolved_from_misses (t : list CachedEmbedding) (m : string) (k : nat)
    (inputs : list string) :
  map Database.Input (getUncachedItems (Ledger.resolved_from t m k inputs))
  = Ledger.miss_texts t m inputs.
Proof.
  unfold Ledger.miss_texts. revert k.
  induction inputs as [|x rest IH]; intros k; simpl; [reflexivity|].
  unfold Ledger.is_miss at 1.
  destruct (List.find _ t); simpl; rewrite IH; reflexivity.
Qed.

(** With pairwise distinct fingerprints, the lookup attaches to every item
    the stored entry of its fingerprint. *)
Lemma lookup_distinct (b : Backend) (s s' : Store) (inputs : list string) (m : string)
    (items : list BatchItem) :
  unique_hashes (rows s) ->
  NoDup (map (fun x => Hash.GenerateInputHash x m) inputs) ->
  GetBatchCachedEmbeddings b (prepareBatchItems inputs m) s = (inl items, s') ->
  items = Ledger.resolved_from (rows s) m 0 inputs.
Proof.
  intros Hu Hnd Hget. apply list_eq. intros i.
  rewrite resolved_from_lookup.
  destruct (inputs !! i) as [x|] eqn:Hi.
  - rewrite (lookup_prepared b s s' inputs m items i x Hu Hget Hi).
    assert (Hl : last_index (Hash.GenerateInputHash x m) (prepareBatchItems inputs m)
                 = Some i).
    { apply (last_index_distinct (prepareBatchItems inputs m) i
               (mkItem x (Hash.GenerateInputHash x m) i None)).
      - rewrite prepared_hashes. exact Hnd.
      - rewrite prepared_lookup, Hi. reflexivity. }
    rewrite Hl, decide_True by reflexivity. reflexivity.
  - simpl. apply lookup_ge_None.
    apply GetBatchCachedEmbeddings_inl in Hget. destruct Hget as [-> _].
    rewrite attach_length. unfold prepareBatchItems. rewrite prepare_from_length.
    apply lookup_ge_None. exact Hi.
Qed.

Lemma resolved_positions (t : list CachedEmbedding) (m : string) (inputs : list string)
    (i : nat) (item : BatchItem) :
  Ledger.resolved_from t m 0 inputs !! i = Some item -> Index item = i.
Proof.
  rewrite resolved_from_lookup. destruct (inputs !! i); [|discriminate].
  intros [= <-]. reflexivity.
Qed.

Lemma resolved_rank (t : list CachedEmbedding) (m : string) (inputs : list string)
    (i : nat) :
  length (getUncachedItems (take i (Ledger.resolved_from t m 0 inputs)))
  = Ledger.rank t m inputs i.
Proof.
  unfold Ledger.rank. rewrite resolved_from_take, <- resolved_from_misses with (k := 0).
  rewrite length_map. reflexivity.
Qed.

(** The response assembled from the resolved items and the vectors of the
    misses. *)
Lemma resolved_response (t : list CachedEmbedding) (m : string) (inputs : list string)
    (vectors : list (list float64)) :
  length vectors = length (Ledger.miss_texts t m inputs) ->
  exists results,
    assembleBatchResults (Ledger.resolved_from t m 0 inputs)
      (getUncachedItems (Ledger.resolved_from t m 0 inputs)) vectors (length inputs)
    = Some results
    /\ length results = length inputs
    /\ forall i x, inputs !! i = Some x ->
         match List.find (hash_eqb (Hash.GenerateInputHash x m)) t with
         | Some e =>
           extractEmbeddings results !! i = Some (EmbeddingVector e)
           /\ extractCachedFlags results !! i = Some true
         | None =>
           extractCachedFlags results !! i = Some false
           /\ Ledger.miss_texts t m inputs !! Ledger.rank t m inputs i = Some x
           /\ extractEmbeddings results !! i = vectors !! Ledger.rank t m inputs i
         end.
Proof.
  intros Hlen. set (items := Ledger.resolved_from t m 0 inputs).
  destruct (assemble_spec items vectors) as (results & Hasm & Hlenr & Hslots).
  { intros i item. apply resolved_positions. }
  { rewrite Hlen, <- (resolved_from_misses t m 0 inputs), length_map. reflexivity. }
  unfold items in Hasm at 3. rewrite resolved_from_length in Hasm.
  exists results. split; [exact Hasm|]. split.
  { rewrite Hlenr. apply resolved_from_length. }
  intros i x Hi.
  assert (Hitem : items !! i
                  = Some (mkItem x (Hash.GenerateInputHash x m) i
                            (List.find (hash_eqb (Hash.GenerateInputHash x m)) t))).
  { unfold items. rewrite resolved_from_lookup, Hi. reflexivity. }
  specialize (Hslots i _ Hitem). cbn [Cached] in Hslots.
  unfold extractEmbeddings, extractCachedFlags. rewrite !list_lookup_fmap.
  destruct (List.find _ t) as [e|] eqn:Ef.
  - rewrite Hslots. split; reflexivity.
  - destruct Hslots as (v & Hv & Hr). rewrite Hr. simpl.
    unfold items in Hv. rewrite resolved_rank in Hv.
    split; [reflexivity|]. split; [|congruence].
    pose proof (getUncachedItems_rank items i _ Hitem eq_refl) as Hrank.
    unfold items in Hrank. rewrite resolved_rank in Hrank.
    rewrite <- (resolved_from_misses t m 0 inputs), list_lookup_fmap, Hrank.
    reflexivity.
Qed.

(** The run of the batch path on inputs with pairwise distinct
    fingerprints and at least one miss, when the lookup goes through and
    the provider call for the misses returns a response. *)
Lemma batch_run_distinct (c : Cache) (req : EmbeddingRequest) (w : World)
    (inputs : list string) (aiResponse : Openai.EmbeddingResponse) (sn : Openai.Sent) :
  normalizeInput (Input req) = inl inputs ->
  inputs <> [] -> (N.of_nat (length inputs) <= max_batch)%N ->
  NoDup (map (fun x => Hash.GenerateInputHash x (effective_model c req)) inputs) ->
  unique_hashes (rows (store w)) ->
  fault (db c) (ops (store w)) = None ->
  Ledger.miss_texts (rows (store w)) (effective_model c req) inputs <> [] ->
  Openai.CreateBatchEmbeddings (ai c)
    (Ledger.miss_texts (rows (store w)) (effective_model c req) inputs) (sent w)
  = (inl aiResponse, sn) ->
  length (Openai.Embeddings aiResponse)
  = length (Ledger.miss_texts (rows (store w)) (effective_model c req) inputs) ->
  let m := effective_model c req in
  let items := Ledger.resolved_from (rows (store w)) m 0 inputs in
  exists results chan,
    assembleBatchResults items (getUncachedItems items) (Openai.Embeddings aiResponse)
                         (length inputs) = Some results
    /\ processBatchRequest c req w
       = (inl (mkResponse [] (extractEmbeddings results) m false
                          (extractCachedFlags results) Openai.no_usage),
          mkWorld (storeBatchEmbeddings c (getUncachedItems items)
                     (Openai.Embeddings aiResponse) m
                     (mkStore (rows (store w)) (S (ops (store w)))))
                  sn chan).
Proof.
  intros Hnorm Hne Hmax Hnd Hu Hfault Hmiss Hcall Hlen m items.
  subst items. set (t := rows (store w)).
  unfold processBatchRequest. rewrite Hnorm.
  replace (length inputs =? 0) with false
    by (destruct inputs; [congruence|reflexivity]).
  replace (max_batch <? N.of_nat (length inputs))%N with false
    by (symmetry; apply N.ltb_ge; exact Hmax).
  fold m.
  assert (Hpne : prepareBatchItems inputs m <> [])
    by (destruct inputs; [congruence|discriminate]).
  pose proof (GetBatchCachedEmbeddings_runs (db c) _ (store w) Hpne Hfault) as Hget.
  rewrite Hget.
  pose proof (lookup_distinct (db c) (store w) _ inputs m _ Hu Hnd Hget) as Hres.
  rewrite Hres. fold m t in Hmiss, Hcall, Hlen |- *.
  set (items := Ledger.resolved_from t m 0 inputs).
  set (w1 := mkWorld _ (sent w) (usageChan w)).
  destruct (track_hits_frame c items w1) as [Hst Hsn].
  set (w2 := track_hits c items w1) in *.
  assert (Htexts : map Database.Input (getUncachedItems items)
                   = Ledger.miss_texts t m inputs)
    by apply resolved_from_misses.
  replace (0 <? length (getUncachedItems items)) with true.
  2: { symmetry. apply Nat.ltb_lt. rewrite <- (length_map Database.Input), Htexts.
       destruct (Ledger.miss_texts t m inputs); [congruence|simpl; lia]. }
  unfold createBatchEmbeddings. rewrite Htexts, Hsn. cbn [sent w1]. rewrite Hcall.
  destruct (resolved_response t m inputs (Openai.Embeddings aiResponse) Hlen)
    as (results & Hasm & _).
  fold items in Hasm. rewrite Hasm, Hst.
  exists results, (usageChan w2). split; reflexivity.
Qed.

(** X19. The batch path on inputs with pairwise distinct fingerprints, when
    the lookup goes through and the provider call for the misses returns
    one vector per miss: the response has one vector and one flag per
    input; position [i] carries the stored vector and [true] when the
    fingerprint of input [i] is stored, and else [false] and the provider
    vector of the same rank as input [i] has among the misses. *)
Theorem batch_reconciles (c : Cache) (req : EmbeddingRequest) (w : World)
    (inputs : list string) (aiResponse : Openai.EmbeddingResponse) (sn : Openai.Sent) :
  normalizeInput (Input req) = inl inputs ->
  inputs <> [] -> (N.of_nat (length inputs) <= max_batch)%N ->
  NoDup (map (fun x => Hash.GenerateInputHash x (effective_model c req)) inputs) ->
  unique_hashes (rows (store w)) ->
  fault (db c) (ops (store w)) = None ->
  Ledger.miss_texts (rows (store w)) (effective_model c req) inputs <> [] ->
  Openai.CreateBatchEmbeddings (ai c)
    (Ledger.miss_texts (rows (store w)) (effective_model c req) inputs) (sent w)
  = (inl aiResponse, sn) ->
  length (Openai.Embeddings aiResponse)
  = length (Ledger.miss_texts (rows (store w)) (effective_model c req) inputs) ->
  exists response w',
    processBatchRequest c req w = (inl response, w')
    /\ sent w' = sn
    /\ length (Embeddings response) = length inputs
    /\ length (CachedItems response) = length inputs
    /\ forall i x, inputs !! i = Some x ->
         match List.find (hash_eqb (Hash.GenerateInputHash x (effective_model c req)))
                         (rows (store w)) with
         | Some e =>
           Embeddings response !! i = Some (EmbeddingVector e)
           /\ CachedItems response !! i = Some true
         | None =>
           CachedItems response !! i = Some false
           /\ Ledger.miss_texts (rows (store w)) (effective_model c req) inputs
               !! Ledger.rank (rows (store w)) (effective_model c req) inputs i = Some x
           /\ Embeddings response !! i
              = Openai.Embeddings aiResponse
                !! Ledger.rank (rows (store w)) (effective_model c req) inputs i
         end.
Proof.
  intros Hnorm Hne Hmax Hnd Hu Hfault Hmiss Hcall Hlen.
  destruct (batch_run_distinct c req w inputs aiResponse sn Hnorm Hne Hmax Hnd Hu Hfault
              Hmiss Hcall Hlen) as (results & chan & Hasm & Hrun).
  destruct (resolved_response (rows (store w)) (effective_model c req) inputs
              (Openai.Embeddings aiResponse) Hlen) as (results' & Hasm' & Hlenr & Hslots).
  rewrite Hasm in Hasm'. injection Hasm' as <-.
  eexists _, _. split; [exact Hrun|]. cbn [sent Embeddings CachedItems].
  split; [reflexivity|].
  unfold extractEmbeddings, extractCachedFlags. rewrite !length_map.
  split; [exact Hlenr|]. split; [exact Hlenr|]. exact Hslots.
Qed.

Lemma batch_reconciles_witness :
  exists response w',
    processBatchRequest Scenario.cache (Scenario.batch ["a"; "b"]) Scenario.world_a
    = (inl response, w')
    /\ sent w' = [["b"]]
    /\ length (Embeddings response) = 2.
Proof.
  destruct (batch_reconciles Scenario.cache (Scenario.batch ["a"; "b"]) Scenario.world_a
              ["a"; "b"] (Openai.mkResponse [] [[2.5%float]] "m" (Openai.mkUsage 3 3))
              [["b"]])
    as (response & w' & Hrun & Hsent & Hlen & _).
  - reflexivity.
  - discriminate.
  - vm_compute. discriminate.
  - vm_compute. apply NoDup_cons. split; [|apply NoDup_singleton].
    intros H. apply list_elem_of_singleton in H. discriminate H.
  - apply NoDup_singleton.
  - reflexivity.
  - vm_compute. discriminate.
  - vm_compute. reflexivity.
  - vm_compute. reflexivity.
  - exists response, w'. split; [exact Hrun|]. split; [exact Hsent|exact Hlen].
Defined.

(** X20. When every fingerprint of the batch is stored (and they are
    pairwise distinct), the batch is answered from the table alone: no
    request is sent to the provider, no row is changed, every flag is
    [true] and every vector is the stored one. *)
Theorem batch_all_hits (c : Cache) (req : EmbeddingRequest) (w : World)
    (inputs : list string) :
  normalizeInput (Input req) = inl inputs ->
  inputs <> [] -> (N.of_nat (length inputs) <= max_batch)%N ->
  NoDup (map (fun x => Hash.GenerateInputHash x (effective_model c req)) inputs) ->
  unique_hashes (rows (store w)) ->
  fault (db c) (ops (store w)) = None ->
  Ledger.miss_texts (rows (store w)) (effective_model c req) inputs = [] ->
  exists response w',
    processBatchRequest c req w = (inl response, w')
    /\ sent w' = sent w
    /\ rows (store w') = rows (store w)
    /\ length (Embeddings response) = length inputs
    /\ forall i x, inputs !! i = Some x ->
         exists e,
           List.find (hash_eqb (Hash.GenerateInputHash x (effective_model c req)))
                     (rows (store w)) = Some e
           /\ Embeddings response !! i = Some (EmbeddingVector e)
           /\ CachedItems response !! i = Some true.
Proof.
  intros Hnorm Hne Hmax Hnd Hu Hfault Hmiss.
  set (m := effective_model c req) in *. set (t := rows (store w)).
  unfold processBatchRequest. rewrite Hnorm.
  replace (length inputs =? 0) with false
    by (destruct inputs; [congruence|reflexivity]).
  replace (max_batch <? N.of_nat (length inputs))%N with false
    by (symmetry; apply N.ltb_ge; exact Hmax).
  fold m.
  assert (Hpne : prepareBatchItems inputs m <> [])
    by (destruct inputs; [congruence|discriminate]).
  pose proof (GetBatchCachedEmbeddings_runs (db c) _ (store w) Hpne Hfault) as Hget.
  rewrite Hget.
  pose proof (lookup_distinct (db c) (store w) _ inputs m _ Hu Hnd Hget) as Hres.
  rewrite Hres. fold t in Hmiss |- *.
  set (items := Ledger.resolved_from t m 0 inputs).
  set (w1 := mkWorld _ (sent w) (usageChan w)).
  destruct (track_hits_frame c items w1) as [Hst Hsn].
  set (w2 := track_hits c items w1) in *.
  assert (Hun : getUncachedItems items = []).
  { pose proof (resolved_from_misses t m 0 inputs) as Ht. fold items in Ht.
    rewrite Hmiss in Ht. destruct (getUncachedItems items); [reflexivity|discriminate Ht]. }
  rewrite Hun. cbn [length Nat.ltb Nat.leb].
  destruct (resolved_response t m inputs []) as (results & Hasm & Hlenr & Hslots).
  { rewrite Hmiss. reflexivity. }
  fold items in Hasm. rewrite Hun in Hasm. rewrite Hasm.
  eexists _, _. split; [reflexivity|]. cbn [Embeddings CachedItems].
  split; [exact Hsn|]. split; [rewrite Hst; reflexivity|].
  unfold extractEmbeddings. rewrite length_map. split; [exact Hlenr|].
  intros i x Hi. specialize (Hslots i x Hi).
  destruct (List.find _ t) as [e|].
  - exists e. tauto.
  - destruct Hslots as (_ & Hm & _). rewrite Hmiss in Hm.
    rewrite lookup_nil in Hm. discriminate Hm.
Qed.

Lemma batch_all_hits_witness :
  exists response w',
    processBatchRequest Scenario.cache (Scenario.batch ["a"]) Scenario.world_a
    = (inl response, w')
    /\ sent w' = [].
Proof.
  destruct (batch_all_hits Scenario.cache (Scenario.batch ["a"]) Scenario.world_a ["a"])
    as (response & w' & Hrun & Hsent & _).
  - reflexivity.
  - discriminate.
  - vm_compute. discriminate.
  - apply NoDup_singleton.
  - apply NoDup_singleton.
  - reflexivity.
  - vm_compute. reflexivity.
  - exists response, w'. split; [exact Hrun|exact Hsent].
Defined.

Lemma assemble_no_panic (inputs : list string) (items : list BatchItem)
    (vectors : list (list float64)) :
  (forall i item, items !! i = Some item -> Index item = i) ->
  length items = length inputs ->
  assembleBatchResults items (getUncachedItems items) vectors (length inputs) <> None.
Proof.
  intros Hpos Hlen. destruct (positional_indexes items Hpos) as [Hnd Hrange].
  unfold assembleBatchResults.
  destruct (fill_hits_spec items (repeat None (length inputs))) as (r1 & Hfill1 & _).
  { intros item Hin. rewrite repeat_length, <- Hlen. apply Hrange. exact Hin. }
  { exact Hnd. }
  rewrite Hfill1. pose proof (fill_hits_length _ _ _ Hfill1) as Hl1.
  rewrite repeat_length in Hl1.
  assert (Hgen : forall us vs r,
            (forall u, In u us -> Index u < length r) ->
            fill_misses us vs r <> None).
  { clear. induction us as [|u rest IH]; intros vs r Hr; [discriminate|].
    destruct vs as [|v vs]; [discriminate|]. cbn [fill_misses].
    rewrite store_at_in_range by (apply Hr; left; reflexivity).
    apply IH. intros u' Hu'. rewrite length_insert. apply Hr. right. exact Hu'. }
  apply Hgen. intros u Hu. rewrite Hl1, <- Hlen. apply Hrange.
  apply getUncachedItems_In in Hu. tauto.
Qed.

Lemma assemble_length (items us : list BatchItem) (vectors : list (list float64))
    (n : nat) (results : list (option BatchResult)) :
  assembleBatchResults items us vectors n = Some results -> length results = n.
Proof.
  unfold assembleBatchResults.
  destruct (fill_hits items (repeat None n)) as [r1|] eqn:E1; [|discriminate].
  intros E2. rewrite (fill_misses_length _ _ _ _ E2), (fill_hits_length _ _ _ E1).
  apply repeat_length.
Qed.

Lemma looked_up_positions (b : Backend) (inputs : list string) (m : string)
    (items : list BatchItem) (s s' : Store) :
  GetBatchCachedEmbeddings b (prepareBatchItems inputs m) s = (inl items, s') ->
  (forall i item, items !! i = Some item -> Index item = i)
  /\ length items = length inputs /\ rows s' = rows s.
Proof.
  intros Hget. apply GetBatchCachedEmbeddings_inl in Hget. destruct Hget as [-> Hrows].
  split; [|split; [|exact Hrows]].
  - intros i item Hi. destruct (attach_shape _ _ _ _ _ Hi) as (item0 & H0 & _ & _ & Hidx & _).
    rewrite prepared_lookup in H0. destruct (inputs !! i); [|discriminate].
    injection H0 as <-. exact Hidx.
  - rewrite attach_length. unfold prepareBatchItems. apply prepare_from_length.
Qed.

Lemma lookup_failure_rows (b : Backend) (items : list BatchItem) (s s' : Store)
    (err : error) :
  GetBatchCachedEmbeddings b items s = (inr err, s') -> rows s' = rows s.
Proof.
  unfold GetBatchCachedEmbeddings. destruct (length items =? 0); [discriminate|].
  destruct (fault b (ops s)); [|discriminate]. intros [= _ <-]. reflexivity.
Qed.

(** X21. A request that ends in an error has changed no row of the table:
    the single path fails before its write, and the batch path writes only
    after the provider call has succeeded, after which it cannot fail. *)
Theorem failed_request_writes_nothing (c : Cache) (req : EmbeddingRequest) (w w' : World)
    (err : error) :
  GetEmbedding c req w = (inr err, w') -> rows (store w') = rows (store w).
Proof.
  unfold GetEmbedding. destruct (isBatchInput (Input req)).
  - unfold processBatchRequest.
    destruct (normalizeInput (Input req)) as [inputs|e]; [|intros [= _ <-]; reflexivity].
    destruct (length inputs =? 0); [intros [= _ <-]; reflexivity|].
    destruct (max_batch <? N.of_nat (length inputs))%N; [intros [= _ <-]; reflexivity|].
    destruct (GetBatchCachedEmbeddings _ _ _) as [[items|e] st] eqn:Hget.
    2: { intros [= _ <-]. simpl. exact (lookup_failure_rows _ _ _ _ _ Hget). }
    destruct (looked_up_positions _ _ _ _ _ _ Hget) as (Hpos & Hlen & Hrows).
    set (w1 := mkWorld st (sent w) (usageChan w)).
    destruct (track_hits_frame c items w1) as [Hst Hsn].
    set (w2 := track_hits c items w1) in *.
    destruct (0 <? length (getUncachedItems items)).
    + destruct (createBatchEmbeddings _ _ _ _) as [[aiResponse|e] sn].
      * pose proof (assemble_no_panic inputs items (Openai.Embeddings aiResponse)
                      Hpos Hlen) as Hok.
        destruct (assembleBatchResults _ _ _ _); [discriminate|congruence].
      * intros [= _ <-]. simpl. rewrite Hst. exact Hrows.
    + pose proof (assemble_no_panic inputs items [] Hpos Hlen) as Hok.
      destruct (assembleBatchResults _ _ _ _); [discriminate|congruence].
  - unfold processSingleRequest.
    destruct (normalizeInput (Input req)) as [[|input rest]|e];
      try (intros [= _ <-]; reflexivity).
    destruct (String.eqb input EmptyString); [intros [= _ <-]; reflexivity|].
    pose proof (GetCachedEmbedding_store (db c)
                  (Hash.GenerateInputHash input (effective_model c req)) (store w))
      as Hst.
    destruct (GetCachedEmbedding _ _ _) as [[[cached|]|e] st];
      simpl in Hst; subst st.
    + discriminate.
    + destruct (Openai.CreateEmbedding _ _ _) as [[aiResponse|e] sn].
      * destruct (StoreEmbedding _ _ _ _ _ _). discriminate.
      * intros [= _ <-]. reflexivity.
    + intros [= _ <-]. reflexivity.
Qed.

Lemma failed_request_writes_nothing_witness :
  rows (store Scenario.world_a) = rows (store Scenario.world_a).
Proof.
  apply (failed_request_writes_nothing Scenario.cache
           (mkRequest (IString EmptyString) "m") Scenario.world_a Scenario.world_a
           (Errorf "input text cannot be empty" [])).
  reflexivity.
Defined.

(** X22. Every successful batch response has one vector and one flag per
    input of a batch of 1 to 1000 items, names the effective model, and
    carries neither a single embedding, nor a cached flag, nor token
    usage. *)
Theorem batch_response_shape (c : Cache) (req : EmbeddingRequest) (w w' : World)
    (response : EmbeddingResponse) :
  processBatchRequest c req w = (inl response, w') ->
  exists inputs,
    normalizeInput (Input req) = inl inputs
    /\ inputs <> [] /\ (N.of_nat (length inputs) <= max_batch)%N
    /\ length (Embeddings response) = length inputs
    /\ length (CachedItems response) = length inputs
    /\ RespModel response = effective_model c req
    /\ Embedding response = [] /\ RespCached response = false
    /\ TokenUsage response = Openai.no_usage.
Proof.
  unfold processBatchRequest.
  destruct (normalizeInput (Input req)) as [inputs|e]; [|discriminate].
  destruct (length inputs =? 0) eqn:E0; [discriminate|].
  destruct (max_batch <? N.of_nat (length inputs))%N eqn:Emax; [discriminate|].
  destruct (GetBatchCachedEmbeddings _ _ _) as [[items|e] st]; [|discriminate].
  intros H. exists inputs. split; [reflexivity|].
  split; [intros ->; discriminate E0|]. split; [apply N.ltb_ge; exact Emax|].
  assert (Hshape : forall vectors wx,
            match assembleBatchResults items (getUncachedItems items) vectors
                                       (length inputs) with
            | Some results =>
              (inl (mkResponse [] (extractEmbeddings results) (effective_model c req)
                               false (extractCachedFlags results) Openai.no_usage), wx)
            | None => (inr (External "panic: index out of range"), wx)
            end = (inl response, w') ->
            length (Embeddings response) = length inputs
            /\ length (CachedItems response) = length inputs
            /\ RespModel response = effective_model c req
            /\ Embedding response = [] /\ RespCached response = false
            /\ TokenUsage response = Openai.no_usage).
  { intros vectors wx.
    destruct (assembleBatchResults _ _ _ _) as [results|] eqn:Ea; [|discriminate].
    intros [= <- _]. cbn. unfold extractEmbeddings, extractCachedFlags.
    rewrite !length_map, (assemble_length _ _ _ _ _ Ea). repeat split. }
  destruct (0 <? length (getUncachedItems items)).
  - destruct (createBatchEmbeddings _ _ _ _) as [[aiResponse|e] sn]; [|discriminate].
    exact (Hshape _ _ H).
  - exact (Hshape _ _ H).
Qed.

Lemma batch_response_shape_witness :
  exists inputs,
    normalizeInput (Input (Scenario.batch ["a"; "a"])) = inl inputs
    /\ length inputs = 2.
Proof.
  destruct (processBatchRequest Scenario.cache (Scenario.batch ["a"; "a"])
                                Scenario.world_a) as [[response|err] w'] eqn:Hrun;
    [|vm_compute in Hrun; discriminate Hrun].
  destruct (batch_response_shape _ _ _ _ _ Hrun) as (inputs & Hn & _).
  exists inputs. split; [exact Hn|].
  vm_compute in Hn. injection Hn as <-. reflexivity.
Defined.

End BatchFacts.

(** ** Orchestrator: the single path *)
Section SingleFacts.
Import Database Cache.
Local Open Scope nat_scope.

(** X23. A single request whose fingerprint is stored is answered from the
    table: the response carries the stored vector and model with the
    cached flag set, nothing is sent to the provider, no row changes, and
    the id of the entry is handed to the tracker. *)
Theorem single_hit (c : Cache) (input model : string) (w : World) (e : CachedEmbedding) :
  input <> EmptyString ->
  unique_hashes (rows (store w)) ->
  fault (db c) (ops (store w)) = None ->
  In e (rows (store w)) ->
  InputHash e
  = Hash.GenerateInputHash input (effective_model c (mkRequest (IString input) model)) ->
  GetEmbedding c (mkRequest (IString input) model) w
  = (inl (mkResponse (EmbeddingVector e) [] (ModelName e) true [] Openai.no_usage),
     mkWorld (mkStore (rows (store w)) (S (ops (store w)))) (sent w)
             (if tracker c then Tracker.send_or_drop (ID e) (usageChan w)
              else usageChan w)).
Proof.
  intros Hne Hu Hfault Hin Hhash. unfold GetEmbedding. cbn [Input isBatchInput].
  unfold processSingleRequest. cbn [Input normalizeInput].
  apply String.eqb_neq in Hne. rewrite Hne.
  rewrite <- Hhash, (GetCachedEmbedding_hit (db c) _ _ e Hfault (find_unique _ e Hu Hin)).
  unfold TrackUsage. cbn [store sent usageChan]. destruct (tracker c); reflexivity.
Qed.

Lemma single_hit_witness :
  GetEmbedding Scenario.cache (mkRequest (IString "a") "m") Scenario.world_a
  = (inl (mkResponse [1.5%float] [] "m" true [] Openai.no_usage),
     mkWorld (mkStore [Scenario.row_a] 1) [] [1%N]).
Proof.
  apply (single_hit Scenario.cache "a" "m" Scenario.world_a Scenario.row_a).
  - discriminate.
  - apply NoDup_singleton.
  - reflexivity.
  - left. reflexivity.
  - reflexivity.
Defined.

(** X24. On a pgx pool the single path never reaches the provider.  The
    pool reports a missing row as [pgx.ErrNoRows], which is not [==] to
    [sql.ErrNoRows], so [GetCachedEmbedding] wraps and returns it.  A single
    request therefore sends nothing to the provider and changes no row,
    whatever it returns; and when its lookup goes through and finds no row
    under the fingerprint, it fails with "failed to check cache". *)
Theorem single_miss_fails (c : Cache) (input model : string) (w : World) :
  let req := mkRequest (IString input) model in
  pgx_pool (db c) ->
  sent (snd (GetEmbedding c req w)) = sent w
  /\ rows (store (snd (GetEmbedding c req w))) = rows (store w)
  /\ (input <> EmptyString ->
      fault (db c) (ops (store w)) = None ->
      ~ In (Hash.GenerateInputHash input (effective_model c req))
           (map InputHash (rows (store w))) ->
      GetEmbedding c req w
      = (inr (Wrapf "failed to check cache: %w" []
                (Wrapf "failed to query cached embedding: %w" [] Pgx.ErrNoRows)),
         mkWorld (mkStore (rows (store w)) (S (ops (store w)))) (sent w) (usageChan w))).
Proof.
  intros req Hpool. unfold GetEmbedding. subst req. cbn [Input isBatchInput].
  unfold processSingleRequest. cbn [Input normalizeInput].
  set (m := effective_model c (mkRequest (IString input) model)).
  destruct (String.eqb input EmptyString) eqn:Hempty.
  - apply String.eqb_eq in Hempty. repeat split; try reflexivity.
    intros Hne. contradiction.
  - pose proof (GetCachedEmbedding_store (db c) (Hash.GenerateInputHash input m) (store w))
      as Hst.
    pose proof (GetCachedEmbedding_never_nil (db c) (Hash.GenerateInputHash input m)
                  (store w) Hpool) as Hnil.
    split; [|split].
    + destruct (GetCachedEmbedding _ _ _) as [[[cached|]|e] st]; simpl in Hst; subst st.
      * unfold TrackUsage. destruct (tracker c); reflexivity.
      * exfalso. apply Hnil. reflexivity.
      * reflexivity.
    + destruct (GetCachedEmbedding _ _ _) as [[[cached|]|e] st]; simpl in Hst; subst st.
      * unfold TrackUsage. destruct (tracker c); reflexivity.
      * exfalso. apply Hnil. reflexivity.
      * reflexivity.
    + intros _ Hfault Hfresh.
      rewrite (GetCachedEmbedding_no_row (db c) _ _ Hfault (find_absent _ _ Hfresh)).
      reflexivity.
Qed.

Lemma single_miss_fails_witness :
  GetEmbedding Scenario.cache (mkRequest (IString "Hello world") "m")
               Scenario.empty_world
  = (inr (Wrapf "failed to check cache: %w" []
            (Wrapf "failed to query cached embedding: %w" [] Pgx.ErrNoRows)),
     mkWorld (mkStore [] 1) [] []).
Proof.
  destruct (single_miss_fails Scenario.cache "Hello world" "m" Scenario.empty_world)
    as (_ & _ & H).
  - intros n. discriminate.
  - apply H.
    + discriminate.
    + reflexivity.
    + intros [].
Defined.

(** X25. Validation, exactly: a request passes if and only if its input is
    a string or an array of strings, a collection is not empty and holds
    at most 1000 items, and no item is longer than 10,000 bytes. *)
Theorem validation_exact (c : Cache) (req : EmbeddingRequest) :
  ValidateRequest c req = None
  <-> ~ shape_rejection (Input req) /\ ~ long_item_bytes (Input req).
Proof. apply validate_exact. Qed.

Lemma validation_exact_witness :
  ValidateRequest Scenario.cache (mkRequest (IString "a") "m") = None.
Proof.
  apply (validation_exact Scenario.cache (mkRequest (IString "a") "m")). split.
  - intros [H|[H|[(v & x & H & _)|[[H|H]|[H _]]]]]; discriminate H || exact H.
  - intros (item & [<-|[]] & Hlt). vm_compute in Hlt. discriminate Hlt.
Defined.

Lemma first_too_long_reports (k : nat) (l : list string) (err : error) :
  first_too_long k l = Some err ->
  exists i item,
    l !! i = Some item /\ too_long item = true
    /\ (forall j other, j < i -> l !! j = Some other -> too_long other = false)
    /\ err = Errorf "batch input item at index %d too long (max 10000 characters)"
                    [Z.of_nat (k + i)].
Proof.
  revert k. induction l as [|x rest IH]; intros k; simpl; [discriminate|].
  destruct (too_long x) eqn:E.
  - intros [= <-]. exists 0, x. rewrite Nat.add_0_r.
    repeat split; try assumption. intros j other Hj. lia.
  - intros H. destruct (IH (S k) H) as (i & item & Hi & Hlong & Hbefore & ->).
    exists (S i), item. split; [exact Hi|]. split; [exact Hlong|]. split.
    + intros [|j] other Hj Ho; simpl in Ho; [congruence|].
      apply (Hbefore j); [lia|exact Ho].
    + do 3 f_equal. lia.
Qed.

Lemma strings_of_reports (k : nat) (v : list iface) (err : error) :
  strings_of k v = inr err ->
  exists i x,
    v !! i = Some x /\ is_string_value x = false
    /\ (forall j y, j < i -> v !! j = Some y -> is_string_value y = true)
    /\ err = Errorf "batch input item at index %d is not a string" [Z.of_nat (k + i)].
Proof.
  revert k. induction v as [|x rest IH]; intros k; [discriminate|].
  assert (Hhead : is_string_value x = false ->
            exists i x0, (x :: rest) !! i = Some x0 /\ is_string_value x0 = false
              /\ (forall j y, j < i -> (x :: rest) !! j = Some y -> is_string_value y = true)
              /\ Errorf "batch input item at index %d is not a string" [Z.of_nat k]
                 = Errorf "batch input item at index %d is not a string"
                          [Z.of_nat (k + i)]).
  { intros Hx. exists 0, x. rewrite Nat.add_0_r. repeat split; try assumption.
    intros j y Hj. lia. }
  destruct x; simpl;
    try (intros [= <-]; destruct (Hhead eq_refl) as (i & x0 & H1 & H2 & H3 & H4);
         exists i, x0; repeat split; assumption).
  clear Hhead. destruct (strings_of (S k) rest) as [l|e] eqn:Es; [discriminate|].
  intros [= ->]. destruct (IH (S k) Es) as (i & x & Hi & Hx & Hbefore & ->).
  exists (S i), x. split; [exact Hi|]. split; [exact Hx|]. split.
  - intros [|j] y Hj Hy; simpl in Hy; [injection Hy as <-; reflexivity|].
    apply (Hbefore j); [lia|exact Hy].
  - do 3 f_equal. lia.
Qed.

(** X26. The error of a rejected batch names the first offending position:
    the first element that is not a string, or else, in a batch of at most
    1000 strings, the first item longer than 10,000 bytes. *)
Theorem validation_names_first_offender (c : Cache) (v : list iface) (model : string)
    (err : error) :
  ValidateRequest c (mkRequest (IArray v) model) = Some err ->
  v = [] /\ err = Errorf "input cannot be empty" []
  \/ (exists i x,
        v !! i = Some x /\ is_string_value x = false
        /\ (forall j y, j < i -> v !! j = Some y -> is_string_value y = true)
        /\ err = Errorf "batch input item at index %d is not a string" [Z.of_nat i])
  \/ ((max_batch < N.of_nat (length v))%N
      /\ err = Errorf "batch input too large (max 1000 items)" [])
  \/ (exists i item,
        string_items v !! i = Some item /\ too_long item = true
        /\ (forall j other, j < i -> string_items v !! j = Some other ->
                            too_long other = false)
        /\ err = Errorf "batch input item at index %d too long (max 10000 characters)"
                        [Z.of_nat i]).
Proof.
  unfold ValidateRequest. cbn [Input normalizeInput isBatchInput].
  pose proof (strings_of_spec 0 v) as Hspec.
  destruct (strings_of 0 v) as [inputs|e] eqn:Es.
  - destruct Hspec as (-> & Hlen & _).
    destruct (length (string_items v) =? 0) eqn:E0.
    + intros [= <-]. left. split; [|reflexivity].
      apply Nat.eqb_eq in E0. rewrite Hlen in E0. destruct v; [reflexivity|discriminate E0].
    + destruct (max_batch <? N.of_nat (length (string_items v)))%N eqn:Emax.
      * intros [= <-]. right. right. left. split; [|reflexivity].
        apply N.ltb_lt in Emax. rewrite <- Hlen. exact Emax.
      * intros H. right. right. right.
        destruct (first_too_long_reports 0 _ _ H) as (i & item & H1 & H2 & H3 & H4).
        exists i, item. repeat split; assumption.
  - intros [= <-]. right. left.
    destruct (strings_of_reports 0 v e Es) as (i & x & H1 & H2 & H3 & H4).
    exists i, x. repeat split; assumption.
Qed.

Lemma validation_names_first_offender_witness :
  ValidateRequest Scenario.cache
    (mkRequest (IArray [IString "a"; INumber 7%float; IBool true]) "m")
  = Some (Errorf "batch input item at index %d is not a string" [1%Z]).
Proof.
  destruct (validation_names_first_offender Scenario.cache
              [IString "a"; INumber 7%float; IBool true] "m"
              (Errorf "batch input item at index %d is not a string" [1%Z]))
    as [_|_]; vm_compute; reflexivity.
Defined.

End SingleFacts.

(** ** Orchestrator: write-through of a batch *)
Section WriteThrough.
Import Database Cache.
Local Open Scope nat_scope.

(** [storeBatchEmbeddings] on items with pairwise distinct hashes, when
    every statement goes through. *)
Lemma store_batch_spec (c : Cache) (us : list BatchItem) (vs : list (list float64))
    (m : string) (st : Store) :
  unique_hashes (rows st) ->
  NoDup (map Hash us) ->
  length vs = length us ->
  (forall k, k < length us -> fault (db c) (ops st + k) = None) ->
  unique_hashes (rows (storeBatchEmbeddings c us vs m st))
  /\ (forall k u v, us !! k = Some u -> vs !! k = Some v ->
        exists e, List.find (hash_eqb (Hash u)) (rows (storeBatchEmbeddings c us vs m st))
                  = Some e
                  /\ EmbeddingVector e = v)
  /\ (forall h, ~ In h (map Hash us) ->
        List.find (hash_eqb h) (rows (storeBatchEmbeddings c us vs m st))
        = List.find (hash_eqb h) (rows st)).
Proof.
  revert vs st. induction us as [|u rest IH]; intros vs st Hu Hnd Hlen Hfault.
  - simpl. split; [exact Hu|]. split; [|tauto].
    intros k u v Hk. destruct k; discriminate Hk.
  - destruct vs as [|v vs]; [discriminate Hlen|].
    simpl in Hnd. apply NoDup_cons in Hnd. destruct Hnd as [Hnotin Hnd].
    rewrite list_elem_of_In in Hnotin.
    cbn [storeBatchEmbeddings].
    rewrite (StoreEmbedding_runs (db c) (Hash u) (Database.Input u) m v st)
      by (rewrite <- (Nat.add_0_r (ops st)); apply Hfault; simpl; lia).
    set (new := proposed_row (db c) (Hash u) (Database.Input u) m v st).
    set (st1 := mkStore (upsert new (rows st)) (S (ops st))).
    assert (Hu1 : unique_hashes (rows st1)) by (apply upsert_unique; exact Hu).
    destruct (IH vs st1 Hu1 Hnd) as (Hu' & Hstored & Hother).
    { simpl in Hlen. lia. }
    { intros k Hk. simpl. replace (S (ops st + k)) with (ops st + S k) by lia.
      apply Hfault. simpl. lia. }
    split; [exact Hu'|]. split.
    + intros [|k] u' v' Hk Hv; simpl in Hk, Hv.
      * injection Hk as <-. injection Hv as <-.
        rewrite (Hother (Hash u) Hnotin).
        destruct (upsert_find_same new (rows st) Hu) as (r & Hfind & Hcase).
        exists r. split; [exact Hfind|].
        destruct Hcase as [(e & _ & _ & ->)|[_ ->]]; reflexivity.
      * apply (Hstored k); assumption.
    + intros h Hh. rewrite Hother by (intros Hin; apply Hh; right; exact Hin).
      apply (upsert_find_other new). intros ->. apply Hh. left. reflexivity.
Qed.

Lemma resolved_uncached_hashes (t : list CachedEmbedding) (m : string)
    (inputs : list string) :
  NoDup (map (fun x => Hash.GenerateInputHash x m) inputs) ->
  NoDup (map Hash (getUncachedItems (Ledger.resolved_from t m 0 inputs))).
Proof.
  intros Hnd.
  eapply sublist_NoDup;
    [|apply (fmap_sublist Hash); apply getUncachedItems_sublist].
  replace (Hash <$> Ledger.resolved_from t m 0 inputs)
    with (map (fun x => Hash.GenerateInputHash x m) inputs); [exact Hnd|].
  generalize 0. induction inputs as [|x rest IH]; intros k; [reflexivity|].
  simpl. f_equal. apply NoDup_cons in Hnd. apply IH. tauto.
Qed.

(** X27. Write-through of a batch.  In the setting of the reconciliation
    (pairwise distinct fingerprints, a provider response with one vector
    per miss), when the writes go through as well, the table afterwards
    holds, for every input of the batch, an entry under its fingerprint
    whose vector is the one the response carries at that position. *)
Theorem batch_write_through (c : Cache) (req : EmbeddingRequest) (w : World)
    (inputs : list string) (aiResponse : Openai.EmbeddingResponse) (sn : Openai.Sent) :
  normalizeInput (Input req) = inl inputs ->
  inputs <> [] -> (N.of_nat (length inputs) <= max_batch)%N ->
  NoDup (map (fun x => Hash.GenerateInputHash x (effective_model c req)) inputs) ->
  unique_hashes (rows (store w)) ->
  (forall k, k <= length inputs -> fault (db c) (ops (store w) + k) = None) ->
  Ledger.miss_texts (rows (store w)) (effective_model c req) inputs <> [] ->
  Openai.CreateBatchEmbeddings (ai c)
    (Ledger.miss_texts (rows (store w)) (effective_model c req) inputs) (sent w)
  = (inl aiResponse, sn) ->
  length (Openai.Embeddings aiResponse)
  = length (Ledger.miss_texts (rows (store w)) (effective_model c req) inputs) ->
  exists response w',
    processBatchRequest c req w = (inl response, w')
    /\ unique_hashes (rows (store w'))
    /\ forall i x, inputs !! i = Some x ->
         exists e,
           List.find (hash_eqb (Hash.GenerateInputHash x (effective_model c req)))
                     (rows (store w')) = Some e
           /\ Embeddings response !! i = Some (EmbeddingVector e).
Proof.
  intros Hnorm Hne Hmax Hnd Hu Hfault Hmiss Hcall Hlen.
  assert (Hf0 : fault (db c) (ops (store w)) = None)
    by (rewrite <- (Nat.add_0_r (ops (store w))); apply Hfault; lia).
  destruct (batch_run_distinct c req w inputs aiResponse sn Hnorm Hne Hmax Hnd Hu Hf0
              Hmiss Hcall Hlen) as (results & chan & Hasm & Hrun).
  destruct (resolved_response (rows (store w)) (effective_model c req) inputs
              (Openai.Embeddings aiResponse) Hlen) as (results' & Hasm' & Hlenr & Hslots).
  rewrite Hasm in Hasm'. injection Hasm' as <-.
  set (m := effective_model c req) in *. set (t := rows (store w)) in *.
  set (items := Ledger.resolved_from t m 0 inputs) in *.
  set (us := getUncachedItems items) in *.
  assert (Hus : length us <= length inputs).
  { unfold us. etransitivity; [apply getUncachedItems_length|].
    unfold items. rewrite resolved_from_length. reflexivity. }
  destruct (store_batch_spec c us (Openai.Embeddings aiResponse) m
              (mkStore t (S (ops (store w))))) as (Hu' & Hstored & Hother).
  { exact Hu. }
  { apply resolved_uncached_hashes. exact Hnd. }
  { rewrite Hlen. unfold us, items.
    rewrite <- (resolved_from_misses t m 0 inputs), length_map. reflexivity. }
  { intros k Hk. simpl. replace (S (ops (store w) + k)) with (ops (store w) + S k) by lia.
    apply Hfault. lia. }
  eexists _, _. split; [exact Hrun|]. cbn [store Embeddings]. split; [exact Hu'|].
  intros i x Hi. specialize (Hslots i x Hi).
  assert (Hitem : items !! i
                  = Some (mkItem x (Hash.GenerateInputHash x m) i
                            (List.find (hash_eqb (Hash.GenerateInputHash x m)) t))).
  { unfold items. rewrite resolved_from_lookup, Hi. reflexivity. }
  destruct (List.find (hash_eqb (Hash.GenerateInputHash x m)) t) as [e|] eqn:Ef.
  - exists e. split; [|tauto]. rewrite Hother; [exact Ef|].
    intros Hin. apply in_map_iff in Hin. destruct Hin as (u & Hh & Hin).
    apply getUncachedItems_In in Hin. destruct Hin as [Hin Hc].
    apply list_elem_of_In, list_elem_of_lookup_1 in Hin. destruct Hin as [j Hj].
    unfold items in Hj. rewrite resolved_from_lookup in Hj.
    destruct (inputs !! j) as [y|]; [|discriminate]. injection Hj as <-.
    simpl in Hh, Hc. rewrite Hh in Hc. congruence.
  - destruct Hslots as (_ & _ & Hvec).
    pose proof (getUncachedItems_rank items i _ Hitem eq_refl) as Hrank.
    unfold items in Hrank. rewrite resolved_rank in Hrank.
    destruct (lookup_lt_is_Some_2 (Openai.Embeddings aiResponse)
                (Ledger.rank t m inputs i)) as [v Hv].
    { rewrite Hlen. apply lookup_lt_Some in Hrank.
      rewrite <- (length_map Database.Input), resolved_from_misses in Hrank. exact Hrank. }
    destruct (Hstored _ _ v Hrank Hv) as (e & Hfind & Hvec').
    exists e. split; [exact Hfind|]. rewrite Hvec, Hv, Hvec'. reflexivity.
Qed.

Lemma batch_write_through_witness :
  exists response w',
    processBatchRequest Scenario.cache (Scenario.batch ["a"; "b"]) Scenario.world_a
    = (inl response, w')
    /\ unique_hashes (rows (store w')).
Proof.
  destruct (batch_write_through Scenario.cache (Scenario.batch ["a"; "b"])
              Scenario.world_a ["a"; "b"]
              (Openai.mkResponse [] [[2.5%float]] "m" (Openai.mkUsage 3 3)) [["b"]])
    as (response & w' & Hrun & Hu & _).
  - reflexivity.
  - discriminate.
  - vm_compute. discriminate.
  - vm_compute. apply NoDup_cons. split; [|apply NoDup_singleton].
    intros H. apply list_elem_of_singleton in H. discriminate H.
  - apply NoDup_singleton.
  - reflexivity.
  - vm_compute. discriminate.
  - vm_compute. reflexivity.
  - vm_compute. reflexivity.
  - exists response, w'. split; [exact Hrun|exact Hu].
Defined.

End WriteThrough.
